(** * create_standalone_project.py: path mapping and textual rewriting

    A shallow embedding of the pure parts of [create_standalone_project.py]:
    the target path mapper ([create_target_path]), the analysis of the
    include-directories attribute, the descriptor rewriter (the loop over
    [sorted_replacements] and the final generic prefix replacement), the
    Makefile passes, and the order of the file-system effects up to the read
    of the project file.

    Python [str] values are modelled as lists of characters.  A character is
    a code point below 256 (the eight bits of [ascii]); on these code points
    [str.lower], [str.isspace] and the case-insensitive comparison of a
    literal by [re] are the functions [lower], [isspace] and [ci_eqb] below.
    Paths are split and joined as [posixpath] does. *)

From Stdlib Require Import Ascii String.
From Stdlib Require Import List Bool Arith Lia Permutation Sorted.
Import ListNotations.

(** ** Text *)

Definition text := list ascii.

(** A Python string literal. *)
Definition str (s : string) : text := list_ascii_of_string s.

Definition text_eqb (a b : text) : bool :=
  if list_eq_dec ascii_dec a b then true else false.

(** [s.startswith(p)] *)
Fixpoint startswith (p s : text) : bool :=
  match p, s with
  | [], _ => true
  | _ :: _, [] => false
  | a :: p', b :: s' => Ascii.eqb a b && startswith p' s'
  end.

(** [s.split(sep)] for a one-character separator: never the empty list. *)
Fixpoint split_on (sep : ascii) (s : text) : list text :=
  match s with
  | [] => [[]]
  | c :: s' =>
      if Ascii.eqb c sep then [] :: split_on sep s'
      else match split_on sep s' with
           | [] => [[c]]
           | p :: ps => (c :: p) :: ps
           end
  end.

(** [sep.join(parts)] *)
Fixpoint join (sep : text) (parts : list text) : text :=
  match parts with
  | [] => []
  | [p] => p
  | p :: ps => p ++ sep ++ join sep ps
  end.

(** [s.replace(a, b)] for one-character [a] and [b]. *)
Definition replace_char (a b : ascii) (s : text) : text :=
  map (fun c => if Ascii.eqb c a then b else c) s.

(** [posixpath.basename]: what follows the last ['/']. *)
Definition basename (p : text) : text := last (split_on "/" p) [].

(** [posixpath.join(a, *parts)] *)
Definition path_join1 (path b : text) : text :=
  if startswith (str "/") b then b
  else match path with
       | [] => b
       | _ => if Ascii.eqb (last path " "%char) "/" then path ++ b
              else path ++ str "/" ++ b
       end.

Definition path_join (a : text) (parts : list text) : text :=
  fold_left path_join1 parts a.

(** ** Configuration *)

Definition SDK_FILES_SUBDIR : text := str "sdk_files".

(** ** Target path mapper *)

Definition dotdot : text := str "..".

Definition is_dotdot (part : text) : bool := text_eqb part dotdot.

(** [[part for part in path_parts if part != '..']] *)
Definition rel_to_sdk_root_parts (original_rel_path_xml : text) : list text :=
  filter (fun part => negb (is_dotdot part))
         (split_on "/" (replace_char "\" "/" original_rel_path_xml)).

(** The second component of [create_target_path]'s result. *)
Definition target_rel_path_unix (sdk_subdir original_rel_path_xml : text) : text :=
  match rel_to_sdk_root_parts original_rel_path_xml with
  | [] => sdk_subdir ++ str "/" ++ basename original_rel_path_xml
  | parts => sdk_subdir ++ str "/" ++ join (str "/") parts
  end.

Definition create_target_path (output_dir sdk_subdir original_rel_path_xml : text)
  : text * text :=
  let rel := target_rel_path_unix sdk_subdir original_rel_path_xml in
  (path_join output_dir (split_on "/" rel), rel).

(** The heuristic of the three analysis loops: [startswith('../../')]. *)
Definition is_sdk (path_xml : text) : bool := startswith (str "../../") path_xml.

(** The segments of a relative reference, as the mapper itself splits them. *)
Definition segments (p : text) : list text := split_on "/" p.

Definition has_dotdot_segment (p : text) : bool := existsb is_dotdot (segments p).

(** ** Analysis of the include directories (the loop over [original_includes]) *)

Definition dq : ascii := "034"%char.
Definition nl : ascii := "010"%char.

(** [f'{attr}="{value}"'] *)
Definition attr_val (attr value : text) : text :=
  attr ++ str "=" ++ [dq] ++ value ++ [dq].

Definition include_dirs_attr : text := str "c_user_include_directories".

Record include_state := mk_include_state {
  new_includes_list : list text;
  needs_include_update : bool
}.

Definition include_init : include_state := mk_include_state [] false.

(** [if not inc_path_xml] is the negation of this. *)
Definition nonempty (e : text) : bool :=
  match e with [] => false | _ => true end.

Section IncludeAnalysis.
(** [os.path.isdir(resolve_path(original_proj_dir, p))], as a function of
    the path text [p] of the descriptor. *)
Variable isdir : text -> bool.

(** One iteration of [for inc_path_xml in original_includes]. *)
Definition include_step (st : include_state) (inc_path_xml : text) : include_state :=
  match inc_path_xml with
  | [] => st
  | _ =>
    if text_eqb inc_path_xml (str "../../../config") then
      mk_include_state (new_includes_list st) true
    else if is_sdk inc_path_xml then
      if isdir inc_path_xml then
        let new_rel_path_xml := target_rel_path_unix SDK_FILES_SUBDIR inc_path_xml in
        mk_include_state
          (new_includes_list st ++ [new_rel_path_xml])
          (if negb (text_eqb new_rel_path_xml inc_path_xml) then true
           else needs_include_update st)
      else
        mk_include_state (new_includes_list st ++ [inc_path_xml])
                         (needs_include_update st)
    else if text_eqb inc_path_xml (str "../config") then
      let new_config_include_path := str "config" in
      mk_include_state
        (new_includes_list st ++ [new_config_include_path])
        (if negb (text_eqb new_config_include_path inc_path_xml) then true
         else needs_include_update st)
    else
      mk_include_state (new_includes_list st ++ [inc_path_xml])
                       (needs_include_update st)
  end.

Definition include_loop (original_includes : list text) : include_state :=
  fold_left include_step original_includes include_init.

(** The entry stored in [paths_to_replace] for the attribute, if any. *)
Definition scheduled_include_update (original_includes_str : text)
  : option (text * text) :=
  let st := include_loop (split_on ";" original_includes_str) in
  if needs_include_update st then
    Some (attr_val include_dirs_attr original_includes_str,
          attr_val include_dirs_attr (join (str ";") (new_includes_list st)))
  else None.
End IncludeAnalysis.

(** The entries for which the loop sets [needs_include_update]: the removed
    [../../../config], an SDK entry that is a directory, and [../config]. *)
Definition changes_include (isdir : text -> bool) (inc_path_xml : text) : bool :=
  text_eqb inc_path_xml (str "../../../config")
  || (is_sdk inc_path_xml && isdir inc_path_xml)
  || text_eqb inc_path_xml (str "../config").

(** ** The relocation mapping: a Python [dict], in insertion order *)

Definition entry := (text * text)%type.
Definition dict := list entry.

(** [d[k] = v] *)
Fixpoint dict_set (d : dict) (k v : text) : dict :=
  match d with
  | [] => [(k, v)]
  | (k', v') :: d' =>
      if text_eqb k' k then (k', v) :: d' else (k', v') :: dict_set d' k v
  end.

(** [sorted(d.items(), key=lambda item: len(item[0]), reverse=True)]: a stable
    sort, entries of equal key length keep their order. *)
Fixpoint insert_desc (e : entry) (l : list entry) : list entry :=
  match l with
  | [] => [e]
  | x :: l' =>
      if length (fst x) <=? length (fst e) then e :: l
      else x :: insert_desc e l'
  end.

Definition sorted_replacements (paths_to_replace : dict) : list entry :=
  fold_right insert_desc [] paths_to_replace.

(** The order of [sorted_replacements]: a longer key comes first. *)
Definition longer_first (a b : entry) : Prop := length (fst b) <= length (fst a).

(** ** Textual substitution *)

(** [str.lower] on one character. *)
Definition lower (c : ascii) : ascii :=
  let n := nat_of_ascii c in
  if ((65 <=? n) && (n <=? 90))
     || ((192 <=? n) && (n <=? 222) && negb (n =? 215))
  then ascii_of_nat (n + 32) else c.

(** How [re], under [re.IGNORECASE], compares a literal with a character. *)
Definition ci_eqb (a b : ascii) : bool := Ascii.eqb (lower a) (lower b).

(** The literal [p] matches at the start of [s], characters compared by [ceq]. *)
Fixpoint prefix_by (ceq : ascii -> ascii -> bool) (p s : text) : bool :=
  match p, s with
  | [], _ => true
  | _ :: _, [] => false
  | a :: p', b :: s' => ceq a b && prefix_by ceq p' s'
  end.

(** The leftmost, non-overlapping matches of a non-empty literal [p] in [s],
    each replaced by [r]; the result and the number of matches.  This is the
    scan of both [str.replace] and [re.subn] with a literal pattern;
    [fuel] bounds the number of positions visited. *)
Fixpoint subst_go (ceq : ascii -> ascii -> bool) (fuel : nat) (p r s : text)
  : text * nat :=
  match fuel with
  | 0 => (s, 0)
  | S fuel' =>
      match s with
      | [] => ([], 0)
      | c :: s' =>
          if prefix_by ceq p s then
            let '(out, n) := subst_go ceq fuel' p r (skipn (length p) s) in
            (r ++ out, S n)
          else
            let '(out, n) := subst_go ceq fuel' p r s' in
            (c :: out, n)
      end
  end.

Definition subst_all (ceq : ascii -> ascii -> bool) (p r s : text) : text * nat :=
  subst_go ceq (length s) p r s.

(** [s.replace(old, new)] and [s.count(sub)] *)
Definition replace (old new s : text) : text := fst (subst_all Ascii.eqb old new s).
Definition count (sub s : text) : nat := snd (subst_all Ascii.eqb sub sub s).

(** [old] occurs nowhere in [s]. *)
Definition occurs_nowhere (old s : text) : Prop :=
  forall i, startswith old (skipn i s) = false.

(** [re.subn(pattern, repl, s, flags=re.IGNORECASE)] for a pattern that is the
    escaped literal [p].  The replacement is a template: without a backslash
    it stands for itself; with one, its expansion (or the [re.error] it
    raises) is outside this model, which answers [None]. *)
Definition has_backslash (r : text) : bool := existsb (Ascii.eqb "\") r.

Definition re_subn_ignorecase (p repl s : text) : option (text * nat) :=
  if has_backslash repl then None else Some (subst_all ci_eqb p repl s).

(** [s.split(sep, 1)] when [sep] occurs in [s]: the text before its first
    occurrence and the text after it. *)
Fixpoint split_once (sep s : text) : option (text * text) :=
  if startswith sep s then Some ([], skipn (length sep) s)
  else match s with
       | [] => None
       | c :: s' =>
           match split_once sep s' with
           | Some (a, b) => Some (c :: a, b)
           | None => None
           end
       end.

(** ** Descriptor rewriter *)

(** [re.escape(attr_name) + r'="' + re.escape(original_value) + r'"'], as the
    literal it matches; [None] is the [IndexError] of [split(...)[1]]. *)
Definition entry_pattern (original_attr_val : text) : option text :=
  match split_once (str "=" ++ [dq]) original_attr_val with
  | None => None
  | Some (attr_name, rest) =>
      let original_value := removelast rest in
      Some (attr_name ++ str "=" ++ [dq] ++ original_value ++ [dq])
  end.

(** One iteration of [for original_attr_val, new_attr_val in sorted_replacements],
    on the pair (modified_project_content, replacement_count). *)
Definition replacement_step (acc : option (text * nat)) (e : entry)
  : option (text * nat) :=
  match acc with
  | None => None
  | Some (modified_project_content, replacement_count) =>
      match entry_pattern (fst e) with
      | None => None
      | Some pattern =>
          match re_subn_ignorecase pattern (snd e) modified_project_content with
          | None => None
          | Some (modified_project_content_new, num_subs) =>
              if 0 <? num_subs
              then Some (modified_project_content_new, replacement_count + num_subs)
              else Some (modified_project_content, replacement_count)
          end
      end
  end.

(** The entries on which this model of the loop answers: the key holds an
    equals sign followed by a double quote, as every key stored by the
    analysis does, and the new text has no backslash. *)
Definition modelled_entry (e : entry) : bool :=
  match entry_pattern (fst e) with
  | Some _ => negb (has_backslash (snd e))
  | None => false
  end.

Definition targeted_replacements (original_project_content : text)
           (paths_to_replace : dict) : option (text * nat) :=
  fold_left replacement_step (sorted_replacements paths_to_replace)
            (Some (original_project_content, 0)).

Definition generic_sdk_prefix : text := str "../../../../../../".
Definition new_sdk_prefix : text := SDK_FILES_SUBDIR ++ str "/".

(** The final generic replacement, on the same pair. *)
Definition generic_replacement (acc : text * nat) : text * nat :=
  let '(modified_project_content, replacement_count) := acc in
  let count_before := count generic_sdk_prefix modified_project_content in
  let modified := replace generic_sdk_prefix new_sdk_prefix modified_project_content in
  let count_after := count generic_sdk_prefix modified in
  let generic_replacements_made := count_before - count_after in
  (modified,
   if 0 <? generic_replacements_made
   then replacement_count + generic_replacements_made
   else replacement_count).

(** What is done with the destination descriptor. *)
Inductive descriptor_output :=
| WriteModified (modified_project_content : text)
| CopyOriginal.

Definition rewrite_descriptor (original_project_content : text)
           (paths_to_replace : dict) : option descriptor_output :=
  match targeted_replacements original_project_content paths_to_replace with
  | None => None
  | Some acc =>
      let '(modified_project_content, replacement_count) := generic_replacement acc in
      if 0 <? replacement_count then Some (WriteModified modified_project_content)
      else Some CopyOriginal
  end.

(** The content of the destination descriptor afterwards. *)
Definition destination_content (original_project_content : text)
           (o : descriptor_output) : text :=
  match o with
  | WriteModified c => c
  | CopyOriginal => original_project_content
  end.

(** ** Descriptor texts and the occurrences of an attribute *)

(** Equality of two texts up to letter case. *)
Definition ci_equal (a b : text) : bool :=
  (length a =? length b) && prefix_by ci_eqb a b.

(** A descriptor text read along the occurrences of one attribute: a piece is
    the text before an occurrence, the attribute name as written there, and
    the value between the quotes; [doc_tail] follows the last occurrence. *)
Record piece := mk_piece {
  pc_before : text;
  pc_name : text;
  pc_value : text
}.

Record document := mk_document {
  doc_pieces : list piece;
  doc_tail : text
}.

Definition render_piece (pc : piece) : text :=
  pc_before pc ++ attr_val (pc_name pc) (pc_value pc).

Definition render (d : document) : text :=
  concat (map render_piece (doc_pieces d)) ++ doc_tail d.

Definition free_of (c : ascii) (s : text) : bool := negb (existsb (Ascii.eqb c) s).

(** A value as an attribute holds it: no double quote, and no equals sign. *)
Definition plain_value (v : text) : bool := free_of dq v && free_of "=" v.

(** The name, the equals sign and the opening quote of an occurrence. *)
Definition anchor (name : text) : text := name ++ str "=" ++ [dq].

(** [p] matches at no position of [s], up to letter case. *)
Fixpoint matches_nowhere (p s : text) : bool :=
  negb (prefix_by ci_eqb p s)
  && match s with
     | [] => true
     | _ :: s' => matches_nowhere p s'
     end.

(** The pieces list every occurrence of the attribute [name]: the texts in
    between hold no [anchor], each name is [name] up to case, and each value
    is plain. *)
Definition well_formed_piece (name : text) (pc : piece) : bool :=
  matches_nowhere (anchor name) (pc_before pc)
  && ci_equal name (pc_name pc)
  && plain_value (pc_value pc).

Definition well_formed (name : text) (d : document) : bool :=
  forallb (well_formed_piece name) (doc_pieces d)
  && matches_nowhere (anchor name) (doc_tail d).

(** The occurrences whose value is [original_value] up to case get the name
    and the value of the new text. *)
Definition rewrite_piece (name original_value new_value : text) (pc : piece) : piece :=
  if ci_equal original_value (pc_value pc)
  then mk_piece (pc_before pc) name new_value
  else pc.

Definition rewrite_document (name original_value new_value : text) (d : document)
  : document :=
  mk_document (map (rewrite_piece name original_value new_value) (doc_pieces d))
              (doc_tail d).

(** What the scan for the value [ov] leaves of a piece, [r] being the
    replacement. *)
Definition piece_after (ov r : text) (pc : piece) : text :=
  pc_before pc
    ++ (if ci_equal ov (pc_value pc) then r
        else attr_val (pc_name pc) (pc_value pc)).



(** The pieces after the two entries for the values [x] and [y]. *)
Definition rewrite_piece2 (name x x' y y' : text) (pc : piece) : piece :=
  if ci_equal y (pc_value pc) then mk_piece (pc_before pc) name y'
  else if ci_equal x (pc_value pc) then mk_piece (pc_before pc) name x'
  else pc.

Definition matching_pieces (original_value : text) (d : document) : nat :=
  length (filter (fun pc => ci_equal original_value (pc_value pc)) (doc_pieces d)).

(** A mapping whose entries all belong to the attribute [name], given by
    its pairs of an original and a new value. *)
Definition entry_of (name : text) (v : text * text) : entry :=
  (attr_val name (fst v), attr_val name (snd v)).

Definition value_pair_ok (name : text) (v : text * text) : bool :=
  plain_value (fst v) && plain_value (snd v)
  && negb (has_backslash (attr_val name (snd v))).

(** A piece after the loop: the text before it is the same, and the
    occurrence is the same or carries [name] and one of the new values. *)
Definition piece_kept_or_rewritten (name : text) (vals : list (text * text))
           (pc pc' : piece) : Prop :=
  pc_before pc' = pc_before pc
  /\ (pc' = pc \/ (pc_name pc' = name /\ In (pc_value pc') (map snd vals))).




(** ** Build-file rewriter *)

(** [str.isspace] on one character: the white space of [str.strip()] and of
    [\s] in a pattern. *)
Definition isspace (c : ascii) : bool :=
  let n := nat_of_ascii c in
  ((9 <=? n) && (n <=? 13)) || ((28 <=? n) && (n <=? 32))
  || (n =? 133) || (n =? 160).

Fixpoint lstrip (s : text) : text :=
  match s with
  | [] => []
  | c :: s' => if isspace c then lstrip s' else s
  end.

Definition rstrip (s : text) : text := rev (lstrip (rev s)).

(** [s.strip()] *)
Definition strip (s : text) : text := rstrip (lstrip s).

(** [f.readlines()]: the lines of a text, each with its ['\n'] (the last one
    may lack it).  The text is the one Python hands out in text mode, its
    line ends already translated to ['\n']. *)
Fixpoint readlines (s : text) : list text :=
  match s with
  | [] => []
  | c :: s' =>
      if Ascii.eqb c nl then [c] :: readlines s'
      else match readlines s' with
           | [] => [[c]]
           | l :: ls => (c :: l) :: ls
           end
  end.

Definition new_proj_dir_line : text := str "PROJ_DIR := ./" ++ [nl].
Definition new_sdk_root_definition : text :=
  str "SDK_ROOT := $(PROJ_DIR)/" ++ SDK_FILES_SUBDIR ++ [nl].
Definition target_cflags_line : text := str "CFLAGS += -fno-builtin -fshort-enums".

(** What remains of [s] after the literal [p], if [s] starts with it. *)
Definition after_literal (p s : text) : option text :=
  if startswith p s then Some (skipn (length p) s) else None.

(** [re.match(original_sdk_root_pattern, line)], the pattern being
    [^SDK_ROOT\s*:=\s*\.\./\.\./\.\./\.\./\.\./\.\.]: each [\s*] is followed by
    a literal that is not white space, so it takes the whole run. *)
Definition matches_sdk_root (line : text) : bool :=
  match after_literal (str "SDK_ROOT") line with
  | None => false
  | Some r1 =>
      match after_literal (str ":=") (lstrip r1) with
      | None => false
      | Some r2 => startswith (str "../../../../../..") (lstrip r2)
      end
  end.

Record makefile_state := mk_makefile_state {
  modified_makefile_lines : list text;
  sdk_root_updated : bool;
  proj_dir_defined : bool;
  cflags_inserted : bool
}.

Definition makefile_init : makefile_state := mk_makefile_state [] false false false.

Definition extra_cflags : list text :=
  [str "CFLAGS += -Wall -Werror" ++ [nl]; str "CFLAGS += -Wno-array-bounds" ++ [nl]].

(** One iteration of [for line in makefile_lines] of the first pass. *)
Definition makefile_step (st : makefile_state) (line : text) : makefile_state :=
  let st1 :=
    if matches_sdk_root line && negb (sdk_root_updated st) then
      mk_makefile_state
        (modified_makefile_lines st
           ++ (if proj_dir_defined st then [] else [new_proj_dir_line])
           ++ [new_sdk_root_definition])
        true true (cflags_inserted st)
    else
      mk_makefile_state (modified_makefile_lines st ++ [line])
                        (sdk_root_updated st) (proj_dir_defined st)
                        (cflags_inserted st) in
  if text_eqb (strip line) target_cflags_line then
    mk_makefile_state (modified_makefile_lines st1 ++ extra_cflags)
                      (sdk_root_updated st1) (proj_dir_defined st1) true
  else st1.

(** What the first pass appends for a line it keeps: the line, and the extra
    flags when it is the target line. *)
Definition carried (line : text) : list text :=
  line :: (if text_eqb (strip line) target_cflags_line then extra_cflags else []).

(** [l.insert(i, x)] *)
Definition list_insert (i : nat) (x : text) (l : list text) : list text :=
  firstn i l ++ x :: skipn i l.

(** The position after the first line that starts with [PROJECT_NAME], or 0. *)
Fixpoint project_name_pos (i : nat) (l : list text) : nat :=
  match l with
  | [] => 0
  | line :: l' =>
      if startswith (str "PROJECT_NAME") line then i + 1
      else project_name_pos (S i) l'
  end.

(** The first pass, with the insertion near the top when no line matched. *)
Definition sdk_root_pass (makefile_lines : list text) : list text :=
  let st := fold_left makefile_step makefile_lines makefile_init in
  if sdk_root_updated st then modified_makefile_lines st
  else
    let insert_pos := project_name_pos 0 (modified_makefile_lines st) in
    let l1 := if proj_dir_defined st then modified_makefile_lines st
              else list_insert insert_pos new_proj_dir_line (modified_makefile_lines st) in
    list_insert (insert_pos + 1) new_sdk_root_definition l1.

(** The longest run of characters that are not white space, and the rest. *)
Fixpoint span_nonspace (s : text) : text * text :=
  match s with
  | [] => ([], [])
  | c :: s' =>
      if isspace c then ([], s)
      else let '(run, rest) := span_nonspace s' in (c :: run, rest)
  end.

Definition config_file_prefix : text := str "../config/".

(** [re.subn(r'\.\./config/([^\s]+)', r'$(PROJ_DIR)/config/\1', s)] *)
Fixpoint sub_config_file (fuel : nat) (s : text) : text :=
  match fuel with
  | 0 => s
  | S fuel' =>
      match s with
      | [] => []
      | c :: s' =>
          if startswith config_file_prefix s then
            match span_nonspace (skipn (length config_file_prefix) s) with
            | ([], _) => c :: sub_config_file fuel' s'
            | (run, rest) =>
                str "$(PROJ_DIR)/config/" ++ run ++ sub_config_file fuel' rest
            end
          else c :: sub_config_file fuel' s'
      end
  end.

Definition sub_config_all (s : text) : text := sub_config_file (length s) s.

(** The four substitutions on the joined Makefile text, in their order. *)
Definition config_substitutions (modified_makefile_content : text) : text :=
  let c1 := replace (str "-I../config") (str "-I$(PROJ_DIR)/config")
                    modified_makefile_content in
  let c2 := sub_config_all c1 in
  let c3 := replace (str "../config \" ++ [nl]) (str "$(PROJ_DIR)/config \" ++ [nl]) c2 in
  replace (str "$(PROJ_DIR)/main.c ") (str "$(SDK_ROOT)/main.c ") c3.

(** A text that ends with a line end, and a text made of whole lines. *)
Definition ends_nl (s : text) : Prop := exists s', s = s' ++ [nl].

Definition whole_lines (s : text) : Prop := s = [] \/ ends_nl s.

(** A transformation of texts that works line by line: it distributes over
    a text of whole lines followed by any text, and keeps whole lines whole. *)
Definition linewise (f : text -> text) : Prop :=
  forall X, whole_lines X ->
            (forall Y, f (X ++ Y) = f X ++ f Y) /\ whole_lines (f X).

Definition legacy_proj_dir : text := str "PROJ_DIR := ../../..".

Definition defines_legacy_proj_dir (line : text) : bool :=
  startswith legacy_proj_dir (strip line).

(** The second pass: [for line in makefile_lines] with its [continue]. *)
Definition proj_dir_cleanup (makefile_lines : list text) : list text :=
  filter (fun line => negb (defines_legacy_proj_dir line)) makefile_lines.

(** The Makefile written at the end, from the text of the copied one. *)
Definition cleaned_makefile_lines (makefile_content : text) : list text :=
  let first := concat (sdk_root_pass (readlines makefile_content)) in
  proj_dir_cleanup (readlines (config_substitutions first)).

Definition rewrite_makefile (makefile_content : text) : text :=
  concat (cleaned_makefile_lines makefile_content).

(** ** The run up to the read of the project file *)

(** What the file system answers to the calls made before and at the read;
    the [os.makedirs] calls are taken to succeed. *)
Inductive read_result :=
| ReadOk (original_project_content : text)
| ReadFileNotFound
| ReadFailed.

Record world := mk_world {
  project_isfile : bool;            (* os.path.isfile(args.project_file) *)
  project_read : read_result;       (* open(...).read() *)
  makefile_common_exists : bool;    (* os.path.exists(makefile_common_src_abs) *)
  makefile_common_copied : bool     (* the copy raised no exception *)
}.

(** What is created under the output directory. *)
Inductive effect :=
| MakeDirs (path : text)
| CopyInto (dest_abs_path : text).

Inductive outcome :=
| Exit (code : nat)
| Analysis (original_project_content : text).

(** [posixpath.dirname]: the text up to the last ['/'], without its trailing
    slashes unless it has nothing else. *)
Definition rstrip_slashes (s : text) : text :=
  rev ((fix drop (r : text) : text :=
          match r with
          | [] => []
          | c :: r' => if Ascii.eqb c "/" then drop r' else r
          end) (rev s)).

Definition dirname (p : text) : text :=
  match split_on "/" p with
  | [_] => []
  | parts =>
      let head := join (str "/") (removelast parts) ++ str "/" in
      if forallb (Ascii.eqb "/") head then head else rstrip_slashes head
  end.

(** [copy_item(src_abs_path, dest_abs_path)]: its effects and its result. *)
Definition copy_item (src_exists copy_ok : bool) (dest_abs_path : text)
  : list effect * bool :=
  if negb src_exists then ([], false)
  else if copy_ok then ([MakeDirs (dirname dest_abs_path); CopyInto dest_abs_path], true)
       else ([MakeDirs (dirname dest_abs_path)], false).

Definition makefile_common_rel_path_xml : text :=
  str "../../../../../../components/toolchain/gcc/Makefile.common".

(** [main] from its start to the end of "Read Original Project Content". *)
Definition main_until_read (w : world) (output_dir : text) : list effect * outcome :=
  let sdk_files_abs_dir := path_join output_dir [SDK_FILES_SUBDIR] in
  let makefile_common_dest_abs :=
    fst (create_target_path output_dir SDK_FILES_SUBDIR makefile_common_rel_path_xml) in
  let effects :=
    [MakeDirs output_dir; MakeDirs sdk_files_abs_dir]
      ++ fst (copy_item (makefile_common_exists w) (makefile_common_copied w)
                        makefile_common_dest_abs) in
  match project_read w with
  | ReadOk content => (effects, Analysis content)
  | ReadFileNotFound => (effects, Exit 1)
  | ReadFailed => (effects, Exit 1)
  end.

(** The [__main__] block: the [isfile] test, then [main]. *)
Definition run (w : world) (output_dir : text) : list effect * outcome :=
  if negb (project_isfile w) then ([], Exit 1)
  else main_until_read w output_dir.

(** ** Path resolution *)

(** One iteration of the loop of [posixpath.normpath] over the components;
    [new_comps] is kept with its last element first. *)
Definition normpath_step (initial_slashes : nat) (new_comps : list text) (comp : text)
  : list text :=
  if text_eqb comp [] || text_eqb comp (str ".") then new_comps
  else if negb (is_dotdot comp)
          || ((initial_slashes =? 0)
              && match new_comps with [] => true | _ => false end)
          || match new_comps with
             | [] => false
             | last_comp :: _ => is_dotdot last_comp
             end
  then comp :: new_comps
  else match new_comps with
       | [] => []
       | _ :: popped => popped
       end.

Definition initial_slashes_of (path : text) : nat :=
  if startswith (str "/") path then
    if startswith (str "//") path && negb (startswith (str "///") path) then 2 else 1
  else 0.

(** [posixpath.normpath] *)
Definition normpath (path : text) : text :=
  match path with
  | [] => str "."
  | _ =>
      let initial_slashes := initial_slashes_of path in
      let comps := rev (fold_left (normpath_step initial_slashes)
                                  (split_on "/" path) []) in
      match repeat "/"%char initial_slashes ++ join (str "/") comps with
      | [] => str "."
      | normalized => normalized
      end
  end.

(** [posixpath.abspath], [cwd] being [os.getcwd()]. *)
Definition abspath (cwd path : text) : text :=
  normpath (if startswith (str "/") path then path else path_join1 cwd path).

(** [resolve_path(original_proj_dir, rel_path)] *)
Definition resolve_path (cwd original_proj_dir rel_path : text) : text :=
  abspath cwd (path_join1 original_proj_dir (normpath rel_path)).

(** A component of a normalized path: not empty, not [.], not [..], and
    without a slash. *)
Definition proper_component (comp : text) : bool :=
  negb (text_eqb comp []) && negb (text_eqb comp (str "."))
  && negb (is_dotdot comp) && negb (existsb (Ascii.eqb "/") comp).

(** ** Analysis of the file elements and of the other path attributes *)

(** A Python [set] of strings. *)
Definition in_set (x : text) (s : list text) : bool := existsb (text_eqb x) s.

Definition set_add (x : text) (s : list text) : list text :=
  if in_set x s then s else x :: s.

Definition file_name_attr : text := str "file_name".

Definition path_attrs : list text :=
  [str "linker_section_placement_file";
   str "debug_additional_load_file";
   str "debug_register_definition_file"].

(** The variables the two loops update; [copy_calls] counts the calls of
    [copy_item] made so far. *)
Record analysis_state := mk_analysis_state {
  copied_items_abs : list text;
  paths_to_replace : dict;
  files_processed_count : nat;
  copy_calls : nat
}.

Section Analysis.
(** [os.getcwd()], the directory of the project file and the output
    directory; whether the config directory was copied; and what
    [copy_item(src, dest)] returns at each of its calls. *)
Variables cwd original_proj_dir output_dir : text.
Variable config_copied : bool.
Variable copy_item_returns : nat -> text -> text -> bool.

Definition config_src_abs_path : text :=
  resolve_path cwd original_proj_dir (str "../config").

(** [if copy_item(src, dest): copied_items_abs.add(src); count += n]: the
    state after the call, and what the call returned. *)
Definition try_copy (st : analysis_state) (src_abs_path dest_abs_path : text)
           (counted : nat) : analysis_state * bool :=
  if copy_item_returns (copy_calls st) src_abs_path dest_abs_path then
    (mk_analysis_state (set_add src_abs_path (copied_items_abs st))
                       (paths_to_replace st)
                       (files_processed_count st + counted)
                       (S (copy_calls st)), true)
  else
    (mk_analysis_state (copied_items_abs st) (paths_to_replace st)
                       (files_processed_count st) (S (copy_calls st)), false).

(** [paths_to_replace[f'{attr}="{old}"'] = f'{attr}="{new}"'] *)
Definition schedule (st : analysis_state) (attr old new : text) : analysis_state :=
  mk_analysis_state (copied_items_abs st)
                    (dict_set (paths_to_replace st) (attr_val attr old) (attr_val attr new))
                    (files_processed_count st) (copy_calls st).

(** One iteration of [for file_element in root.findall('.//file')], on the
    value of the [file_name] attribute of the element. *)
Definition file_step (st : analysis_state) (file_name : option text) : analysis_state :=
  match file_name with
  | None => st
  | Some [] => st
  | Some original_rel_path_xml =>
      let src_abs_path := resolve_path cwd original_proj_dir original_rel_path_xml in
      let is_in_copied_config :=
        config_copied && startswith (config_src_abs_path ++ str "/") src_abs_path in
      if in_set src_abs_path (copied_items_abs st) && negb is_in_copied_config then st
      else if is_sdk original_rel_path_xml then
        let '(dest_abs_path, new_rel_path_xml) :=
          create_target_path output_dir SDK_FILES_SUBDIR original_rel_path_xml in
        if negb (in_set src_abs_path (copied_items_abs st)) then
          let '(st1, copied) := try_copy st src_abs_path dest_abs_path 1 in
          if copied
          then schedule st1 file_name_attr original_rel_path_xml new_rel_path_xml
          else st1
        else schedule st file_name_attr original_rel_path_xml new_rel_path_xml
      else if is_in_copied_config then
        if startswith (str "../") original_rel_path_xml then
          schedule st file_name_attr original_rel_path_xml
                   (skipn 3 original_rel_path_xml)
        else st
      else
        let dest_abs_path :=
          abspath cwd (path_join1 output_dir (normpath original_rel_path_xml)) in
        fst (try_copy st src_abs_path dest_abs_path 1)
  end.

Definition file_loop (file_names : list (option text)) (st : analysis_state)
  : analysis_state :=
  fold_left file_step file_names st.

(** One iteration of [for attr_name in path_attrs]; [common_config_get] is
    [common_config.get]. *)
Definition path_attr_step (common_config_get : text -> option text)
           (st : analysis_state) (attr_name : text) : analysis_state :=
  match common_config_get attr_name with
  | None => st
  | Some [] => st
  | Some original_path_xml =>
      let src_abs_path := resolve_path cwd original_proj_dir original_path_xml in
      if in_set src_abs_path (copied_items_abs st) then st
      else if is_sdk original_path_xml then
        let '(dest_abs_path, new_rel_path_xml) :=
          create_target_path output_dir SDK_FILES_SUBDIR original_path_xml in
        let '(st1, copied) := try_copy st src_abs_path dest_abs_path 0 in
        if copied
        then schedule st1 attr_name original_path_xml new_rel_path_xml
        else st1
      else
        let dest_abs_path :=
          abspath cwd (path_join1 output_dir (normpath original_path_xml)) in
        fst (try_copy st src_abs_path dest_abs_path 0)
  end.

Definition path_attr_loop (common_config_get : text -> option text)
           (st : analysis_state) : analysis_state :=
  fold_left (path_attr_step common_config_get) path_attrs st.

End Analysis.

(** What the file loop stores for the reference [p]: [before] and [after]
    are the copied sets when the loop starts and when it ends. *)
Definition scheduled_for_file (cwd original_proj_dir : text) (config_copied : bool)
           (before after : list text) (p : text) (e : entry) : Prop :=
  let src_abs_path := resolve_path cwd original_proj_dir p in
  let in_config :=
    config_copied = true
    /\ startswith (config_src_abs_path cwd original_proj_dir ++ str "/") src_abs_path = true in
  (is_sdk p = true
   /\ e = (attr_val file_name_attr p,
           attr_val file_name_attr (target_rel_path_unix SDK_FILES_SUBDIR p))
   /\ in_set src_abs_path after = true
   /\ (in_set src_abs_path before = false \/ in_config))
  \/ (is_sdk p = false
      /\ in_config
      /\ startswith (str "../") p = true
      /\ e = (attr_val file_name_attr p, attr_val file_name_attr (skipn 3 p))).

(** What the loop over [path_attrs] stores for the attribute [a] of value [p]. *)
Definition scheduled_for_attr (cwd original_proj_dir : text)
           (before after : list text) (a p : text) (e : entry) : Prop :=
  is_sdk p = true
  /\ e = (attr_val a p, attr_val a (target_rel_path_unix SDK_FILES_SUBDIR p))
  /\ in_set (resolve_path cwd original_proj_dir p) before = false
  /\ in_set (resolve_path cwd original_proj_dir p) after = true.

(** ** The toolchain sub-makefile *)

Definition original_gcc_path : text :=
  str "/usr/local/gcc-arm-none-eabi-9-2020-q2-update/bin/".
Definition new_gcc_path : text := str "/usr/local/bin/".

(** The content written back to [Makefile.posix], if any. *)
Definition modify_makefile_posix (posix_content : text) : option text :=
  let modified_posix_content := replace original_gcc_path new_gcc_path posix_content in
  if negb (text_eqb modified_posix_content posix_content)
  then Some modified_posix_content
  else None.

(** * Properties *)

(** ** Text *)

Lemma text_eqb_true (a b : text) : text_eqb a b = true <-> a = b.
Proof.
  unfold text_eqb. destruct (list_eq_dec ascii_dec a b); split; congruence.
Qed.

Lemma text_eqb_false (a b : text) : text_eqb a b = false <-> a <> b.
Proof.
  unfold text_eqb. destruct (list_eq_dec ascii_dec a b); split; congruence.
Qed.

Lemma text_eqb_refl (a : text) : text_eqb a a = true.
Proof. now apply text_eqb_true. Qed.

Lemma startswith_app (p s : text) : startswith p (p ++ s) = true.
Proof.
  induction p as [|a p IH]; simpl; [reflexivity|].
  now rewrite Ascii.eqb_refl, IH.
Qed.

Lemma startswith_spec (p s : text) :
  startswith p s = true <-> exists r, s = p ++ r.
Proof.
  split.
  - revert s. induction p as [|a p IH]; intros s H.
    + now exists s.
    + destruct s as [|b s]; simpl in H; [discriminate|].
      apply andb_true_iff in H as [Hab Hp].
      apply Ascii.eqb_eq in Hab. subst b.
      destruct (IH _ Hp) as [r ->]. now exists r.
  - intros [r ->]. apply startswith_app.
Qed.

(** ** Splitting and joining at a separator *)

Lemma split_on_not_nil (sep : ascii) (s : text) : split_on sep s <> [].
Proof.
  destruct s as [|c s]; simpl; [discriminate|].
  destruct (Ascii.eqb c sep); [discriminate|].
  destruct (split_on sep s); discriminate.
Qed.

Lemma split_on_parts_free (sep : ascii) (s : text) :
  Forall (fun part => ~ In sep part) (split_on sep s).
Proof.
  induction s as [|c s IH]; simpl.
  - constructor; [intros []|constructor].
  - destruct (Ascii.eqb c sep) eqn:E.
    + constructor; [intros []|exact IH].
    + destruct (split_on sep s) as [|p ps]; inversion IH; subst.
      * constructor; [|constructor].
        intros [->|[]]. now rewrite Ascii.eqb_refl in E.
      * constructor; [|assumption].
        intros [->|Hin]; [now rewrite Ascii.eqb_refl in E|contradiction].
Qed.

Lemma split_on_free (sep : ascii) (p : text) :
  ~ In sep p -> split_on sep p = [p].
Proof.
  induction p as [|c p IH]; intros H; simpl; [reflexivity|].
  destruct (Ascii.eqb c sep) eqn:E.
  - apply Ascii.eqb_eq in E. subst. exfalso. apply H. now left.
  - rewrite IH; [reflexivity|]. intros Hin. apply H. now right.
Qed.

Lemma split_on_app_sep (sep : ascii) (p rest : text) :
  ~ In sep p -> split_on sep (p ++ sep :: rest) = p :: split_on sep rest.
Proof.
  induction p as [|c p IH]; intros H; simpl.
  - now rewrite Ascii.eqb_refl.
  - destruct (Ascii.eqb c sep) eqn:E.
    + apply Ascii.eqb_eq in E. subst. exfalso. apply H. now left.
    + rewrite IH; [reflexivity|]. intros Hin. apply H. now right.
Qed.

Lemma split_on_join (sep : ascii) (parts : list text) :
  parts <> [] ->
  Forall (fun part => ~ In sep part) parts ->
  split_on sep (join [sep] parts) = parts.
Proof.
  induction parts as [|p ps IH]; intros Hne Hfree; [congruence|].
  inversion Hfree as [|? ? Hp Hps]; subst.
  destruct ps as [|q ps].
  - simpl. now apply split_on_free.
  - change (join [sep] (p :: q :: ps)) with (p ++ sep :: join [sep] (q :: ps)).
    rewrite split_on_app_sep by assumption.
    rewrite IH; [reflexivity|discriminate|assumption].
Qed.

Lemma join_split_on (sep : ascii) (s : text) :
  join [sep] (split_on sep s) = s.
Proof.
  induction s as [|c s IH]; simpl; [reflexivity|].
  destruct (Ascii.eqb c sep) eqn:E.
  - apply Ascii.eqb_eq in E. subst c.
    pose proof (split_on_not_nil sep s) as Hne.
    destruct (split_on sep s) as [|q qs]; [congruence|].
    simpl in *. now rewrite IH.
  - pose proof (split_on_not_nil sep s) as Hne.
    destruct (split_on sep s) as [|q qs]; [congruence|].
    destruct qs; simpl in *; now rewrite <- IH.
Qed.

(** ** Target path mapper *)

Lemma rel_parts_no_dotdot (p : text) :
  Forall (fun part => is_dotdot part = false) (rel_to_sdk_root_parts p).
Proof.
  unfold rel_to_sdk_root_parts. apply Forall_forall. intros part Hin.
  apply filter_In in Hin as [_ H]. now apply negb_true_iff in H.
Qed.

Lemma rel_parts_slash_free (p : text) :
  Forall (fun part => ~ In "/"%char part) (rel_to_sdk_root_parts p).
Proof.
  unfold rel_to_sdk_root_parts. apply Forall_forall. intros part Hin.
  apply filter_In in Hin as [Hin _].
  pose proof (split_on_parts_free "/" (replace_char "\" "/" p)) as F.
  rewrite Forall_forall in F. now apply F.
Qed.

Lemma segments_under_subdir (rest : text) :
  segments (SDK_FILES_SUBDIR ++ str "/" ++ rest) = SDK_FILES_SUBDIR :: segments rest.
Proof.
  unfold segments. change (str "/" ++ rest) with ("/"%char :: rest).
  apply split_on_app_sep. vm_compute. intuition discriminate.
Qed.

(** Whatever the reference, the new one starts with [sdk_files/]. *)
Lemma target_rel_path_under_subdir (p : text) :
  startswith (SDK_FILES_SUBDIR ++ str "/") (target_rel_path_unix SDK_FILES_SUBDIR p) = true.
Proof.
  unfold target_rel_path_unix.
  destruct (rel_to_sdk_root_parts p); rewrite app_assoc; apply startswith_app.
Qed.

(** Outside the fallback no segment of the new reference is [..]. *)
Lemma target_rel_path_no_dotdot (p : text) :
  rel_to_sdk_root_parts p <> [] ->
  has_dotdot_segment (target_rel_path_unix SDK_FILES_SUBDIR p) = false.
Proof.
  intros Hne. unfold target_rel_path_unix, has_dotdot_segment.
  pose proof (rel_parts_no_dotdot p) as Hdd.
  pose proof (rel_parts_slash_free p) as Hfree.
  destruct (rel_to_sdk_root_parts p) as [|q qs] eqn:E; [congruence|].
  rewrite segments_under_subdir. unfold segments.
  change (str "/") with ["/"%char].
  rewrite split_on_join by (assumption || discriminate).
  simpl existsb. change (is_dotdot SDK_FILES_SUBDIR) with false. simpl.
  inversion Hdd as [|? ? Hq Hqs]; subst. rewrite Hq. simpl.
  apply not_true_is_false. intros Hex.
  apply existsb_exists in Hex as [x [Hin Hx]].
  rewrite Forall_forall in Hqs. rewrite (Hqs _ Hin) in Hx. discriminate.
Qed.

(** In the fallback, a reference written with ['/'] only ends in [..], and
    so does the new reference. *)
Lemma target_rel_path_fallback_dotdot (p : text) :
  ~ In "\"%char p ->
  rel_to_sdk_root_parts p = [] ->
  target_rel_path_unix SDK_FILES_SUBDIR p = SDK_FILES_SUBDIR ++ str "/" ++ dotdot
  /\ has_dotdot_segment (target_rel_path_unix SDK_FILES_SUBDIR p) = true.
Proof.
  intros Hbs Hparts.
  assert (Hid : replace_char "\" "/" p = p).
  { unfold replace_char. rewrite <- (map_id p) at 2. apply map_ext_in.
    intros c Hc. destruct (Ascii.eqb c "\") eqn:E; [|reflexivity].
    apply Ascii.eqb_eq in E. subst. contradiction. }
  assert (Hall : Forall (fun part => part = dotdot) (split_on "/" p)).
  { unfold rel_to_sdk_root_parts in Hparts. rewrite Hid in Hparts.
    apply Forall_forall. intros part Hin.
    destruct (is_dotdot part) eqn:E; [now apply text_eqb_true in E|].
    assert (In part (filter (fun part => negb (is_dotdot part)) (split_on "/" p))).
    { apply filter_In. split; [assumption|now rewrite E]. }
    rewrite Hparts in H. contradiction. }
  assert (Hbase : basename p = dotdot).
  { unfold basename. pose proof (split_on_not_nil "/" p) as Hne.
    destruct (exists_last Hne) as [l [x Hx]]. rewrite Hx, last_last.
    rewrite Forall_forall in Hall. apply Hall. rewrite Hx.
    apply in_or_app. right. now left. }
  unfold target_rel_path_unix. rewrite Hparts, Hbase. split; [reflexivity|].
  unfold has_dotdot_segment. rewrite segments_under_subdir. reflexivity.
Qed.

(** C2 (the fallback): the SDK reference [../../..] has only upward-traversal
    segments, so the mapper takes its fallback and returns [sdk_files/..]:
    the new reference begins with [sdk_files/] but its last segment is the
    upward traversal [..]. *)
Theorem create_target_path_fallback_escapes :
  is_sdk (str "../../..") = true
  /\ rel_to_sdk_root_parts (str "../../..") = []
  /\ snd (create_target_path (str "out") SDK_FILES_SUBDIR (str "../../.."))
     = str "sdk_files/.."
  /\ has_dotdot_segment
       (snd (create_target_path (str "out") SDK_FILES_SUBDIR (str "../../.."))) = true.
Proof. repeat split; reflexivity. Qed.

(** ** Analysis of the include directories *)

(** The branches of [include_step] on a non-empty entry [c :: e]. *)
Ltac include_cases isdir c e :=
  unfold include_step, include_init;
  destruct (text_eqb (c :: e) (str "../../../config")) eqn:Hremoved;
  [| destruct (is_sdk (c :: e)) eqn:Hsdk;
     [ destruct (isdir (c :: e)) eqn:Hdir;
       [ destruct (negb (text_eqb (target_rel_path_unix SDK_FILES_SUBDIR (c :: e))
                                  (c :: e))) eqn:Hnew |]
     | destruct (text_eqb (c :: e) (str "../config")) eqn:Hconfig;
       [ destruct (negb (text_eqb (str "config") (c :: e))) eqn:Hnew |] ] ].

Section IncludeLoop.
Variable isdir : text -> bool.

Lemma include_step_shape (st : include_state) (e : text) :
  include_step isdir st e =
  mk_include_state
    (new_includes_list st ++ new_includes_list (include_step isdir include_init e))
    (needs_include_update st || needs_include_update (include_step isdir include_init e)).
Proof.
  destruct st as [l f]. destruct e as [|c e].
  - simpl. now rewrite app_nil_r, orb_false_r.
  - include_cases isdir c e; simpl;
      now rewrite ?app_nil_r, ?orb_true_r, ?orb_false_r.
Qed.

Lemma include_loop_from (l : list text) (st : include_state) :
  fold_left (include_step isdir) l st =
  mk_include_state
    (new_includes_list st ++ new_includes_list (include_loop isdir l))
    (needs_include_update st || needs_include_update (include_loop isdir l)).
Proof.
  unfold include_loop. revert st.
  induction l as [|e l IH]; intros st; simpl.
  - destruct st. simpl. now rewrite app_nil_r, orb_false_r.
  - rewrite IH. rewrite (IH (include_step isdir include_init e)).
    rewrite (include_step_shape st e). simpl.
    now rewrite app_assoc, orb_assoc.
Qed.

Lemma include_loop_cons (e : text) (l : list text) :
  include_loop isdir (e :: l) =
  mk_include_state
    (new_includes_list (include_step isdir include_init e)
       ++ new_includes_list (include_loop isdir l))
    (needs_include_update (include_step isdir include_init e)
       || needs_include_update (include_loop isdir l)).
Proof. unfold include_loop at 1. simpl. apply include_loop_from. Qed.

(** The empty entries have no part in the loop. *)
Lemma include_loop_nonempty (l : list text) :
  include_loop isdir (filter nonempty l) = include_loop isdir l.
Proof.
  induction l as [|e l IH]; [reflexivity|].
  destruct e as [|c e]; simpl filter.
  - rewrite IH. unfold include_loop at 2. reflexivity.
  - now rewrite !include_loop_cons, IH.
Qed.

Lemma include_step_no_empty (e : text) :
  Forall (fun x => x <> []) (new_includes_list (include_step isdir include_init e)).
Proof.
  destruct e as [|c e]; [constructor|].
  include_cases isdir c e; simpl; repeat constructor; try discriminate.
  all: unfold target_rel_path_unix;
    destruct (rel_to_sdk_root_parts (c :: e)); discriminate.
Qed.

Lemma include_loop_no_empty (l : list text) :
  Forall (fun x => x <> []) (new_includes_list (include_loop isdir l)).
Proof.
  induction l as [|e l IH]; [constructor|].
  rewrite include_loop_cons. simpl. apply Forall_app. split; [|exact IH].
  apply include_step_no_empty.
Qed.

Lemma include_step_length (e : text) :
  length (new_includes_list (include_step isdir include_init e)) <= 1.
Proof.
  destruct e as [|c e]; [simpl; lia|].
  include_cases isdir c e; simpl; lia.
Qed.

Lemma include_loop_length (l : list text) :
  length (new_includes_list (include_loop isdir l)) <= length (filter nonempty l).
Proof.
  induction l as [|e l IH]; [simpl; lia|].
  rewrite include_loop_cons. simpl new_includes_list. rewrite length_app.
  pose proof (include_step_length e) as H1.
  destruct e as [|c e]; simpl filter; simpl length in *.
  - unfold include_step, include_init in *. simpl in *. lia.
  - lia.
Qed.

(** An entry kept as it is leaves the flag alone. *)
Lemma include_step_kept (c : ascii) (e : text) :
  new_includes_list (include_step isdir include_init (c :: e)) = [c :: e] ->
  needs_include_update (include_step isdir include_init (c :: e)) = false.
Proof.
  include_cases isdir c e; cbn [new_includes_list needs_include_update app];
    try discriminate; try reflexivity.
  all: intros H; apply (f_equal (@hd text [])) in H;
    apply negb_true_iff, text_eqb_false in Hnew; exfalso; apply Hnew; exact H.
Qed.

Lemma include_loop_unchanged (l : list text) :
  new_includes_list (include_loop isdir l) = filter nonempty l ->
  needs_include_update (include_loop isdir l) = false.
Proof.
  induction l as [|e l IH]; [reflexivity|].
  rewrite include_loop_cons. simpl new_includes_list. simpl needs_include_update.
  destruct e as [|c e]; simpl filter.
  - unfold include_step at 1 2, include_init. simpl. exact IH.
  - intros H.
    pose proof (include_step_length (c :: e)) as H1.
    pose proof (include_loop_length l) as H2.
    destruct (new_includes_list (include_step isdir include_init (c :: e)))
      as [|x [|y xs]] eqn:E; simpl in H, H1.
    + exfalso. apply (f_equal (@length text)) in H. simpl in H. lia.
    + injection H as Hx Hl. subst x.
      rewrite (include_step_kept c e E). simpl. now apply IH.
    + lia.
Qed.

End IncludeLoop.

(** The characters of the new entries come from the original ones: a new
    entry holds no [;]. *)
Lemma split_on_chars (sep : ascii) (s part : text) (c : ascii) :
  In part (split_on sep s) -> In c part -> In c s.
Proof.
  revert part. induction s as [|a s IH]; intros part Hp Hc; simpl in Hp.
  - destruct Hp as [<-|[]]. exact Hc.
  - destruct (Ascii.eqb a sep).
    + destruct Hp as [<-|Hp]; [destruct Hc|]. right. now apply (IH part).
    + destruct (split_on sep s) as [|q qs] eqn:E.
      * destruct Hp as [<-|[]]. destruct Hc as [->|[]]. now left.
      * destruct Hp as [<-|Hp].
        -- destruct Hc as [->|Hc]; [now left|]. right. apply (IH q); [now left|exact Hc].
        -- right. apply (IH part); [now right|exact Hc].
Qed.

Lemma join_chars (sep : text) (parts : list text) (c : ascii) :
  In c (join sep parts) -> In c sep \/ exists part, In part parts /\ In c part.
Proof.
  induction parts as [|q qs IH]; intros H; [destruct H|].
  destruct qs as [|q2 qs].
  - right. exists q. split; [now left|exact H].
  - change (join sep (q :: q2 :: qs)) with (q ++ sep ++ join sep (q2 :: qs)) in H.
    apply in_app_or in H as [H|H]; [right; exists q; split; [now left|exact H]|].
    apply in_app_or in H as [H|H]; [now left|].
    destruct (IH H) as [Hs|(part & Hp & Hc)]; [now left|].
    right. exists part. split; [now right|exact Hc].
Qed.

Lemma replace_char_chars (a b : ascii) (s : text) (c : ascii) :
  In c (replace_char a b s) -> c = b \/ In c s.
Proof.
  unfold replace_char. intros H. apply in_map_iff in H as (x & Hx & Hin).
  destruct (Ascii.eqb x a); [left; now symmetry|right; now subst].
Qed.

Lemma target_rel_path_chars (p : text) (c : ascii) :
  In c (target_rel_path_unix SDK_FILES_SUBDIR p) ->
  In c SDK_FILES_SUBDIR \/ c = "/"%char \/ In c p.
Proof.
  unfold target_rel_path_unix. intros H.
  destruct (rel_to_sdk_root_parts p) as [|q qs] eqn:E.
  - apply in_app_or in H as [H|H]; [now left|].
    apply in_app_or in H as [H|H]; [destruct H as [<-|[]]; auto|].
    right. right. unfold basename in H.
    pose proof (split_on_not_nil "/" p) as Hne.
    destruct (exists_last Hne) as (l & x & Hx). rewrite Hx, last_last in H.
    apply (split_on_chars "/" p x c); [|exact H].
    rewrite Hx. apply in_or_app. right. now left.
  - apply in_app_or in H as [H|H]; [now left|].
    apply in_app_or in H as [H|H]; [destruct H as [<-|[]]; auto|].
    destruct (join_chars _ _ _ H) as [Hs|(part & Hp & Hc)].
    + destruct Hs as [<-|[]]. auto.
    + rewrite <- E in Hp. unfold rel_to_sdk_root_parts in Hp.
      apply filter_In in Hp as [Hp _].
      pose proof (split_on_chars _ _ _ _ Hp Hc) as Hr.
      apply replace_char_chars in Hr as [->|Hr]; auto.
Qed.

Lemma include_step_no_semicolon (isdir : text -> bool) (e : text) :
  ~ In ";"%char e ->
  Forall (fun x => ~ In ";"%char x)
         (new_includes_list (include_step isdir include_init e)).
Proof.
  intros He. destruct e as [|c e]; [constructor|].
  include_cases isdir c e; cbn [new_includes_list app]; repeat constructor;
    try exact He.
  - intros H. apply target_rel_path_chars in H as [H|[H|H]];
      [vm_compute in H; intuition discriminate|discriminate|contradiction].
  - intros H. apply target_rel_path_chars in H as [H|[H|H]];
      [vm_compute in H; intuition discriminate|discriminate|contradiction].
  - vm_compute. intuition discriminate.
  - vm_compute. intuition discriminate.
Qed.

Lemma include_loop_no_semicolon (isdir : text -> bool) (l : list text) :
  Forall (fun e => ~ In ";"%char e) l ->
  Forall (fun x => ~ In ";"%char x) (new_includes_list (include_loop isdir l)).
Proof.
  induction 1 as [|e l He Hl IH]; [constructor|].
  rewrite include_loop_cons. cbn [new_includes_list]. apply Forall_app. split.
  - now apply include_step_no_semicolon.
  - exact IH.
Qed.

(** ** Which entries set the update flag *)

Section IncludeScheduling.
Variable isdir : text -> bool.

Lemma sdk_target_differs (p : text) :
  is_sdk p = true -> text_eqb (target_rel_path_unix SDK_FILES_SUBDIR p) p = false.
Proof.
  intros H. apply not_true_is_false. intros E. apply text_eqb_true in E.
  pose proof (target_rel_path_under_subdir p) as Hs. rewrite E in Hs.
  unfold is_sdk in H. apply startswith_spec in H as [r ->]. discriminate.
Qed.

Lemma include_step_flag (e : text) :
  needs_include_update (include_step isdir include_init e) = changes_include isdir e
  /\ (changes_include isdir e = false ->
      new_includes_list (include_step isdir include_init e) = filter nonempty [e]).
Proof.
  unfold changes_include. destruct e as [|c e]; [split; reflexivity|].
  unfold include_step.
  destruct (text_eqb (c :: e) (str "../../../config")) eqn:E1;
    [split; [reflexivity|discriminate]|].
  destruct (is_sdk (c :: e)) eqn:E2.
  - destruct (isdir (c :: e)) eqn:E3.
    + rewrite (sdk_target_differs (c :: e) E2). split; [reflexivity|discriminate].
    + assert (E4 : text_eqb (c :: e) (str "../config") = false).
      { apply not_true_is_false. intros E. apply text_eqb_true in E.
        rewrite E in E2. discriminate. }
      rewrite E4. split; reflexivity.
  - destruct (text_eqb (c :: e) (str "../config")) eqn:E4.
    + apply text_eqb_true in E4. rewrite E4. split; [reflexivity|discriminate].
    + split; reflexivity.
Qed.

Lemma include_loop_flag (l : list text) :
  needs_include_update (include_loop isdir l) = existsb (changes_include isdir) l
  /\ (existsb (changes_include isdir) l = false ->
      new_includes_list (include_loop isdir l) = filter nonempty l).
Proof.
  induction l as [|e l [IH1 IH2]]; [split; reflexivity|].
  rewrite include_loop_cons. cbn [needs_include_update new_includes_list existsb].
  destruct (include_step_flag e) as [S1 S2]. rewrite S1, IH1. split; [reflexivity|].
  intros H. apply orb_false_iff in H as [He Hl].
  rewrite (S2 He), (IH2 Hl). cbn [filter]. now destruct (nonempty e).
Qed.

End IncludeScheduling.

Lemma existsb_changes_nonempty (isdir : text -> bool) (l : list text) :
  existsb (changes_include isdir) (filter nonempty l)
  = existsb (changes_include isdir) l.
Proof.
  induction l as [|e l IH]; [reflexivity|].
  destruct e as [|c e]; cbn [filter nonempty existsb]; [exact IH|now rewrite IH].
Qed.

(** C10: the empty entries of the include-directories value take no part in
    the analysis.  The attribute is scheduled exactly when one of its
    non-empty entries is changed or removed; the value then stored is the
    [;]-joined list obtained from the non-empty entries alone, none of whose
    entries is empty, and (unless every entry was removed) splitting it at
    [;] gives that list back.  When the new list equals the non-empty
    entries of the original value (none changed, none removed), nothing is
    scheduled, whatever the empty entries. *)
Theorem empty_include_entries_dropped (isdir : text -> bool)
        (original_includes_str : text) :
  let original_includes := split_on ";" original_includes_str in
  let kept := filter nonempty original_includes in
  let l := new_includes_list (include_loop isdir kept) in
  scheduled_include_update isdir original_includes_str
  = (if existsb (changes_include isdir) kept
     then Some (attr_val include_dirs_attr original_includes_str,
                attr_val include_dirs_attr (join (str ";") l))
     else None)
  /\ Forall (fun x => x <> []) l
  /\ (l <> [] -> split_on ";" (join (str ";") l) = l)
  /\ (new_includes_list (include_loop isdir original_includes) = kept ->
      scheduled_include_update isdir original_includes_str = None).
Proof.
  cbv zeta. split; [|split; [|split]].
  - unfold scheduled_include_update.
    destruct (include_loop_flag isdir (split_on ";" original_includes_str)) as [Hflag _].
    rewrite Hflag, existsb_changes_nonempty, include_loop_nonempty. reflexivity.
  - apply include_loop_no_empty.
  - rewrite include_loop_nonempty.
    intros Hne. apply (split_on_join ";"); [exact Hne|].
    apply include_loop_no_semicolon. apply split_on_parts_free.
  - intros H. unfold scheduled_include_update.
    now rewrite (include_loop_unchanged _ _ H).
Qed.

Lemma empty_include_entries_dropped_witness :
  scheduled_include_update (fun _ => true) (str ";../../../sdk/inc;;../config;.;")
  = Some (attr_val include_dirs_attr (str ";../../../sdk/inc;;../config;.;"),
          attr_val include_dirs_attr (str "sdk_files/sdk/inc;config;."))
  /\ scheduled_include_update (fun _ => false) (str ";.;;../main;") = None.
Proof.
  split.
  - exact (proj1 (empty_include_entries_dropped
                    (fun _ => true) (str ";../../../sdk/inc;;../config;.;"))).
  - apply (proj2 (proj2 (proj2 (empty_include_entries_dropped
                                  (fun _ => false) (str ";.;;../main;"))))).
    reflexivity.
Defined.

(** ** Build-file rewriter: the two passes over the lines *)

Lemma lstrip_snoc (s : text) (c : ascii) :
  isspace c = false -> lstrip (s ++ [c]) = lstrip s ++ [c].
Proof.
  intros Hc. induction s as [|a s IH]; simpl.
  - now rewrite Hc.
  - destruct (isspace a); [exact IH|reflexivity].
Qed.

Lemma rstrip_cons (c : ascii) (s : text) :
  isspace c = false -> rstrip (c :: s) = c :: rstrip s.
Proof.
  intros Hc. unfold rstrip. simpl rev.
  rewrite lstrip_snoc by assumption. now rewrite rev_app_distr.
Qed.

Lemma strip_cons (c : ascii) (s : text) :
  isspace c = false -> strip (c :: s) = c :: rstrip s.
Proof.
  intros Hc. unfold strip. simpl. rewrite Hc. now apply rstrip_cons.
Qed.

(** A line that matches the legacy pattern is not the compiler-flags line. *)
Lemma sdk_root_line_not_cflags (line : text) :
  matches_sdk_root line = true ->
  text_eqb (strip line) target_cflags_line = false.
Proof.
  unfold matches_sdk_root, after_literal. intros H.
  destruct (startswith (str "SDK_ROOT") line) eqn:E; [|discriminate].
  apply startswith_spec in E as [r ->].
  apply text_eqb_false. change (str "SDK_ROOT" ++ r) with ("S"%char :: (str "DK_ROOT" ++ r)).
  rewrite strip_cons by reflexivity. discriminate.
Qed.

Lemma carried_sdk_root_line (line : text) :
  matches_sdk_root line = true -> carried line = [line].
Proof.
  intros H. unfold carried. now rewrite (sdk_root_line_not_cflags _ H).
Qed.

(** Lines that do not match are carried, whatever the state. *)
Lemma makefile_loop_no_match (l : list text) (st : makefile_state) :
  Forall (fun line => matches_sdk_root line = false) l ->
  modified_makefile_lines (fold_left makefile_step l st)
    = modified_makefile_lines st ++ flat_map carried l
  /\ sdk_root_updated (fold_left makefile_step l st) = sdk_root_updated st
  /\ proj_dir_defined (fold_left makefile_step l st) = proj_dir_defined st.
Proof.
  revert st. induction l as [|line l IH]; intros st H; simpl.
  - now rewrite app_nil_r.
  - inversion H as [|? ? Hline Hl]; subst.
    destruct (IH (makefile_step st line) Hl) as (E1 & E2 & E3).
    rewrite E1, E2, E3. unfold makefile_step, carried. rewrite Hline. simpl andb.
    cbv iota.
    destruct (text_eqb (strip line) target_cflags_line); simpl;
      rewrite <- ?app_assoc; simpl; auto.
Qed.

(** Once the SDK root is updated, every line is carried. *)
Lemma makefile_loop_updated (l : list text) (st : makefile_state) :
  sdk_root_updated st = true ->
  modified_makefile_lines (fold_left makefile_step l st)
    = modified_makefile_lines st ++ flat_map carried l
  /\ sdk_root_updated (fold_left makefile_step l st) = true.
Proof.
  revert st. induction l as [|line l IH]; intros st H; simpl.
  - now rewrite app_nil_r.
  - assert (Hst : sdk_root_updated (makefile_step st line) = true).
    { unfold makefile_step. rewrite H, andb_false_r.
      destruct (text_eqb (strip line) target_cflags_line); reflexivity. }
    destruct (IH _ Hst) as (E1 & E2). rewrite E1, E2. split; [|reflexivity].
    unfold makefile_step, carried. rewrite H, andb_false_r.
    destruct (text_eqb (strip line) target_cflags_line); simpl;
      rewrite <- ?app_assoc; reflexivity.
Qed.

(** The first pass on a Makefile whose first matching line is [line]. *)
Lemma sdk_root_pass_first_match (before after : list text) (line : text) :
  Forall (fun l => matches_sdk_root l = false) before ->
  matches_sdk_root line = true ->
  sdk_root_pass (before ++ line :: after)
  = flat_map carried before
      ++ [new_proj_dir_line; new_sdk_root_definition]
      ++ flat_map carried after.
Proof.
  intros Hbefore Hline. unfold sdk_root_pass.
  rewrite fold_left_app. simpl fold_left.
  destruct (makefile_loop_no_match before makefile_init Hbefore) as (E1 & E2 & E3).
  set (st := fold_left makefile_step before makefile_init) in *.
  simpl in E1, E2, E3.
  assert (Hstep : modified_makefile_lines (makefile_step st line)
                  = flat_map carried before ++ [new_proj_dir_line; new_sdk_root_definition]
                  /\ sdk_root_updated (makefile_step st line) = true).
  { unfold makefile_step. rewrite Hline, E2, E3, E1.
    rewrite (sdk_root_line_not_cflags _ Hline). simpl. auto. }
  destruct Hstep as (S1 & S2).
  destruct (makefile_loop_updated after _ S2) as (F1 & F2).
  rewrite F2, F1, S1. now rewrite <- app_assoc.
Qed.

Lemma count_occ_carried (x : text) (l : list text) :
  ~ In x extra_cflags ->
  count_occ (list_eq_dec ascii_dec) (flat_map carried l) x
  = count_occ (list_eq_dec ascii_dec) l x.
Proof.
  intros Hx. induction l as [|line l IH]; [reflexivity|].
  change (flat_map carried (line :: l)) with (carried line ++ flat_map carried l).
  rewrite count_occ_app.
  apply (f_equal (Nat.add (count_occ (list_eq_dec ascii_dec) (carried line) x))) in IH.
  etransitivity; [exact IH|clear IH]. unfold carried.
  assert (H0 : count_occ (list_eq_dec ascii_dec) extra_cflags x = 0)
    by now apply count_occ_not_In.
  destruct (text_eqb (strip line) target_cflags_line);
    cbn [count_occ]; destruct (list_eq_dec ascii_dec line x); rewrite ?H0; reflexivity.
Qed.

(** C9: when several lines match the legacy SDK root pattern, the first pass
    replaces the first of them only: the output is the lines before it as
    carried, the [PROJ_DIR] definition and the new [SDK_ROOT] definition in
    its place, then every later line as carried; a later matching line is
    carried as itself, and the [PROJ_DIR] definition is inserted once. *)
Theorem only_first_sdk_root_line_replaced (before after : list text) (line : text) :
  Forall (fun l => matches_sdk_root l = false) before ->
  matches_sdk_root line = true ->
  sdk_root_pass (before ++ line :: after)
  = flat_map carried before
      ++ [new_proj_dir_line; new_sdk_root_definition]
      ++ flat_map carried after
  /\ (forall later, In later after -> matches_sdk_root later = true ->
      carried later = [later])
  /\ count_occ (list_eq_dec ascii_dec) (sdk_root_pass (before ++ line :: after))
               new_proj_dir_line
     = S (count_occ (list_eq_dec ascii_dec) (before ++ after) new_proj_dir_line).
Proof.
  intros Hbefore Hline.
  rewrite (sdk_root_pass_first_match before after line Hbefore Hline).
  split; [reflexivity|]. split.
  - intros later _ Hlater. now apply carried_sdk_root_line.
  - assert (Hx : ~ In new_proj_dir_line extra_cflags).
    { vm_compute. intuition discriminate. }
    rewrite !count_occ_app, !(fun l => count_occ_carried new_proj_dir_line l Hx).
    change (count_occ (list_eq_dec ascii_dec)
              [new_proj_dir_line; new_sdk_root_definition] new_proj_dir_line) with 1.
    unfold text. lia.
Qed.

Lemma only_first_sdk_root_line_replaced_witness :
  sdk_root_pass
    ([str "PROJECT_NAME := blinky" ++ [nl]]
       ++ (str "SDK_ROOT := ../../../../../.." ++ [nl])
       :: [str "SDK_ROOT := ../../../../../../other" ++ [nl]])
  = flat_map carried [str "PROJECT_NAME := blinky" ++ [nl]]
      ++ [new_proj_dir_line; new_sdk_root_definition]
      ++ flat_map carried [str "SDK_ROOT := ../../../../../../other" ++ [nl]].
Proof.
  apply (only_first_sdk_root_line_replaced
           [str "PROJECT_NAME := blinky" ++ [nl]]
           [str "SDK_ROOT := ../../../../../../other" ++ [nl]]
           (str "SDK_ROOT := ../../../../../.." ++ [nl])).
  - repeat constructor.
  - reflexivity.
Defined.

(** ** The run up to the read of the project file *)

(** C8 as stated fails: a project file that exists but cannot be read makes
    the run exit with code 1 after the output directory and the relocation
    subdirectory were created. *)
Lemma unreadable_project_leaves_output :
  let w := mk_world true ReadFailed false false in
  project_isfile w = true
  /\ project_read w = ReadFailed
  /\ run w (str "out")
     = ([MakeDirs (str "out"); MakeDirs (str "out/sdk_files")], Exit 1).
Proof. repeat split. Qed.

(** C8 (amended): a run whose project file is missing or cannot be read exits
    with code 1.  When the file is missing ([isfile] fails) nothing was
    created before.  When it exists and the read fails, what was created
    before the read is exactly: the output directory, the relocation
    subdirectory and, when the source of [Makefile.common] exists, the
    directory of its destination followed, unless the copy fails, by the
    copy itself. *)
Theorem missing_or_unreadable_project_exits (w : world) (output_dir : text) :
  project_isfile w = false \/ (forall c, project_read w <> ReadOk c) ->
  snd (run w output_dir) = Exit 1
  /\ (project_isfile w = false -> fst (run w output_dir) = [])
  /\ (project_isfile w = true ->
      let makefile_common_dest_abs :=
        path_join output_dir
          [SDK_FILES_SUBDIR; str "components"; str "toolchain"; str "gcc";
           str "Makefile.common"] in
      fst (run w output_dir)
      = [MakeDirs output_dir; MakeDirs (path_join output_dir [SDK_FILES_SUBDIR])]
          ++ (if makefile_common_exists w
              then MakeDirs (dirname makefile_common_dest_abs)
                     :: (if makefile_common_copied w
                         then [CopyInto makefile_common_dest_abs] else [])
              else [])).
Proof.
  intros H.
  assert (Hdest : fst (create_target_path output_dir SDK_FILES_SUBDIR
                                          makefile_common_rel_path_xml)
                  = path_join output_dir
                      [SDK_FILES_SUBDIR; str "components"; str "toolchain"; str "gcc";
                       str "Makefile.common"]) by reflexivity.
  assert (Heff : fst (main_until_read w output_dir)
                 = [MakeDirs output_dir; MakeDirs (path_join output_dir [SDK_FILES_SUBDIR])]
                     ++ (if makefile_common_exists w
                         then MakeDirs (dirname (path_join output_dir
                                 [SDK_FILES_SUBDIR; str "components"; str "toolchain";
                                  str "gcc"; str "Makefile.common"]))
                                :: (if makefile_common_copied w
                                    then [CopyInto (path_join output_dir
                                            [SDK_FILES_SUBDIR; str "components";
                                             str "toolchain"; str "gcc";
                                             str "Makefile.common"])]
                                    else [])
                         else [])).
  { unfold main_until_read. rewrite Hdest. unfold copy_item.
    destruct (project_read w), (makefile_common_exists w), (makefile_common_copied w);
      reflexivity. }
  unfold run.
  destruct (project_isfile w) eqn:Hfile; simpl negb; cbv iota.
  - destruct H as [H|H]; [discriminate|].
    split; [|split; [discriminate|intros _; exact Heff]].
    unfold main_until_read.
    destruct (project_read w) as [c| |] eqn:Hread; [|reflexivity|reflexivity].
    exfalso. now apply (H c).
  - split; [reflexivity|]. split; [reflexivity|discriminate].
Qed.

Lemma missing_or_unreadable_project_exits_witness :
  (snd (run (mk_world true ReadFailed true true) (str "out")) = Exit 1
   /\ fst (run (mk_world true ReadFailed true true) (str "out"))
      = [MakeDirs (str "out"); MakeDirs (str "out/sdk_files");
         MakeDirs (str "out/sdk_files/components/toolchain/gcc");
         CopyInto (str "out/sdk_files/components/toolchain/gcc/Makefile.common")])
  /\ (snd (run (mk_world false ReadFileNotFound false false) (str "out")) = Exit 1
      /\ fst (run (mk_world false ReadFileNotFound false false) (str "out")) = []).
Proof.
  split.
  - destruct (missing_or_unreadable_project_exits
                (mk_world true ReadFailed true true) (str "out")
                (or_intror (fun c (E : ReadFailed = ReadOk c) =>
                              eq_ind ReadFailed
                                (fun r => match r with ReadFailed => True | _ => False end)
                                I (ReadOk c) E)))
      as (H1 & _ & H3).
    split; [exact H1|exact (H3 eq_refl)].
  - destruct (missing_or_unreadable_project_exits
                (mk_world false ReadFileNotFound false false) (str "out")
                (or_introl eq_refl)) as (H1 & H2 & _).
    split; [exact H1|exact (H2 eq_refl)].
Defined.

(** ** The substitution scan *)

Section Scan.
Variable ceq : ascii -> ascii -> bool.
Variables p r : text.
Hypothesis p_nonempty : p <> [].

Lemma skipn_pattern_shorter (c : ascii) (s : text) :
  length (skipn (length p) (c :: s)) <= length s.
Proof.
  destruct p as [|a p']; [congruence|]. simpl. rewrite length_skipn. lia.
Qed.

Lemma subst_go_S (fuel : nat) (c : ascii) (s : text) :
  subst_go ceq (S fuel) p r (c :: s) =
  if prefix_by ceq p (c :: s) then
    let '(out, n) := subst_go ceq fuel p r (skipn (length p) (c :: s)) in
    (r ++ out, S n)
  else
    let '(out, n) := subst_go ceq fuel p r s in (c :: out, n).
Proof. reflexivity. Qed.

(** Fuel beyond the length of the text changes nothing. *)
Lemma subst_go_fuel (f1 f2 : nat) (s : text) :
  length s <= f1 -> length s <= f2 ->
  subst_go ceq f1 p r s = subst_go ceq f2 p r s.
Proof.
  revert f2 s. induction f1 as [|f1 IH]; intros f2 s H1 H2.
  - destruct s; [|simpl in H1; lia]. now destruct f2.
  - destruct f2 as [|f2]; [destruct s; [reflexivity|simpl in H2; lia]|].
    destruct s as [|c s]; [reflexivity|].
    rewrite !subst_go_S. simpl in H1, H2.
    pose proof (skipn_pattern_shorter c s) as Hk.
    rewrite (IH f2 (skipn (length p) (c :: s))) by lia.
    rewrite (IH f2 s) by lia. reflexivity.
Qed.

Lemma subst_all_nil : subst_all ceq p r [] = ([], 0).
Proof. reflexivity. Qed.

Lemma subst_all_cons (c : ascii) (s : text) :
  subst_all ceq p r (c :: s) =
  if prefix_by ceq p (c :: s) then
    let '(out, n) := subst_all ceq p r (skipn (length p) (c :: s)) in
    (r ++ out, S n)
  else
    let '(out, n) := subst_all ceq p r s in (c :: out, n).
Proof.
  unfold subst_all. simpl length. rewrite subst_go_S.
  pose proof (skipn_pattern_shorter c s) as Hk.
  now rewrite (subst_go_fuel (length s) (length (skipn (length p) (c :: s)))
                              (skipn (length p) (c :: s))) by lia.
Qed.

(** Induction along the scan: at a match the scan resumes after it. *)
Lemma scan_ind (P : text -> Prop) :
  P [] ->
  (forall c s, prefix_by ceq p (c :: s) = true ->
               P (skipn (length p) (c :: s)) -> P (c :: s)) ->
  (forall c s, prefix_by ceq p (c :: s) = false -> P s -> P (c :: s)) ->
  forall s, P s.
Proof.
  intros Hnil Hmatch Hstep s.
  assert (H : forall n s, length s <= n -> P s).
  { clear s. induction n as [|n IH]; intros [|c s] Hl; simpl in Hl;
      try exact Hnil; try lia.
    destruct (prefix_by ceq p (c :: s)) eqn:E.
    - apply Hmatch; [exact E|]. apply IH.
      pose proof (skipn_pattern_shorter c s). lia.
    - apply Hstep; [exact E|]. apply IH. lia. }
  now apply (H (length s)).
Qed.

End Scan.

Lemma prefix_by_nil_r (ceq : ascii -> ascii -> bool) (p : text) :
  p <> [] -> prefix_by ceq p [] = false.
Proof. now destruct p. Qed.

Lemma prefix_by_eqb (p s : text) : prefix_by Ascii.eqb p s = startswith p s.
Proof. revert s. induction p as [|a p IH]; intros [|b s]; simpl; congruence. Qed.

(** The number of matches does not depend on the replacement. *)
Lemma subst_count_indep (ceq : ascii -> ascii -> bool) (p r r' s : text) :
  p <> [] -> snd (subst_all ceq p r s) = snd (subst_all ceq p r' s).
Proof.
  intros Hp. revert s. apply (scan_ind ceq p Hp).
  - reflexivity.
  - intros c s E IH. rewrite !subst_all_cons, E by assumption.
    destruct (subst_all ceq p r (skipn (length p) (c :: s))),
             (subst_all ceq p r' (skipn (length p) (c :: s))).
    simpl in *. congruence.
  - intros c s E IH. rewrite !subst_all_cons, E by assumption.
    destruct (subst_all ceq p r s), (subst_all ceq p r' s). simpl in *. congruence.
Qed.

Lemma replace_cons (old new : text) (c : ascii) (s : text) :
  old <> [] ->
  replace old new (c :: s) =
  if startswith old (c :: s) then new ++ replace old new (skipn (length old) (c :: s))
  else c :: replace old new s.
Proof.
  intros Hp. unfold replace. rewrite subst_all_cons by assumption.
  rewrite prefix_by_eqb.
  destruct (startswith old (c :: s)).
  - now destruct (subst_all Ascii.eqb old new (skipn (length old) (c :: s))).
  - now destruct (subst_all Ascii.eqb old new s).
Qed.

Lemma count_cons (sub : text) (c : ascii) (s : text) :
  sub <> [] ->
  count sub (c :: s) =
  if startswith sub (c :: s) then S (count sub (skipn (length sub) (c :: s)))
  else count sub s.
Proof.
  intros Hp. unfold count. rewrite subst_all_cons by assumption.
  rewrite prefix_by_eqb.
  destruct (startswith sub (c :: s)).
  - now destruct (subst_all Ascii.eqb sub sub (skipn (length sub) (c :: s))).
  - now destruct (subst_all Ascii.eqb sub sub s).
Qed.

Lemma occurs_nowhere_count (old s : text) :
  old <> [] -> occurs_nowhere old s -> count old s = 0.
Proof.
  intros Hp. induction s as [|c s IH]; intros H; [reflexivity|].
  rewrite count_cons by assumption.
  rewrite (H 0 : startswith old (c :: s) = false).
  apply IH. intros i. exact (H (S i)).
Qed.

Lemma count_zero_replace (old new s : text) :
  old <> [] -> count old s = 0 -> replace old new s = s.
Proof.
  intros Hp. induction s as [|c s IH]; intros H; [reflexivity|].
  rewrite count_cons in H by assumption. rewrite replace_cons by assumption.
  destruct (startswith old (c :: s)); [discriminate|]. now rewrite IH.
Qed.

(** A text built by [replace] starts with a string free of the first
    character of [new] only if the original text did. *)
Lemma replace_prefix_inv (old new' : text) (n : ascii) (s : text) :
  old <> [] ->
  forall q, ~ In n q ->
            startswith q (replace old (n :: new') s) = true ->
            startswith q s = true.
Proof.
  intros Hp. revert s. apply (scan_ind Ascii.eqb old Hp (fun s =>
    forall q, ~ In n q -> startswith q (replace old (n :: new') s) = true ->
              startswith q s = true)).
  - intros q _ H. exact H.
  - intros c s E _ q Hq H. rewrite replace_cons in H by assumption.
    rewrite prefix_by_eqb in E. rewrite E in H.
    destruct q as [|a q]; [reflexivity|]. simpl in H.
    apply andb_true_iff in H as [Ha _]. apply Ascii.eqb_eq in Ha. subst a.
    exfalso. apply Hq. now left.
  - intros c s E IH q Hq H. rewrite replace_cons in H by assumption.
    rewrite prefix_by_eqb in E. rewrite E in H.
    destruct q as [|a q]; [reflexivity|]. simpl in H |- *.
    apply andb_true_iff in H as [Ha H]. rewrite Ha. simpl.
    apply IH; [|exact H]. intros Hin. apply Hq. now right.
Qed.

Lemma occurs_nowhere_app (old : text) (o : ascii) (old' new s : text) :
  old = o :: old' -> ~ In o new ->
  occurs_nowhere old s -> occurs_nowhere old (new ++ s).
Proof.
  intros -> Ho H. induction new as [|a new IH]; [exact H|].
  intros [|i].
  - simpl. destruct (Ascii.eqb o a) eqn:E; [|reflexivity].
    apply Ascii.eqb_eq in E. subst a. exfalso. apply Ho. now left.
  - simpl. apply IH. intros Hin. apply Ho. now right.
Qed.

(** After [replace], [old] occurs nowhere, when the first character of each
    of [old] and [new] does not occur in the other. *)
Lemma replace_occurs_nowhere (old new : text) (o n : ascii) (old' new' : text) :
  old = o :: old' -> new = n :: new' -> ~ In o new -> ~ In n old ->
  forall s, occurs_nowhere old (replace old new s).
Proof.
  intros Hold Hnew Ho Hn.
  assert (Hp : old <> []) by (subst; discriminate).
  apply (scan_ind Ascii.eqb old Hp).
  - intros i. subst old. now destruct i.
  - intros c s E IH. rewrite replace_cons by assumption.
    rewrite prefix_by_eqb in E. rewrite E.
    exact (occurs_nowhere_app old o old' new _ Hold Ho IH).
  - intros c s E IH. rewrite replace_cons by assumption.
    rewrite prefix_by_eqb in E. rewrite E.
    intros [|i]; [|exact (IH i)].
    simpl skipn. apply not_true_is_false. intros H.
    assert (Hs : startswith old (replace old new (c :: s)) = true).
    { rewrite replace_cons, E by assumption. exact H. }
    rewrite Hnew in Hs. apply replace_prefix_inv in Hs; try assumption.
    congruence.
Qed.

(** ** The sorted mapping *)

Lemma insert_desc_perm (e : entry) (l : list entry) :
  Permutation (insert_desc e l) (e :: l).
Proof.
  induction l as [|x l IH]; simpl; [reflexivity|].
  destruct (length (fst x) <=? length (fst e)); [reflexivity|].
  rewrite IH. apply perm_swap.
Qed.

Lemma sorted_replacements_perm (d : dict) : Permutation (sorted_replacements d) d.
Proof.
  induction d as [|e d IH]; simpl; [reflexivity|].
  rewrite insert_desc_perm. now constructor.
Qed.

Lemma sorted_replacements_modelled (d : dict) :
  Forall (fun e => modelled_entry e = true) d ->
  Forall (fun e => modelled_entry e = true) (sorted_replacements d).
Proof.
  intros H. apply Forall_forall. intros e He. rewrite Forall_forall in H.
  apply H. apply (Permutation_in e (sorted_replacements_perm d) He).
Qed.

(** ** Descriptor rewriter: the loop and the final replacement *)

Lemma generic_sdk_prefix_nonempty : generic_sdk_prefix <> [].
Proof. discriminate. Qed.

Lemma generic_prefix_removed (s : text) :
  occurs_nowhere generic_sdk_prefix (replace generic_sdk_prefix new_sdk_prefix s).
Proof.
  apply (replace_occurs_nowhere generic_sdk_prefix new_sdk_prefix
           "." "s" (str "./../../../../../") (str "dk_files/"));
    try reflexivity; vm_compute; intuition discriminate.
Qed.

Lemma generic_prefix_count_after (s : text) :
  count generic_sdk_prefix (replace generic_sdk_prefix new_sdk_prefix s) = 0.
Proof.
  apply occurs_nowhere_count; [apply generic_sdk_prefix_nonempty|].
  apply generic_prefix_removed.
Qed.

(** The loop answers on modelled entries, and a count of zero means that the
    content is still the original one. *)
Lemma replacement_loop_total (original : text) (l : list entry) :
  Forall (fun e => modelled_entry e = true) l ->
  forall content n,
    (n = 0 -> content = original) ->
    exists content' n',
      fold_left replacement_step l (Some (content, n)) = Some (content', n')
      /\ (n' = 0 -> content' = original).
Proof.
  induction 1 as [|e l He Hl IH]; intros content n Hinv.
  - now exists content, n.
  - unfold modelled_entry in He.
    change (fold_left replacement_step (e :: l) (Some (content, n)))
      with (fold_left replacement_step l (replacement_step (Some (content, n)) e)).
    unfold replacement_step at 2.
    destruct (entry_pattern (fst e)) as [pattern|]; [|discriminate].
    unfold re_subn_ignorecase. apply negb_true_iff in He. rewrite He.
    destruct (subst_all ci_eqb pattern (snd e) content) as [content1 k].
    destruct (0 <? k) eqn:Hk.
    + apply IH. intros Hz. apply Nat.ltb_lt in Hk. lia.
    + apply IH. exact Hinv.
Qed.

Lemma targeted_replacements_total (original : text) (paths : dict) :
  Forall (fun e => modelled_entry e = true) paths ->
  exists content n,
    targeted_replacements original paths = Some (content, n)
    /\ (n = 0 -> content = original).
Proof.
  intros H. unfold targeted_replacements.
  apply replacement_loop_total; [now apply sorted_replacements_modelled|auto].
Qed.

(** C5: whatever the descriptor text and the mapping (of entries the loop is
    modelled on), the rewriter answers, and the content of the destination
    descriptor has no occurrence of the six-level prefix
    [../../../../../../]: its count is zero and it occurs at no position.
    The final replacement alone gives this for any content the loop hands
    to it. *)
Theorem no_generic_prefix_left (original : text) (paths : dict) :
  Forall (fun e => modelled_entry e = true) paths ->
  (exists o,
      rewrite_descriptor original paths = Some o
      /\ count generic_sdk_prefix (destination_content original o) = 0
      /\ occurs_nowhere generic_sdk_prefix (destination_content original o))
  /\ (forall content n,
         count generic_sdk_prefix (fst (generic_replacement (content, n))) = 0).
Proof.
  intros H. split; [|intros content n; apply generic_prefix_count_after].
  unfold rewrite_descriptor.
  destruct (targeted_replacements_total original paths H) as (content & n & E & Hinv).
  rewrite E. unfold generic_replacement.
  rewrite generic_prefix_count_after, Nat.sub_0_r.
  set (made := count generic_sdk_prefix content) in *.
  set (modified := replace generic_sdk_prefix new_sdk_prefix content).
  destruct (0 <? made) eqn:Hmade.
  - apply Nat.ltb_lt in Hmade.
    assert (Hpos : (0 <? n + made) = true) by (apply Nat.ltb_lt; lia).
    rewrite Hpos. exists (WriteModified modified). split; [reflexivity|].
    split; [apply generic_prefix_count_after|apply generic_prefix_removed].
  - apply Nat.ltb_ge in Hmade. assert (Hz : made = 0) by lia.
    destruct (0 <? n) eqn:Hn.
    + exists (WriteModified modified). split; [reflexivity|].
      split; [apply generic_prefix_count_after|apply generic_prefix_removed].
    + apply Nat.ltb_ge in Hn. assert (Hn0 : n = 0) by lia.
      exists CopyOriginal. split; [reflexivity|]. simpl.
      rewrite <- (Hinv Hn0). split; [exact Hz|].
      unfold modified. rewrite <- (count_zero_replace generic_sdk_prefix new_sdk_prefix content
                                     generic_sdk_prefix_nonempty Hz).
      apply generic_prefix_removed.
Qed.

Lemma no_generic_prefix_left_witness :
  exists o,
    rewrite_descriptor
      (str "<file " ++ attr_val (str "file_name") (str "../../../../../../a/b.c") ++ str "/>")
      [(attr_val (str "file_name") (str "../../../../../../a/b.c"),
        attr_val (str "file_name") (str "sdk_files/a/b.c"))] = Some o
    /\ count generic_sdk_prefix
         (destination_content
            (str "<file " ++ attr_val (str "file_name") (str "../../../../../../a/b.c")
                 ++ str "/>") o) = 0
    /\ occurs_nowhere generic_sdk_prefix
         (destination_content
            (str "<file " ++ attr_val (str "file_name") (str "../../../../../../a/b.c")
                 ++ str "/>") o).
Proof.
  apply (proj1 (no_generic_prefix_left
                  (str "<file " ++ attr_val (str "file_name") (str "../../../../../../a/b.c")
                       ++ str "/>")
                  [(attr_val (str "file_name") (str "../../../../../../a/b.c"),
                    attr_val (str "file_name") (str "sdk_files/a/b.c"))]
                  ltac:(repeat constructor))).
Defined.

(** C4 as stated fails: with an empty mapping, a descriptor that holds the
    six-level prefix is rewritten by the final generic replacement, and the
    destination differs from the input. *)
Lemma empty_mapping_still_rewrites :
  let original :=
    str "<file " ++ attr_val (str "file_name") (str "../../../../../../a/b.c") ++ str "/>" in
  rewrite_descriptor original []
  = Some (WriteModified
            (str "<file " ++ attr_val (str "file_name") (str "sdk_files/a/b.c") ++ str "/>"))
  /\ forall o, rewrite_descriptor original [] = Some o ->
               destination_content original o <> original.
Proof.
  cbv zeta. split; [reflexivity|].
  intros o H. vm_compute in H. injection H as <-. vm_compute. discriminate.
Qed.

(** C4 (amended): with an empty mapping and a descriptor that holds no
    occurrence of the six-level prefix, no substitution occurs, the original
    file is copied, and the destination is identical to the input. *)
Theorem empty_mapping_copies_original (original : text) :
  count generic_sdk_prefix original = 0 ->
  rewrite_descriptor original [] = Some CopyOriginal
  /\ forall o, rewrite_descriptor original [] = Some o ->
               destination_content original o = original.
Proof.
  intros Hz.
  assert (E : rewrite_descriptor original [] = Some CopyOriginal).
  { unfold rewrite_descriptor, targeted_replacements. simpl fold_left.
    unfold generic_replacement.
    rewrite (count_zero_replace generic_sdk_prefix new_sdk_prefix original
               generic_sdk_prefix_nonempty Hz), Hz. reflexivity. }
  split; [exact E|]. intros o Ho. rewrite E in Ho. now injection Ho as <-.
Qed.

Lemma empty_mapping_copies_original_witness :
  rewrite_descriptor (str "<solution Name=blinky/>") [] = Some CopyOriginal.
Proof.
  apply (empty_mapping_copies_original (str "<solution Name=blinky/>")).
  reflexivity.
Defined.

(** ** Comparison up to letter case *)

Lemma ci_eqb_refl (a : ascii) : ci_eqb a a = true.
Proof. unfold ci_eqb. apply Ascii.eqb_refl. Qed.

Lemma lower_dq (c : ascii) : lower c = dq -> c = dq.
Proof.
  destruct c as [b0 b1 b2 b3 b4 b5 b6 b7].
  destruct b0, b1, b2, b3, b4, b5, b6, b7; vm_compute; congruence.
Qed.

Lemma lower_equals_sign (c : ascii) : lower c = "="%char -> c = "="%char.
Proof.
  destruct c as [b0 b1 b2 b3 b4 b5 b6 b7].
  destruct b0, b1, b2, b3, b4, b5, b6, b7; vm_compute; congruence.
Qed.

Lemma ci_eqb_dq_l (c : ascii) : ci_eqb dq c = true -> c = dq.
Proof.
  unfold ci_eqb. intros H. apply Ascii.eqb_eq in H. apply lower_dq. now rewrite <- H.
Qed.

Lemma ci_eqb_dq_r (c : ascii) : ci_eqb c dq = true -> c = dq.
Proof.
  unfold ci_eqb. intros H. apply Ascii.eqb_eq in H. now apply lower_dq.
Qed.

Lemma ci_eqb_equals_sign_l (c : ascii) : ci_eqb "=" c = true -> c = "="%char.
Proof.
  unfold ci_eqb. intros H. apply Ascii.eqb_eq in H.
  apply lower_equals_sign. now rewrite <- H.
Qed.

Lemma prefix_by_length (ceq : ascii -> ascii -> bool) (p s : text) :
  prefix_by ceq p s = true -> length p <= length s.
Proof.
  revert s. induction p as [|a p IH]; intros s H; simpl; [lia|].
  destruct s as [|b s]; simpl in H; [discriminate|].
  apply andb_true_iff in H as [_ H]. apply IH in H. simpl. lia.
Qed.

Lemma prefix_by_nth (ceq : ascii -> ascii -> bool) (d : ascii) (p s : text) :
  prefix_by ceq p s = true ->
  forall i, i < length p -> ceq (nth i p d) (nth i s d) = true.
Proof.
  revert s. induction p as [|a p IH]; intros s H i Hi; simpl in Hi; [lia|].
  destruct s as [|b s]; simpl in H; [discriminate|].
  apply andb_true_iff in H as [Hab H].
  destruct i as [|i]; [exact Hab|]. simpl. apply IH; [exact H|lia].
Qed.

Lemma prefix_by_app_l (ceq : ascii -> ascii -> bool) (a b s : text) :
  prefix_by ceq (a ++ b) s = true -> prefix_by ceq a s = true.
Proof.
  revert s. induction a as [|x a IH]; intros s H; [reflexivity|].
  destruct s as [|y s]; simpl in *; [discriminate|].
  apply andb_true_iff in H as [Hxy H]. rewrite Hxy. simpl. now apply IH.
Qed.

Lemma prefix_by_app (ceq : ascii -> ascii -> bool) (a b x y : text) :
  length a = length x ->
  prefix_by ceq (a ++ b) (x ++ y) = prefix_by ceq a x && prefix_by ceq b y.
Proof.
  revert x. induction a as [|c a IH]; intros x H.
  - destruct x; [reflexivity|discriminate].
  - destruct x as [|z x]; [discriminate|]. simpl in H |- *.
    rewrite IH by lia. now rewrite andb_assoc.
Qed.

Lemma prefix_by_refl (p s : text) : prefix_by ci_eqb p (p ++ s) = true.
Proof.
  induction p as [|a p IH]; simpl; [reflexivity|]. now rewrite ci_eqb_refl.
Qed.

Lemma ci_equal_refl (a : text) : ci_equal a a = true.
Proof.
  unfold ci_equal. rewrite Nat.eqb_refl. simpl.
  rewrite <- (app_nil_r a) at 2. apply prefix_by_refl.
Qed.

Lemma ci_equal_length (a b : text) : ci_equal a b = true -> length a = length b.
Proof.
  unfold ci_equal. intros H. apply andb_true_iff in H as [H _].
  now apply Nat.eqb_eq.
Qed.

Lemma free_of_spec (c : ascii) (s : text) : free_of c s = true <-> ~ In c s.
Proof.
  unfold free_of. rewrite negb_true_iff. split.
  - intros H Hin. assert (existsb (Ascii.eqb c) s = true).
    { apply existsb_exists. exists c. split; [exact Hin|apply Ascii.eqb_refl]. }
    congruence.
  - intros H. apply not_true_is_false. intros Hex.
    apply existsb_exists in Hex as [x [Hin Hx]].
    apply Ascii.eqb_eq in Hx. subst x. contradiction.
Qed.

(** A name that is free of the double quote stays so up to case. *)
Lemma ci_equal_free_of_dq (a b : text) :
  ci_equal a b = true -> free_of dq a = true -> free_of dq b = true.
Proof.
  intros H Ha. pose proof (ci_equal_length a b H) as Hlen.
  unfold ci_equal in H. apply andb_true_iff in H as [_ H].
  apply free_of_spec. rewrite free_of_spec in Ha. intros Hin.
  apply (In_nth b dq " "%char) in Hin as (i & Hi & Hnth).
  pose proof (prefix_by_nth ci_eqb " " a b H i ltac:(lia)) as Hc.
  rewrite Hnth in Hc. apply ci_eqb_dq_r in Hc.
  apply Ha. rewrite <- Hc. apply nth_In. lia.
Qed.

Lemma matches_nowhere_spec (p s : text) :
  matches_nowhere p s = true <->
  forall i, prefix_by ci_eqb p (skipn i s) = false.
Proof.
  induction s as [|c s IH]; simpl.
  - rewrite andb_true_r, negb_true_iff. split.
    + intros H i. now destruct i.
    + intros H. exact (H 0).
  - rewrite andb_true_iff, negb_true_iff, IH. split.
    + intros [H0 H] [|i]; [exact H0|exact (H i)].
    + intros H. split; [exact (H 0)|]. intros i. exact (H (S i)).
Qed.

(** ** The scan over a text with a part where nothing matches *)

Lemma subst_skip (ceq : ascii -> ascii -> bool) (p r K R : text) :
  p <> [] ->
  (forall i, i < length K -> prefix_by ceq p (skipn i K ++ R) = false) ->
  subst_all ceq p r (K ++ R)
  = (K ++ fst (subst_all ceq p r R), snd (subst_all ceq p r R)).
Proof.
  intros Hp. induction K as [|c K IH]; intros H.
  - simpl. now destruct (subst_all ceq p r R).
  - change ((c :: K) ++ R) with (c :: (K ++ R)).
    rewrite subst_all_cons by assumption.
    rewrite (H 0 ltac:(simpl; lia) : prefix_by ceq p (c :: K ++ R) = false).
    rewrite IH; [reflexivity|].
    intros i Hi. apply (H (S i)). simpl. lia.
Qed.

Lemma subst_match (ceq : ascii -> ascii -> bool) (p r A R : text) :
  p <> [] -> length A = length p ->
  prefix_by ceq p (A ++ R) = true ->
  subst_all ceq p r (A ++ R)
  = (r ++ fst (subst_all ceq p r R), S (snd (subst_all ceq p r R))).
Proof.
  intros Hp Hlen H.
  destruct A as [|c A]; [destruct p; [congruence|discriminate]|].
  change ((c :: A) ++ R) with (c :: (A ++ R)) in *.
  rewrite subst_all_cons, H by assumption.
  change (c :: A ++ R) with ((c :: A) ++ R).
  rewrite <- Hlen, skipn_app, skipn_all, Nat.sub_diag. simpl.
  now destruct (subst_all ceq p r R).
Qed.

Lemma prefix_by_within (ceq : ascii -> ascii -> bool) (p x y : text) :
  length p <= length x -> prefix_by ceq p (x ++ y) = prefix_by ceq p x.
Proof.
  revert x. induction p as [|a p IH]; intros x H; [reflexivity|].
  destruct x as [|b x]; simpl in H; [lia|]. simpl. rewrite IH by lia. reflexivity.
Qed.

Lemma nth_skipn_add (j k : nat) (s : text) (d : ascii) :
  nth k (skipn j s) d = nth (j + k) s d.
Proof.
  revert s. induction j as [|j IH]; intros s; [reflexivity|].
  destruct s as [|c s]; simpl; [now destruct k|apply IH].
Qed.

(** ** The characters of an occurrence *)

Lemma attr_val_app (n v R : text) :
  attr_val n v ++ R = n ++ "="%char :: dq :: v ++ dq :: R.
Proof.
  unfold attr_val. simpl. rewrite <- app_assoc. simpl.
  rewrite <- app_assoc. reflexivity.
Qed.

Lemma attr_val_length (n v : text) :
  length (attr_val n v) = length n + length v + 3.
Proof. unfold attr_val. rewrite !length_app. simpl. lia. Qed.

Lemma attr_val_anchor (n v : text) : attr_val n v = anchor n ++ v ++ [dq].
Proof. unfold attr_val, anchor. now rewrite <- !app_assoc. Qed.

Lemma anchor_length (n : text) : length (anchor n) = length n + 2.
Proof. unfold anchor. rewrite !length_app. simpl. lia. Qed.

Section OccurrenceCharacters.
Variables (n v R : text) (d : ascii).

Lemma occurrence_nth_name (i : nat) :
  i < length n -> nth i (attr_val n v ++ R) d = nth i n d.
Proof. intros H. rewrite attr_val_app. now apply app_nth1. Qed.

Lemma occurrence_nth_equals : nth (length n) (attr_val n v ++ R) d = "="%char.
Proof.
  rewrite attr_val_app, app_nth2 by lia. now rewrite Nat.sub_diag.
Qed.

Lemma occurrence_nth_open : nth (length n + 1) (attr_val n v ++ R) d = dq.
Proof.
  rewrite attr_val_app, app_nth2 by lia.
  now replace (length n + 1 - length n) with 1 by lia.
Qed.

Lemma occurrence_nth_value (i : nat) :
  i < length v -> nth (length n + 2 + i) (attr_val n v ++ R) d = nth i v d.
Proof.
  intros H. rewrite attr_val_app, app_nth2 by lia.
  replace (length n + 2 + i - length n) with (S (S i)) by lia.
  simpl. now apply app_nth1.
Qed.

Lemma occurrence_nth_close :
  nth (length n + 2 + length v) (attr_val n v ++ R) d = dq.
Proof.
  rewrite attr_val_app, app_nth2 by lia.
  replace (length n + 2 + length v - length n) with (S (S (length v))) by lia.
  simpl. rewrite app_nth2 by lia. now rewrite Nat.sub_diag.
Qed.

End OccurrenceCharacters.

Lemma anchor_nth_name (name : text) (d : ascii) (i : nat) :
  i < length name -> nth i (anchor name) d = nth i name d.
Proof. intros H. unfold anchor. now apply app_nth1. Qed.

Lemma anchor_nth_equals (name : text) (d : ascii) :
  nth (length name) (anchor name) d = "="%char.
Proof. unfold anchor. rewrite app_nth2 by lia. now rewrite Nat.sub_diag. Qed.

Lemma anchor_nth_open (name : text) (d : ascii) :
  nth (length name + 1) (anchor name) d = dq.
Proof.
  unfold anchor. rewrite app_nth2 by lia.
  now replace (length name + 1 - length name) with 1 by lia.
Qed.

(** ** Where the pattern of an entry can match *)

Section AnchorPositions.
Variable name : text.
Hypothesis name_plain : free_of dq name = true.

(** No anchor starts inside an occurrence, after its first character. *)
Lemma no_anchor_inside (n v R : text) (j : nat) :
  length n = length name ->
  plain_value v = true ->
  0 < j -> j < length (attr_val n v) ->
  prefix_by ci_eqb (anchor name) (skipn j (attr_val n v ++ R)) = false.
Proof.
  intros Hlen Hv Hj0 Hj. apply not_true_is_false. intros H.
  rewrite attr_val_length in Hj.
  unfold plain_value in Hv. apply andb_true_iff in Hv as [Hdq Heq].
  rewrite free_of_spec in Hdq, Heq, name_plain.
  pose proof (prefix_by_nth ci_eqb " " _ _ H) as Hnth.
  rewrite anchor_length in Hnth.
  destruct (Nat.lt_trichotomy (j + (length name + 1)) (length n + 2 + length v))
    as [Hq|[Hq|Hq]].
  - (* the quote of the anchor falls on a character of the value *)
    specialize (Hnth (length name + 1) ltac:(lia)).
    rewrite anchor_nth_open, nth_skipn_add in Hnth.
    replace (j + (length name + 1))
      with (length n + 2 + (j + (length name + 1) - length n - 2)) in Hnth by lia.
    rewrite occurrence_nth_value in Hnth by lia.
    apply ci_eqb_dq_l in Hnth. apply Hdq. rewrite <- Hnth. apply nth_In. lia.
  - (* it falls on the closing quote: the equals sign is on the value *)
    specialize (Hnth (length name) ltac:(lia)).
    rewrite anchor_nth_equals, nth_skipn_add in Hnth.
    destruct (length v) as [|k] eqn:Hk.
    + replace (j + length name) with (length n + 1) in Hnth by lia.
      rewrite occurrence_nth_open in Hnth. discriminate.
    + replace (j + length name) with (length n + 2 + k) in Hnth by lia.
      rewrite occurrence_nth_value in Hnth by lia.
      apply ci_eqb_equals_sign_l in Hnth. apply Heq. rewrite <- Hnth.
      apply nth_In. lia.
  - (* it falls after the occurrence: the closing quote is on the name *)
    specialize (Hnth (length n + 2 + length v - j) ltac:(lia)).
    rewrite nth_skipn_add in Hnth.
    replace (j + (length n + 2 + length v - j)) with (length n + 2 + length v)
      in Hnth by lia.
    rewrite occurrence_nth_close in Hnth. apply ci_eqb_dq_r in Hnth.
    destruct (Nat.eq_dec (length n + 2 + length v - j) (length name)) as [E|E].
    + rewrite E, anchor_nth_equals in Hnth. discriminate.
    + rewrite anchor_nth_name in Hnth by lia.
      apply name_plain. rewrite <- Hnth. apply nth_In. lia.
Qed.

(** No anchor starts in the text before an occurrence. *)
Lemma no_anchor_before (s n v R : text) (i : nat) :
  matches_nowhere (anchor name) s = true ->
  length n = length name ->
  free_of dq n = true ->
  i < length s ->
  prefix_by ci_eqb (anchor name) (skipn i s ++ attr_val n v ++ R) = false.
Proof.
  intros Hs Hlen Hn Hi. apply not_true_is_false. intros H.
  rewrite matches_nowhere_spec in Hs. rewrite free_of_spec in Hn.
  assert (Hk : length (skipn i s) = length s - i) by apply length_skipn.
  destruct (le_lt_dec (length (anchor name)) (length (skipn i s))) as [Hfit|Hfit].
  - rewrite prefix_by_within in H by assumption. now rewrite Hs in H.
  - rewrite anchor_length in Hfit.
    pose proof (prefix_by_nth ci_eqb " " _ _ H (length name + 1)
                  ltac:(rewrite anchor_length; lia)) as Hnth.
    rewrite anchor_nth_open, app_nth2 in Hnth by lia.
    apply ci_eqb_dq_l in Hnth.
    destruct (Nat.eq_dec (length name + 1 - length (skipn i s)) (length n)) as [E|E].
    + rewrite E, occurrence_nth_equals in Hnth. discriminate.
    + rewrite occurrence_nth_name in Hnth by lia.
      apply Hn. rewrite <- Hnth. apply nth_In. lia.
Qed.

(** At the start of an occurrence the pattern of an entry matches exactly
    when the values are equal up to case. *)
Lemma value_and_quote (ov v R : text) :
  free_of dq ov = true -> free_of dq v = true ->
  prefix_by ci_eqb (ov ++ [dq]) (v ++ dq :: R) = ci_equal ov v.
Proof.
  unfold ci_equal. revert v.
  induction ov as [|x ov IH]; intros [|y v] Hov Hv.
  - reflexivity.
  - simpl. destruct (ci_eqb dq y) eqn:E; [|reflexivity].
    apply ci_eqb_dq_l in E. subst y. discriminate.
  - simpl. destruct (ci_eqb x dq) eqn:E; [|reflexivity].
    apply ci_eqb_dq_r in E. subst x. discriminate.
  - unfold free_of in Hov, Hv. simpl in Hov, Hv.
    apply negb_true_iff, orb_false_iff in Hov as [_ Hov].
    apply negb_true_iff, orb_false_iff in Hv as [_ Hv].
    simpl. rewrite IH by (unfold free_of; now apply negb_true_iff).
    destruct (ci_eqb x y), (length ov =? length v); reflexivity.
Qed.

Lemma pattern_at_occurrence (ov n v R : text) :
  ci_equal name n = true ->
  free_of dq ov = true -> free_of dq v = true ->
  prefix_by ci_eqb (attr_val name ov) (attr_val n v ++ R) = ci_equal ov v.
Proof.
  intros Hn Hov Hv.
  pose proof (ci_equal_length _ _ Hn) as Hlen.
  unfold ci_equal in Hn. apply andb_true_iff in Hn as [_ Hn].
  rewrite attr_val_app.
  change (attr_val name ov) with (name ++ "="%char :: dq :: ov ++ [dq]).
  rewrite prefix_by_app by assumption. rewrite Hn. simpl.
  now apply value_and_quote.
Qed.

End AnchorPositions.

(** ** One entry applied to a document *)

Lemma subst_count_zero (ceq : ascii -> ascii -> bool) (p r s : text) :
  p <> [] -> snd (subst_all ceq p r s) = 0 -> fst (subst_all ceq p r s) = s.
Proof.
  intros Hp. revert s.
  apply (scan_ind ceq p Hp (fun s =>
    snd (subst_all ceq p r s) = 0 -> fst (subst_all ceq p r s) = s)).
  - reflexivity.
  - intros c s E _. rewrite subst_all_cons, E by assumption.
    destruct (subst_all ceq p r (skipn (length p) (c :: s))). discriminate.
  - intros c s E IH. rewrite subst_all_cons, E by assumption.
    destruct (subst_all ceq p r s) as [out k]. simpl in *.
    intros Hk. now rewrite (IH Hk).
Qed.

Lemma attr_val_nonempty (n v : text) : attr_val n v <> [].
Proof.
  intros H. apply (f_equal (@length ascii)) in H.
  rewrite attr_val_length in H. simpl in H. lia.
Qed.

Lemma pattern_needs_anchor (name ov s : text) :
  prefix_by ci_eqb (anchor name) s = false ->
  prefix_by ci_eqb (attr_val name ov) s = false.
Proof.
  intros H. apply not_true_is_false. intros Hp.
  rewrite attr_val_anchor in Hp. apply prefix_by_app_l in Hp. congruence.
Qed.

Section DocumentRewriting.
Variable name : text.
Hypothesis name_plain : free_of dq name = true.

Lemma subst_tail (ov r s : text) :
  matches_nowhere (anchor name) s = true ->
  subst_all ci_eqb (attr_val name ov) r s = (s, 0).
Proof.
  intros Hs. rewrite matches_nowhere_spec in Hs.
  rewrite <- (app_nil_r s) at 1.
  rewrite subst_skip; [now rewrite app_nil_r|apply attr_val_nonempty|].
  intros i _. rewrite app_nil_r. apply pattern_needs_anchor. apply Hs.
Qed.

Lemma subst_pieces (ov r : text) (pcs : list piece) (s : text) :
  plain_value ov = true ->
  forallb (well_formed_piece name) pcs = true ->
  matches_nowhere (anchor name) s = true ->
  subst_all ci_eqb (attr_val name ov) r (concat (map render_piece pcs) ++ s)
  = (concat (map (piece_after ov r) pcs) ++ s,
     length (filter (fun pc => ci_equal ov (pc_value pc)) pcs)).
Proof.
  intros Hov Hpcs Hs.
  assert (Hovq : free_of dq ov = true).
  { unfold plain_value in Hov. now apply andb_true_iff in Hov as [H _]. }
  induction pcs as [|pc pcs IH].
  - simpl. now apply subst_tail.
  - simpl in Hpcs. apply andb_true_iff in Hpcs as [Hpc Hpcs].
    specialize (IH Hpcs).
    unfold well_formed_piece in Hpc.
    apply andb_true_iff in Hpc as [Hpc Hv].
    apply andb_true_iff in Hpc as [Hb Hn].
    pose proof (ci_equal_length _ _ Hn) as Hlen.
    pose proof (ci_equal_free_of_dq _ _ Hn name_plain) as Hnq.
    assert (Hvq : free_of dq (pc_value pc) = true).
    { unfold plain_value in Hv. now apply andb_true_iff in Hv as [H _]. }
    set (rest := concat (map render_piece pcs) ++ s) in *.
    replace (concat (map render_piece (pc :: pcs)) ++ s)
      with (pc_before pc ++ attr_val (pc_name pc) (pc_value pc) ++ rest)
      by (simpl; unfold render_piece; now rewrite <- !app_assoc).
    rewrite subst_skip; [|apply attr_val_nonempty|].
    2:{ intros i Hi. apply pattern_needs_anchor.
        apply no_anchor_before; auto. }
    assert (Hocc : subst_all ci_eqb (attr_val name ov) r
                     (attr_val (pc_name pc) (pc_value pc) ++ rest)
                   = ((if ci_equal ov (pc_value pc) then r
                       else attr_val (pc_name pc) (pc_value pc))
                        ++ fst (subst_all ci_eqb (attr_val name ov) r rest),
                      (if ci_equal ov (pc_value pc) then 1 else 0)
                        + snd (subst_all ci_eqb (attr_val name ov) r rest))).
    { destruct (ci_equal ov (pc_value pc)) eqn:Hci.
      - apply subst_match; [apply attr_val_nonempty| |].
        + rewrite !attr_val_length. apply ci_equal_length in Hci. lia.
        + rewrite pattern_at_occurrence; auto.
      - apply subst_skip; [apply attr_val_nonempty|].
        intros j Hj. destruct j as [|j].
        + simpl skipn. rewrite pattern_at_occurrence; auto.
        + apply pattern_needs_anchor.
          replace (skipn (S j) (attr_val (pc_name pc) (pc_value pc)) ++ rest)
            with (skipn (S j) (attr_val (pc_name pc) (pc_value pc) ++ rest)).
          * apply no_anchor_inside; auto; lia.
          * rewrite skipn_app.
            replace (S j - length (attr_val (pc_name pc) (pc_value pc))) with 0 by lia.
            reflexivity. }
    rewrite Hocc, IH. cbn [fst snd].
    change (concat (map (piece_after ov r) (pc :: pcs)))
      with (piece_after ov r pc ++ concat (map (piece_after ov r) pcs)).
    unfold piece_after. cbn [filter].
    destruct (ci_equal ov (pc_value pc)); cbn [length];
      rewrite <- !app_assoc; reflexivity.
Qed.

Lemma render_rewrite_document (ov nv : text) (d : document) :
  render (rewrite_document name ov nv d)
  = concat (map (piece_after ov (attr_val name nv)) (doc_pieces d)) ++ doc_tail d.
Proof.
  unfold render, rewrite_document. simpl. f_equal.
  rewrite map_map. f_equal. apply map_ext. intros pc.
  unfold rewrite_piece, piece_after, render_piece.
  now destruct (ci_equal ov (pc_value pc)).
Qed.

Lemma subst_document (ov nv : text) (d : document) :
  plain_value ov = true ->
  well_formed name d = true ->
  subst_all ci_eqb (attr_val name ov) (attr_val name nv) (render d)
  = (render (rewrite_document name ov nv d), matching_pieces ov d).
Proof.
  intros Hov Hd. unfold well_formed in Hd. apply andb_true_iff in Hd as [Hp Ht].
  rewrite render_rewrite_document. unfold render, matching_pieces.
  now apply subst_pieces.
Qed.

Lemma rewrite_document_well_formed (ov nv : text) (d : document) :
  plain_value nv = true ->
  well_formed name d = true ->
  well_formed name (rewrite_document name ov nv d) = true.
Proof.
  intros Hnv Hd. unfold well_formed in *. apply andb_true_iff in Hd as [Hp Ht].
  apply andb_true_iff. split; [|exact Ht]. simpl.
  rewrite forallb_forall in Hp. apply forallb_forall. intros pc Hin.
  apply in_map_iff in Hin as (pc0 & <- & Hin0). specialize (Hp pc0 Hin0).
  unfold rewrite_piece. destruct (ci_equal ov (pc_value pc0)); [|exact Hp].
  unfold well_formed_piece in *. simpl.
  apply andb_true_iff in Hp as [Hp _]. apply andb_true_iff in Hp as [Hb _].
  now rewrite Hb, ci_equal_refl, Hnv.
Qed.

End DocumentRewriting.

(** ** The pattern of an entry *)

Lemma split_once_inv (sep s a b : text) :
  split_once sep s = Some (a, b) -> s = a ++ sep ++ b.
Proof.
  revert a b. induction s as [|c s IH]; intros a b H; simpl in H.
  - destruct (startswith sep []) eqn:E; [|discriminate].
    injection H as <- <-. apply startswith_spec in E as [r E].
    destruct sep; [reflexivity|discriminate].
  - destruct (startswith sep (c :: s)) eqn:E.
    + injection H as <- <-. apply startswith_spec in E as [r E].
      rewrite E at 2. now rewrite skipn_app, skipn_all, Nat.sub_diag.
    + destruct (split_once sep s) as [[a0 b0]|]; [|discriminate].
      injection H as <- <-. simpl. f_equal. now apply IH.
Qed.

Lemma split_once_here (sep s : text) :
  startswith sep s = true -> split_once sep s = Some ([], skipn (length sep) s).
Proof. intros H. destruct s; simpl; now rewrite H. Qed.

(** [split_once] stops at the first occurrence of the separator. *)
Lemma split_once_first (sep x y : text) :
  exists a b, split_once sep (x ++ sep ++ y) = Some (a, b) /\ length a <= length x.
Proof.
  induction x as [|c x IH].
  - exists [], y. simpl app. split; [|simpl; lia].
    rewrite split_once_here by apply startswith_app.
    now rewrite skipn_app, skipn_all, Nat.sub_diag.
  - destruct IH as (a & b & E & Hl). simpl app. simpl split_once.
    destruct (startswith sep (c :: x ++ sep ++ y)).
    + eexists _, _. split; [reflexivity|simpl; lia].
    + rewrite E. exists (c :: a), b. split; [reflexivity|simpl; lia].
Qed.

Lemma entry_pattern_attr_val (a v : text) :
  entry_pattern (attr_val a v) = Some (attr_val a v).
Proof.
  unfold entry_pattern.
  destruct (split_once_first (str "=" ++ [dq]) a (v ++ [dq])) as (a' & b & E & Hl).
  change (a ++ (str "=" ++ [dq]) ++ v ++ [dq]) with (attr_val a v) in E.
  rewrite E. f_equal.
  pose proof (split_once_inv _ _ _ _ E) as Hs.
  assert (Hb : b <> []).
  { intros ->. apply (f_equal (@length ascii)) in Hs.
    rewrite attr_val_length, !length_app in Hs. simpl in Hs. lia. }
  destruct (exists_last Hb) as (b' & z & ->).
  rewrite removelast_last.
  assert (Hz : z = dq).
  { unfold attr_val in Hs.
    replace (a ++ str "=" ++ [dq] ++ v ++ [dq])
      with ((a ++ str "=" ++ [dq] ++ v) ++ [dq]) in Hs
      by now rewrite <- !app_assoc.
    replace (a' ++ (str "=" ++ [dq]) ++ b' ++ [z])
      with ((a' ++ (str "=" ++ [dq]) ++ b') ++ [z]) in Hs
      by now rewrite <- !app_assoc.
    apply app_inj_tail in Hs as [_ Hs]. now symmetry. }
  subst z. rewrite Hs. now rewrite <- !app_assoc.
Qed.

(** One step of the loop on an entry of the analysis. *)
Lemma replacement_step_attr_val (a v new content : text) (k : nat) :
  has_backslash new = false ->
  replacement_step (Some (content, k)) (attr_val a v, new)
  = Some (fst (subst_all ci_eqb (attr_val a v) new content),
          k + snd (subst_all ci_eqb (attr_val a v) new content)).
Proof.
  intros Hnew. unfold replacement_step. simpl fst. simpl snd.
  rewrite entry_pattern_attr_val. unfold re_subn_ignorecase. rewrite Hnew.
  pose proof (subst_count_zero ci_eqb (attr_val a v) new content
                (attr_val_nonempty a v)) as Hz.
  destruct (subst_all ci_eqb (attr_val a v) new content) as [out n].
  simpl in *. destruct n as [|n]; simpl.
  - now rewrite Hz, Nat.add_0_r.
  - reflexivity.
Qed.

(** The loop on a mapping of one entry. *)
Lemma targeted_single_entry (name ov nv : text) (d : document) :
  free_of dq name = true ->
  plain_value ov = true ->
  has_backslash (attr_val name nv) = false ->
  well_formed name d = true ->
  targeted_replacements (render d) [(attr_val name ov, attr_val name nv)]
  = Some (render (rewrite_document name ov nv d), matching_pieces ov d).
Proof.
  intros Hname Hov Hnv Hd. unfold targeted_replacements, sorted_replacements.
  cbn [fold_right insert_desc fold_left].
  rewrite replacement_step_attr_val by assumption.
  now rewrite (subst_document name Hname ov nv d Hov Hd).
Qed.

(** C1 as stated fails: the value of an occurrence is compared up to letter
    case too.  The occurrence [file_name="../../LIB/Main.C"] differs from the
    scheduled [file_name="../../lib/main.c"] in the case of its value only,
    and is rewritten. *)
Lemma value_matched_up_to_case :
  let scheduled := attr_val (str "file_name") (str "../../lib/main.c") in
  let new := attr_val (str "file_name") (str "sdk_files/lib/main.c") in
  let occurrence := attr_val (str "file_name") (str "../../LIB/Main.C") in
  str "../../LIB/Main.C" <> str "../../lib/main.c"
  /\ targeted_replacements (str "<file " ++ occurrence ++ str " />") [(scheduled, new)]
     = Some (str "<file " ++ new ++ str " />", 1).
Proof. split; [discriminate|reflexivity]. Qed.

(** C1 (amended): an entry is matched up to letter case as a whole, name and
    value alike.  In a descriptor read along the occurrences of the
    attribute, the loop rewrites exactly the occurrences whose value equals
    the scheduled original value up to letter case (the same letters in a
    different case included), and counts them. *)
Theorem entry_matched_up_to_case (name ov nv : text) (d : document) :
  free_of dq name = true ->
  plain_value ov = true ->
  has_backslash (attr_val name nv) = false ->
  well_formed name d = true ->
  targeted_replacements (render d) [(attr_val name ov, attr_val name nv)]
  = Some (render (rewrite_document name ov nv d), matching_pieces ov d).
Proof.
  intros Hname Hov Hnv Hd. unfold targeted_replacements, sorted_replacements.
  cbn [fold_right insert_desc fold_left].
  rewrite replacement_step_attr_val by assumption.
  rewrite (subst_document name Hname ov nv d Hov Hd). reflexivity.
Qed.

Lemma entry_matched_up_to_case_witness :
  targeted_replacements
    (render (mk_document
               [mk_piece (str "<file ") (str "File_Name") (str "../../LIB/Main.C");
                mk_piece (str " /><file ") (str "file_name") (str "../../lib/main.cpp")]
               (str " />")))
    [(attr_val (str "file_name") (str "../../lib/main.c"),
      attr_val (str "file_name") (str "sdk_files/lib/main.c"))]
  = Some (render (mk_document
                    [mk_piece (str "<file ") (str "file_name") (str "sdk_files/lib/main.c");
                     mk_piece (str " /><file ") (str "file_name") (str "../../lib/main.cpp")]
                    (str " />")), 1).
Proof.
  apply (entry_matched_up_to_case (str "file_name") (str "../../lib/main.c")
           (str "sdk_files/lib/main.c")
           (mk_document
              [mk_piece (str "<file ") (str "File_Name") (str "../../LIB/Main.C");
               mk_piece (str " /><file ") (str "file_name") (str "../../lib/main.cpp")]
              (str " />"))); reflexivity.
Defined.

(** ** Two entries, one value inside the other *)

Lemma insert_desc_Forall (P : entry -> Prop) (e : entry) (l : list entry) :
  P e -> Forall P l -> Forall P (insert_desc e l).
Proof.
  intros He Hl.
  apply (Permutation_Forall (Permutation_sym (insert_desc_perm e l))).
  now constructor.
Qed.

Lemma insert_desc_sorted (e : entry) (l : list entry) :
  StronglySorted longer_first l -> StronglySorted longer_first (insert_desc e l).
Proof.
  induction 1 as [|x l Hl IH Hx]; simpl.
  - repeat constructor.
  - destruct (length (fst x) <=? length (fst e)) eqn:E.
    + apply Nat.leb_le in E. constructor; [now constructor|].
      constructor; [exact E|].
      eapply Forall_impl; [|exact Hx]. unfold longer_first. intros z Hz. lia.
    + apply Nat.leb_gt in E. constructor; [exact IH|].
      apply insert_desc_Forall; [unfold longer_first; lia|exact Hx].
Qed.

Lemma sorted_replacements_sorted (d : dict) :
  StronglySorted longer_first (sorted_replacements d).
Proof.
  induction d as [|e d IH]; simpl; [constructor|]. now apply insert_desc_sorted.
Qed.


Lemma rewrite_twice (name x x' y y' : text) (pc : piece) :
  ci_equal x y' = false ->
  rewrite_piece name x x' (rewrite_piece name y y' pc)
  = rewrite_piece2 name x x' y y' pc.
Proof.
  intros Hchain. unfold rewrite_piece, rewrite_piece2.
  destruct (ci_equal y (pc_value pc)); simpl; [now rewrite Hchain|reflexivity].
Qed.

Lemma matching_after_longer (name x y y' : text) (d : document) :
  length x < length y ->
  ci_equal x y' = false ->
  matching_pieces x (rewrite_document name y y' d) = matching_pieces x d.
Proof.
  intros Hlen Hchain. unfold matching_pieces, rewrite_document. simpl.
  induction (doc_pieces d) as [|pc pcs IH]; [reflexivity|].
  simpl. unfold rewrite_piece at 1.
  destruct (ci_equal y (pc_value pc)) eqn:Ey; simpl.
  - rewrite Hchain.
    destruct (ci_equal x (pc_value pc)) eqn:Ex; [|exact IH].
    apply ci_equal_length in Ey, Ex. lia.
  - destruct (ci_equal x (pc_value pc)); simpl; now rewrite IH.
Qed.







Section AppliedEntries.
Variable name : text.
Hypothesis name_plain : free_of dq name = true.




End AppliedEntries.




(** The values the analysis schedules do not chain: an original value starts
    with [../], a new value does not. *)
Lemma lower_dot (c : ascii) : lower c = "."%char -> c = "."%char.
Proof.
  destruct c as [b0 b1 b2 b3 b4 b5 b6 b7].
  destruct b0, b1, b2, b3, b4, b5, b6, b7; vm_compute; congruence.
Qed.

Lemma lower_slash (c : ascii) : lower c = "/"%char -> c = "/"%char.
Proof.
  destruct c as [b0 b1 b2 b3 b4 b5 b6 b7].
  destruct b0, b1, b2, b3, b4, b5, b6, b7; vm_compute; congruence.
Qed.

Lemma scheduled_values_do_not_chain (x y' : text) :
  startswith (str "../") x = true ->
  startswith (str "../") y' = false ->
  ci_equal x y' = false.
Proof.
  intros Hx Hy. apply not_true_is_false. intros H.
  unfold ci_equal in H. apply andb_true_iff in H as [_ H].
  apply startswith_spec in Hx as [r ->].
  destruct y' as [|a [|b [|c y']]]; simpl in H;
    rewrite ?andb_false_r in H; try discriminate.
  apply andb_true_iff in H as [Ha H].
  apply andb_true_iff in H as [Hb H].
  apply andb_true_iff in H as [Hc _].
  unfold ci_eqb in Ha, Hb, Hc.
  apply Ascii.eqb_eq in Ha, Hb, Hc.
  symmetry in Ha, Hb, Hc.
  apply lower_dot in Ha, Hb. apply lower_slash in Hc.
  subst. discriminate.
Qed.

(** ** The generic replacement around a character it cannot match *)

Lemma startswith_over (old A B : text) (c : ascii) :
  startswith old (A ++ c :: B) = true -> length A < length old -> In c old.
Proof.
  intros H Hlen. apply startswith_spec in H as [r Hr].
  assert (Hn : nth (length A) (A ++ c :: B) c = nth (length A) (old ++ r) c)
    by now rewrite Hr.
  rewrite app_nth2, Nat.sub_diag in Hn by lia. simpl in Hn.
  rewrite app_nth1 in Hn by lia. rewrite Hn. apply nth_In. lia.
Qed.

Lemma startswith_within (p x y : text) :
  length p <= length x -> startswith p (x ++ y) = startswith p x.
Proof. rewrite <- !prefix_by_eqb. apply prefix_by_within. Qed.

Lemma replace_barrier (old new : text) (c : ascii) :
  old <> [] -> ~ In c old ->
  forall A B,
    replace old new (A ++ c :: B)
    = replace old new A ++ c :: replace old new B.
Proof.
  intros Hp Hc.
  assert (Hfront : forall A B, startswith old (A ++ c :: B) = startswith old A).
  { intros A B. destruct (le_lt_dec (length old) (length A)) as [Hl|Hl].
    - now apply startswith_within.
    - destruct (startswith old (A ++ c :: B)) eqn:E.
      + exfalso. apply Hc. exact (startswith_over old A B c E Hl).
      + symmetry. apply not_true_is_false. intros E'.
        rewrite <- prefix_by_eqb in E'. apply prefix_by_length in E'. lia. }
  apply (scan_ind Ascii.eqb old Hp (fun A => forall B,
    replace old new (A ++ c :: B) = replace old new A ++ c :: replace old new B)).
  - intros B. pose proof (Hfront [] B) as H0. simpl app in *.
    rewrite replace_cons, H0 by assumption.
    destruct old; [congruence|reflexivity].
  - intros a A E IH B. rewrite prefix_by_eqb in E.
    change ((a :: A) ++ c :: B) with (a :: (A ++ c :: B)).
    rewrite !replace_cons by assumption.
    change (a :: A ++ c :: B) with ((a :: A) ++ c :: B).
    rewrite Hfront, E.
    rewrite <- prefix_by_eqb in E. apply prefix_by_length in E.
    rewrite skipn_app. replace (length old - length (a :: A)) with 0 by lia.
    simpl skipn at 2. rewrite IH. now rewrite <- app_assoc.
  - intros a A E IH B. rewrite prefix_by_eqb in E.
    change ((a :: A) ++ c :: B) with (a :: (A ++ c :: B)).
    rewrite !replace_cons by assumption.
    change (a :: A ++ c :: B) with ((a :: A) ++ c :: B).
    rewrite Hfront, E. now rewrite IH.
Qed.

Lemma count_barrier (sub : text) (c : ascii) :
  sub <> [] -> ~ In c sub ->
  forall A B, count sub (A ++ c :: B) = count sub A + count sub B.
Proof.
  intros Hp Hc.
  assert (Hfront : forall A B, startswith sub (A ++ c :: B) = startswith sub A).
  { intros A B. destruct (le_lt_dec (length sub) (length A)) as [Hl|Hl].
    - now apply startswith_within.
    - destruct (startswith sub (A ++ c :: B)) eqn:E.
      + exfalso. apply Hc. exact (startswith_over sub A B c E Hl).
      + symmetry. apply not_true_is_false. intros E'.
        rewrite <- prefix_by_eqb in E'. apply prefix_by_length in E'. lia. }
  apply (scan_ind Ascii.eqb sub Hp (fun A => forall B,
    count sub (A ++ c :: B) = count sub A + count sub B)).
  - intros B. pose proof (Hfront [] B) as H0. simpl app in *.
    rewrite count_cons, H0 by assumption.
    destruct sub; [congruence|reflexivity].
  - intros a A E IH B. rewrite prefix_by_eqb in E.
    change ((a :: A) ++ c :: B) with (a :: (A ++ c :: B)).
    rewrite !count_cons by assumption.
    change (a :: A ++ c :: B) with ((a :: A) ++ c :: B).
    rewrite Hfront, E.
    rewrite <- prefix_by_eqb in E. apply prefix_by_length in E.
    rewrite skipn_app. replace (length sub - length (a :: A)) with 0 by lia.
    simpl skipn at 2. rewrite IH. reflexivity.
  - intros a A E IH B. rewrite prefix_by_eqb in E.
    change ((a :: A) ++ c :: B) with (a :: (A ++ c :: B)).
    rewrite !count_cons by assumption.
    change (a :: A ++ c :: B) with ((a :: A) ++ c :: B).
    rewrite Hfront, E. now rewrite IH.
Qed.

(** ** The include-directories attribute, end to end *)

Lemma render_single (b n v t : text) :
  render (mk_document [mk_piece b n v] t) = b ++ attr_val n v ++ t.
Proof.
  unfold render, render_piece. simpl. now rewrite app_nil_r, <- app_assoc.
Qed.

(** A block of characters that are not in [old] separates the replacement. *)
Lemma replace_barrier_block (old new h : text) :
  old <> [] -> h <> [] ->
  (forall c, In c h -> ~ In c old) ->
  forall X Y,
    replace old new (X ++ h ++ Y) = replace old new X ++ h ++ replace old new Y.
Proof.
  intros Hp Hne Hh. induction h as [|c h IH]; [congruence|]. intros X Y.
  change (X ++ (c :: h) ++ Y) with (X ++ c :: (h ++ Y)).
  rewrite replace_barrier by (assumption || (apply Hh; now left)).
  destruct h as [|c' h].
  - reflexivity.
  - change ((c' :: h) ++ Y) with ([] ++ (c' :: h) ++ Y).
    rewrite IH; [reflexivity|discriminate|].
    intros z Hz. apply Hh. now right.
Qed.

(** The generic replacement leaves an occurrence of the attribute alone when
    its value holds no six-level prefix, and works on both sides of it. *)
Lemma generic_around_includes (v b a : text) :
  count generic_sdk_prefix v = 0 ->
  replace generic_sdk_prefix new_sdk_prefix (b ++ attr_val include_dirs_attr v ++ a)
  = replace generic_sdk_prefix new_sdk_prefix b
      ++ attr_val include_dirs_attr v
      ++ replace generic_sdk_prefix new_sdk_prefix a.
Proof.
  intros Hv.
  assert (Hq : ~ In dq generic_sdk_prefix) by (vm_compute; intuition discriminate).
  rewrite attr_val_anchor, <- !app_assoc.
  rewrite replace_barrier_block;
    [|apply generic_sdk_prefix_nonempty|discriminate|].
  2:{ intros c Hin Hg. vm_compute in Hin, Hg.
      repeat (destruct Hin as [<-|Hin]; [intuition discriminate|]). exact Hin. }
  change ([dq] ++ a) with (dq :: a).
  rewrite replace_barrier by (apply generic_sdk_prefix_nonempty || assumption).
  rewrite (count_zero_replace _ _ v generic_sdk_prefix_nonempty Hv).
  reflexivity.
Qed.

(** C7 as stated fails: when [../../../sdk/inc] does not resolve to a
    directory, the SDK entry is kept as written, and the attribute reads
    [../../../sdk/inc;config;.] afterwards. *)
Lemma missing_sdk_include_kept :
  let original := str "../../../sdk/inc;../config;." in
  let kept := str "../../../sdk/inc;config;." in
  scheduled_include_update (fun _ => false) original
  = Some (attr_val include_dirs_attr original, attr_val include_dirs_attr kept)
  /\ rewrite_descriptor
       (str "<configuration " ++ attr_val include_dirs_attr original ++ str " />")
       [(attr_val include_dirs_attr original, attr_val include_dirs_attr kept)]
     = Some (WriteModified
               (str "<configuration " ++ attr_val include_dirs_attr kept ++ str " />"))
  /\ kept <> str "sdk_files/sdk/inc;config;.".
Proof. repeat split; try reflexivity. discriminate. Qed.

(** C7 (amended): when [../../../sdk/inc] resolves to an existing directory,
    the analysis of the value [../../../sdk/inc;../config;.] schedules the
    new value [sdk_files/sdk/inc;config;.] (the SDK entry relocated, the
    config entry without its [../], the [.] entry unchanged, in the same
    order), and the rewriter, given this entry, writes a descriptor in which
    the attribute carries the new value; the text on both sides of the
    attribute is touched by the generic prefix replacement only. *)
Theorem include_directories_rewritten (isdir : text -> bool) (before after : text) :
  isdir (str "../../../sdk/inc") = true ->
  matches_nowhere (anchor include_dirs_attr) before = true ->
  matches_nowhere (anchor include_dirs_attr) after = true ->
  let original := str "../../../sdk/inc;../config;." in
  let new := str "sdk_files/sdk/inc;config;." in
  scheduled_include_update isdir original
  = Some (attr_val include_dirs_attr original, attr_val include_dirs_attr new)
  /\ rewrite_descriptor
       (before ++ attr_val include_dirs_attr original ++ after)
       (dict_set [] (attr_val include_dirs_attr original)
                 (attr_val include_dirs_attr new))
     = Some (WriteModified
               (replace generic_sdk_prefix new_sdk_prefix before
                  ++ attr_val include_dirs_attr new
                  ++ replace generic_sdk_prefix new_sdk_prefix after)).
Proof.
  intros Hdir Hb Ha. cbv zeta. split.
  - unfold scheduled_include_update, include_loop.
    change (split_on ";" (str "../../../sdk/inc;../config;."))
      with [str "../../../sdk/inc"; str "../config"; str "."].
    cbn [fold_left].
    assert (E : include_step isdir include_init (str "../../../sdk/inc")
                = mk_include_state [str "sdk_files/sdk/inc"] true).
    { unfold include_step.
      change (text_eqb (str "../../../sdk/inc") (str "../../../config")) with false.
      change (is_sdk (str "../../../sdk/inc")) with true.
      cbv iota. rewrite Hdir. reflexivity. }
    rewrite E. reflexivity.
  - unfold rewrite_descriptor. cbn [dict_set].
    rewrite <- render_single.
    rewrite targeted_single_entry;
      [|reflexivity|reflexivity|reflexivity|].
    2:{ unfold well_formed, well_formed_piece. simpl doc_pieces. simpl doc_tail.
        cbn [forallb pc_before pc_name pc_value]. rewrite Hb, Ha. reflexivity. }
    unfold rewrite_document, matching_pieces, rewrite_piece.
    cbn [doc_pieces doc_tail map filter pc_value].
    change (ci_equal (str "../../../sdk/inc;../config;.")
                     (str "../../../sdk/inc;../config;.")) with true.
    cbv iota. cbn [pc_before length]. rewrite render_single.
    unfold generic_replacement.
    rewrite generic_prefix_count_after, Nat.sub_0_r.
    rewrite generic_around_includes by reflexivity.
    destruct (0 <? count generic_sdk_prefix
                     (before ++ attr_val include_dirs_attr
                                         (str "sdk_files/sdk/inc;config;.") ++ after));
      reflexivity.
Qed.

Lemma include_directories_rewritten_witness :
  rewrite_descriptor
    (str "<configuration " ++ attr_val include_dirs_attr (str "../../../sdk/inc;../config;.")
         ++ str " />")
    (dict_set [] (attr_val include_dirs_attr (str "../../../sdk/inc;../config;."))
              (attr_val include_dirs_attr (str "sdk_files/sdk/inc;config;.")))
  = Some (WriteModified
            (replace generic_sdk_prefix new_sdk_prefix (str "<configuration ")
               ++ attr_val include_dirs_attr (str "sdk_files/sdk/inc;config;.")
               ++ replace generic_sdk_prefix new_sdk_prefix (str " />"))).
Proof.
  apply (include_directories_rewritten (fun _ => true)
           (str "<configuration ") (str " />")); reflexivity.
Defined.

(** ** Whole lines *)

Lemma ends_nl_cons_inv (c : ascii) (s : text) :
  ends_nl (c :: s) -> (s = [] /\ c = nl) \/ ends_nl s.
Proof.
  intros [s' H]. destruct s' as [|a s'].
  - left. simpl in H. injection H as -> ->. now split.
  - right. simpl in H. injection H as -> ->. now exists s'.
Qed.

Lemma ends_nl_cons (c : ascii) (s : text) : ends_nl s -> ends_nl (c :: s).
Proof. intros [s' ->]. now exists (c :: s'). Qed.

Lemma ends_nl_app (a s : text) : ends_nl s -> ends_nl (a ++ s).
Proof. intros [s' ->]. exists (a ++ s'). now rewrite app_assoc. Qed.

Lemma ends_nl_nonempty (s : text) : ends_nl s -> s <> [].
Proof. intros [s' ->]. now destruct s'. Qed.

Lemma whole_lines_tail (c : ascii) (s : text) :
  whole_lines (c :: s) -> whole_lines s.
Proof.
  intros [H|H]; [discriminate|].
  destruct (ends_nl_cons_inv c s H) as [[-> _]|H']; [now left|now right].
Qed.

Lemma whole_lines_skipn (k : nat) (s : text) :
  whole_lines s -> whole_lines (skipn k s).
Proof.
  revert s. induction k as [|k IH]; intros s H; [exact H|].
  destruct s as [|c s]; [now left|]. simpl. apply IH.
  now apply whole_lines_tail with c.
Qed.

Lemma whole_lines_app (a s : text) :
  whole_lines a -> whole_lines s -> whole_lines (a ++ s).
Proof.
  intros Ha [->|Hs]; [now rewrite app_nil_r|]. right. now apply ends_nl_app.
Qed.

Lemma ends_nl_last (s : text) : ends_nl s -> nth (length s - 1) s nl = nl.
Proof.
  intros [s' ->]. rewrite length_app. simpl.
  rewrite app_nth2 by lia.
  now replace (length s' + 1 - 1 - length s') with 0 by lia.
Qed.

Lemma nth_in_removelast (i : nat) (l : text) (d : ascii) :
  i + 1 < length l -> In (nth i l d) (removelast l).
Proof.
  intros H. assert (Hne : l <> []) by (intros ->; simpl in H; lia).
  destruct (exists_last Hne) as (l' & z & ->).
  rewrite removelast_last. rewrite length_app in H. simpl in H.
  rewrite app_nth1 by lia. apply nth_In. lia.
Qed.

(** A pattern whose only line end, if any, is its last character cannot
    start in whole lines and extend beyond them. *)
Lemma startswith_whole_lines (old X Y : text) :
  ~ In nl (removelast old) ->
  ends_nl X ->
  startswith old (X ++ Y) = startswith old X.
Proof.
  intros Hold HX. destruct (le_lt_dec (length old) (length X)) as [Hl|Hl].
  - now apply startswith_within.
  - destruct (startswith old (X ++ Y)) eqn:E.
    + exfalso. apply Hold.
      apply startswith_spec in E as [r Hr].
      pose proof (ends_nl_nonempty X HX) as Hne.
      assert (HlenX : 0 < length X) by (destruct X; [congruence|simpl; lia]).
      assert (Hn : nth (length X - 1) (X ++ Y) nl = nth (length X - 1) (old ++ r) nl)
        by now rewrite Hr.
      rewrite app_nth1 in Hn by lia. rewrite (ends_nl_last X HX) in Hn.
      rewrite app_nth1 in Hn by lia. rewrite Hn.
      apply nth_in_removelast. lia.
    + symmetry. apply not_true_is_false. intros E'.
      rewrite <- prefix_by_eqb in E'. apply prefix_by_length in E'. lia.
Qed.

Lemma whole_lines_ends (s : text) : whole_lines s -> s <> [] -> ends_nl s.
Proof. intros [->|H] Hne; [congruence|exact H]. Qed.

Lemma replace_lines (old new : text) :
  old <> [] ->
  ~ In nl (removelast old) ->
  (In nl old -> ends_nl new) ->
  forall X,
    (whole_lines X ->
     forall Y, replace old new (X ++ Y) = replace old new X ++ replace old new Y)
    /\ (ends_nl X -> ends_nl (replace old new X)).
Proof.
  intros Hp Hold Hnew.
  apply (scan_ind Ascii.eqb old Hp (fun X =>
    (whole_lines X ->
     forall Y, replace old new (X ++ Y) = replace old new X ++ replace old new Y)
    /\ (ends_nl X -> ends_nl (replace old new X)))).
  - split; [reflexivity|]. intros H. now apply ends_nl_nonempty in H.
  - intros c X E [IHadd IHend]. rewrite prefix_by_eqb in E.
    assert (Hlen : length old <= length (c :: X)).
    { rewrite <- prefix_by_eqb in E. now apply prefix_by_length in E. }
    split.
    + intros HX Y.
      assert (HXe : ends_nl (c :: X)) by (apply whole_lines_ends; [exact HX|discriminate]).
      change ((c :: X) ++ Y) with (c :: (X ++ Y)).
      rewrite !replace_cons by assumption.
      change (c :: X ++ Y) with ((c :: X) ++ Y).
      rewrite startswith_whole_lines, E by assumption.
      rewrite skipn_app. replace (length old - length (c :: X)) with 0 by lia.
      simpl skipn at 2.
      rewrite IHadd by now apply whole_lines_skipn.
      now rewrite app_assoc.
    + intros HXe. rewrite replace_cons, E by assumption.
      destruct (skipn (length old) (c :: X)) as [|z Z] eqn:Hs.
      * rewrite app_nil_r. apply Hnew.
        apply startswith_spec in E as [r Hr].
        rewrite Hr, skipn_app, skipn_all, Nat.sub_diag in Hs. simpl in Hs. subst r.
        rewrite app_nil_r in Hr. destruct HXe as [X' HX'].
        rewrite <- Hr, HX'. apply in_or_app. right. now left.
      * apply ends_nl_app. apply IHend.
        apply whole_lines_ends; [|discriminate].
        rewrite <- Hs. apply whole_lines_skipn. now right.
  - intros c X E [IHadd IHend]. rewrite prefix_by_eqb in E. split.
    + intros HX Y.
      assert (HXe : ends_nl (c :: X)) by (apply whole_lines_ends; [exact HX|discriminate]).
      change ((c :: X) ++ Y) with (c :: (X ++ Y)).
      rewrite !replace_cons by assumption.
      change (c :: X ++ Y) with ((c :: X) ++ Y).
      rewrite startswith_whole_lines, E by assumption.
      rewrite IHadd by now apply whole_lines_tail with c. reflexivity.
    + intros HXe. rewrite replace_cons, E by assumption.
      destruct (ends_nl_cons_inv c X HXe) as [[-> ->]|HX'].
      * now exists [].
      * apply ends_nl_cons. now apply IHend.
Qed.

Lemma replace_linewise (old new : text) :
  old <> [] ->
  ~ In nl (removelast old) ->
  (In nl old -> ends_nl new) ->
  linewise (replace old new).
Proof.
  intros Hp Hold Hnew X HX.
  destruct (replace_lines old new Hp Hold Hnew X) as [Hadd Hend].
  split; [now apply Hadd|].
  destruct HX as [->|HX]; [now left|right; now apply Hend].
Qed.

Lemma linewise_compose (f g : text -> text) :
  linewise f -> linewise g -> linewise (fun s => g (f s)).
Proof.
  intros Hf Hg X HX. destruct (Hf X HX) as [Hfa Hfw].
  destruct (Hg (f X) Hfw) as [Hga Hgw]. split; [|exact Hgw].
  intros Y. now rewrite Hfa, Hga.
Qed.

(** ** The substitution of the files under [../config/] *)

Lemma span_nonspace_app (s : text) :
  fst (span_nonspace s) ++ snd (span_nonspace s) = s.
Proof.
  induction s as [|c s IH]; [reflexivity|]. simpl.
  destruct (isspace c); [reflexivity|].
  destruct (span_nonspace s) as [run rest]. simpl in *. now rewrite IH.
Qed.

Lemma span_nonspace_rest_length (s : text) :
  length (snd (span_nonspace s)) <= length s.
Proof.
  rewrite <- (span_nonspace_app s) at 2. rewrite length_app. lia.
Qed.

(** In whole lines the run stops before the end. *)
Lemma span_nonspace_whole_lines (W : text) :
  ends_nl W ->
  ends_nl (snd (span_nonspace W))
  /\ forall Y, span_nonspace (W ++ Y)
               = (fst (span_nonspace W), snd (span_nonspace W) ++ Y).
Proof.
  induction W as [|c W IH]; intros HW.
  - now apply ends_nl_nonempty in HW.
  - simpl. destruct (isspace c) eqn:Ec.
    + split; [exact HW|reflexivity].
    + destruct (ends_nl_cons_inv c W HW) as [[-> ->]|HW']; [discriminate|].
      destruct (IH HW') as [He Happ]. split.
      * now destruct (span_nonspace W).
      * intros Y. rewrite Happ. now destruct (span_nonspace W).
Qed.

Lemma sub_config_file_S (fuel : nat) (c : ascii) (s : text) :
  sub_config_file (S fuel) (c :: s) =
  if startswith config_file_prefix (c :: s) then
    match fst (span_nonspace (skipn (length config_file_prefix) (c :: s))) with
    | [] => c :: sub_config_file fuel s
    | run =>
        str "$(PROJ_DIR)/config/" ++ run
          ++ sub_config_file fuel
               (snd (span_nonspace (skipn (length config_file_prefix) (c :: s))))
    end
  else c :: sub_config_file fuel s.
Proof.
  cbn [sub_config_file].
  destruct (startswith config_file_prefix (c :: s)); [|reflexivity].
  destruct (span_nonspace (skipn (length config_file_prefix) (c :: s))) as [run rest].
  now destruct run.
Qed.

Lemma config_rest_shorter (c : ascii) (s : text) :
  length (snd (span_nonspace (skipn (length config_file_prefix) (c :: s)))) <= length s.
Proof.
  pose proof (span_nonspace_rest_length (skipn (length config_file_prefix) (c :: s))) as H.
  pose proof (length_skipn (length config_file_prefix) (c :: s)) as Hs.
  change (length config_file_prefix) with 10 in *.
  cbn [length] in Hs. unfold text in *. lia.
Qed.

Lemma sub_config_file_fuel (f1 f2 : nat) (s : text) :
  length s <= f1 -> length s <= f2 ->
  sub_config_file f1 s = sub_config_file f2 s.
Proof.
  revert f2 s. induction f1 as [|f1 IH]; intros f2 s H1 H2.
  - destruct s; [|simpl in H1; lia]. now destruct f2.
  - destruct f2 as [|f2]; [destruct s; [reflexivity|simpl in H2; lia]|].
    destruct s as [|c s]; [reflexivity|].
    rewrite !sub_config_file_S. simpl in H1, H2.
    pose proof (config_rest_shorter c s) as Hk.
    rewrite (IH f2 s) by lia.
    rewrite (IH f2 (snd (span_nonspace (skipn (length config_file_prefix) (c :: s)))))
      by lia.
    reflexivity.
Qed.

Lemma sub_config_all_cons (c : ascii) (s : text) :
  sub_config_all (c :: s) =
  if startswith config_file_prefix (c :: s) then
    match fst (span_nonspace (skipn (length config_file_prefix) (c :: s))) with
    | [] => c :: sub_config_all s
    | run =>
        str "$(PROJ_DIR)/config/" ++ run
          ++ sub_config_all
               (snd (span_nonspace (skipn (length config_file_prefix) (c :: s))))
    end
  else c :: sub_config_all s.
Proof.
  unfold sub_config_all. simpl length. rewrite sub_config_file_S.
  pose proof (config_rest_shorter c s) as Hk.
  now rewrite (sub_config_file_fuel (length s)
                 (length (snd (span_nonspace (skipn (length config_file_prefix) (c :: s)))))
                 (snd (span_nonspace (skipn (length config_file_prefix) (c :: s)))))
    by lia.
Qed.

Lemma sub_config_lines (n : nat) :
  forall X, length X <= n ->
    (whole_lines X ->
     forall Y, sub_config_all (X ++ Y) = sub_config_all X ++ sub_config_all Y)
    /\ (ends_nl X -> ends_nl (sub_config_all X)).
Proof.
  induction n as [|n IH]; intros X Hn.
  - destruct X; [|simpl in Hn; lia]. split; [reflexivity|].
    intros H. now apply ends_nl_nonempty in H.
  - destruct X as [|c X].
    { split; [reflexivity|]. intros H. now apply ends_nl_nonempty in H. }
    simpl in Hn.
    assert (Hfree : ~ In nl (removelast config_file_prefix))
      by (vm_compute; intuition discriminate).
    destruct (IH X ltac:(lia)) as [IHadd IHend].
    pose proof (config_rest_shorter c X) as Hk.
    set (W := skipn (length config_file_prefix) (c :: X)) in *.
    destruct (IH (snd (span_nonspace W)) ltac:(lia)) as [IHradd IHrend].
    assert (HW : ends_nl (c :: X) -> startswith config_file_prefix (c :: X) = true ->
                 ends_nl W).
    { intros HXe E. apply whole_lines_ends.
      - apply whole_lines_skipn. now right.
      - intros HW0. apply startswith_spec in E as [r Hr].
        unfold W in HW0. rewrite Hr, skipn_app, skipn_all, Nat.sub_diag in HW0.
        simpl in HW0. subst r. rewrite app_nil_r in Hr.
        pose proof (ends_nl_last _ HXe) as Hlast. rewrite Hr in Hlast.
        vm_compute in Hlast. discriminate. }
    split.
    + intros HX Y.
      assert (HXe : ends_nl (c :: X)) by (apply whole_lines_ends; [exact HX|discriminate]).
      change ((c :: X) ++ Y) with (c :: (X ++ Y)).
      rewrite !sub_config_all_cons.
      change (c :: X ++ Y) with ((c :: X) ++ Y).
      rewrite startswith_whole_lines by assumption.
      destruct (startswith config_file_prefix (c :: X)) eqn:E.
      * assert (Hlen : length config_file_prefix <= length (c :: X)).
        { rewrite <- prefix_by_eqb in E. now apply prefix_by_length in E. }
        rewrite skipn_app.
        replace (length config_file_prefix - length (c :: X)) with 0 by lia.
        change (skipn 0 Y) with Y. fold W.
        destruct (span_nonspace_whole_lines W (HW HXe eq_refl)) as [Hre Hspan].
        rewrite Hspan. cbn [fst snd].
        destruct (fst (span_nonspace W)) as [|a run].
        -- rewrite IHadd by now apply whole_lines_tail with c. reflexivity.
        -- rewrite IHradd by now right. now rewrite <- !app_assoc.
      * rewrite IHadd by now apply whole_lines_tail with c. reflexivity.
    + intros HXe. rewrite sub_config_all_cons.
      assert (Htail : ends_nl (c :: sub_config_all X)).
      { destruct (ends_nl_cons_inv c X HXe) as [[-> ->]|HX'].
        - now exists [].
        - apply ends_nl_cons. now apply IHend. }
      destruct (startswith config_file_prefix (c :: X)) eqn:E; [|exact Htail].
      fold W. destruct (span_nonspace_whole_lines W (HW HXe eq_refl)) as [Hre _].
      destruct (fst (span_nonspace W)) as [|a run]; [exact Htail|].
      apply ends_nl_app. apply ends_nl_app. now apply IHrend.
Qed.

Lemma sub_config_linewise : linewise sub_config_all.
Proof.
  intros X HX.
  destruct (sub_config_lines (length X) X (le_n _)) as [Hadd Hend].
  split; [now apply Hadd|].
  destruct HX as [->|HX]; [now left|right; now apply Hend].
Qed.

Lemma config_substitutions_linewise : linewise config_substitutions.
Proof.
  unfold config_substitutions.
  apply (linewise_compose
           (fun s => replace (str "../config \" ++ [nl]) (str "$(PROJ_DIR)/config \" ++ [nl])
                             (sub_config_all
                                (replace (str "-I../config") (str "-I$(PROJ_DIR)/config") s)))
           (replace (str "$(PROJ_DIR)/main.c ") (str "$(SDK_ROOT)/main.c "))).
  - apply (linewise_compose
             (fun s => sub_config_all
                         (replace (str "-I../config") (str "-I$(PROJ_DIR)/config") s))
             (replace (str "../config \" ++ [nl]) (str "$(PROJ_DIR)/config \" ++ [nl]))).
    + apply (linewise_compose
               (replace (str "-I../config") (str "-I$(PROJ_DIR)/config"))
               sub_config_all).
      * apply replace_linewise; [discriminate| |];
          vm_compute; intuition discriminate.
      * apply sub_config_linewise.
    + apply replace_linewise; [discriminate|vm_compute; intuition discriminate|].
      intros _. now exists (str "$(PROJ_DIR)/config \").
  - apply replace_linewise; [discriminate| |]; vm_compute; intuition discriminate.
Qed.

(** ** Lines of a text *)

Lemma readlines_nonempty (s : text) : s <> [] -> readlines s <> [].
Proof.
  destruct s as [|c s]; [congruence|]. intros _. simpl.
  destruct (Ascii.eqb c nl); [discriminate|].
  destruct (readlines s); discriminate.
Qed.

Lemma readlines_app (X Y : text) :
  whole_lines X -> readlines (X ++ Y) = readlines X ++ readlines Y.
Proof.
  induction X as [|c X IH]; intros HX; [reflexivity|].
  pose proof (whole_lines_tail c X HX) as HX0.
  simpl. rewrite (IH HX0).
  destruct (Ascii.eqb c nl) eqn:Ec; [reflexivity|].
  assert (HXe : ends_nl (c :: X)) by (apply whole_lines_ends; [exact HX|discriminate]).
  destruct (ends_nl_cons_inv c X HXe) as [[_ ->]|HX'].
  - now rewrite Ascii.eqb_refl in Ec.
  - pose proof (readlines_nonempty X (ends_nl_nonempty X HX')) as Hne.
    destruct (readlines X); [congruence|reflexivity].
Qed.

(** Every line but the last ends with a line end. *)
Lemma readlines_complete (s : text) : Forall ends_nl (removelast (readlines s)).
Proof.
  induction s as [|c s IH]; [constructor|]. simpl readlines.
  destruct (Ascii.eqb c nl) eqn:Ec.
  - apply Ascii.eqb_eq in Ec. subst c.
    destruct (readlines s) as [|l ls] eqn:E; [constructor|].
    change (removelast ([nl] :: l :: ls)) with ([nl] :: removelast (l :: ls)).
    constructor; [now exists []|exact IH].
  - destruct (readlines s) as [|l ls] eqn:E; [constructor|].
    destruct ls as [|l2 ls]; [constructor|].
    change (removelast ((c :: l) :: l2 :: ls)) with ((c :: l) :: removelast (l2 :: ls)).
    change (removelast (l :: l2 :: ls)) with (l :: removelast (l2 :: ls)) in IH.
    inversion IH as [|? ? Hl Hrest]; subst.
    constructor; [now apply ends_nl_cons|exact Hrest].
Qed.

Lemma readlines_before_complete (s : text) (before after : list text) (line : text) :
  readlines s = before ++ line :: after -> Forall ends_nl before.
Proof.
  intros H. pose proof (readlines_complete s) as Hc. rewrite H in Hc.
  rewrite removelast_app in Hc by discriminate.
  now apply Forall_app in Hc as [Hc _].
Qed.

Lemma carried_whole_lines (l : list text) :
  Forall ends_nl l -> whole_lines (concat (flat_map carried l)).
Proof.
  induction 1 as [|line l Hline Hl IH]; [now left|].
  change (flat_map carried (line :: l)) with (carried line ++ flat_map carried l).
  rewrite concat_app. apply whole_lines_app; [|exact IH].
  unfold carried. destruct (text_eqb (strip line) target_cflags_line).
  - right. simpl. apply ends_nl_app.
    now exists (str "CFLAGS += -Wall -Werror" ++ [nl] ++ str "CFLAGS += -Wno-array-bounds").
  - right. simpl. now rewrite app_nil_r.
Qed.

Lemma first_match (f : text -> bool) (l : list text) :
  existsb f l = true ->
  exists before x after,
    l = before ++ x :: after
    /\ Forall (fun y => f y = false) before
    /\ f x = true.
Proof.
  induction l as [|a l IH]; intros H; [discriminate|]. simpl in H.
  destruct (f a) eqn:Ea.
  - exists [], a, l. repeat split; [constructor|exact Ea].
  - destruct (IH H) as (before & x & after & -> & Hb & Hx).
    exists (a :: before), x, after. repeat split; [now constructor|exact Hx].
Qed.

Lemma proj_dir_cleanup_spec (lines : list text) (l : text) :
  In l (proj_dir_cleanup lines) <-> In l lines /\ defines_legacy_proj_dir l = false.
Proof.
  unfold proj_dir_cleanup. rewrite filter_In, negb_true_iff. reflexivity.
Qed.

(** The substitutions and the second pass around the two new lines. *)
Lemma new_lines_survive (A B : text) :
  whole_lines A ->
  proj_dir_cleanup
    (readlines (config_substitutions
                  (A ++ new_proj_dir_line ++ new_sdk_root_definition ++ B)))
  = proj_dir_cleanup (readlines (config_substitutions A))
      ++ [new_proj_dir_line; new_sdk_root_definition]
      ++ proj_dir_cleanup (readlines (config_substitutions B)).
Proof.
  intros HA.
  assert (HP : whole_lines new_proj_dir_line) by (right; now exists (str "PROJ_DIR := ./")).
  assert (HS : whole_lines new_sdk_root_definition)
    by (right; now exists (str "SDK_ROOT := $(PROJ_DIR)/sdk_files")).
  destruct (config_substitutions_linewise A HA) as [HaddA HwA].
  destruct (config_substitutions_linewise _ HP) as [HaddP _].
  destruct (config_substitutions_linewise _ HS) as [HaddS _].
  rewrite HaddA, HaddP, HaddS.
  change (config_substitutions new_proj_dir_line) with new_proj_dir_line.
  change (config_substitutions new_sdk_root_definition) with new_sdk_root_definition.
  rewrite (readlines_app _ _ HwA), (readlines_app _ _ HP), (readlines_app _ _ HS).
  change (readlines new_proj_dir_line) with [new_proj_dir_line].
  change (readlines new_sdk_root_definition) with [new_sdk_root_definition].
  unfold proj_dir_cleanup. rewrite !filter_app. reflexivity.
Qed.

(** C6: in a Makefile with a line that matches the legacy SDK root pattern,
    the first pass puts [PROJ_DIR := ./] and [SDK_ROOT := $(PROJ_DIR)/sdk_files]
    in the place of (the first) such line; both lines come through the
    substitutions on the joined text and through the second pass, so the
    lines written at the end hold them, one after the other, at that place;
    and the second pass keeps exactly the lines whose stripped text does not
    start with [PROJ_DIR := ../../..]: none of the lines written starts so. *)
Theorem legacy_sdk_root_line_rewritten (makefile_content : text) :
  existsb matches_sdk_root (readlines makefile_content) = true ->
  exists before line after,
    readlines makefile_content = before ++ line :: after
    /\ Forall (fun l => matches_sdk_root l = false) before
    /\ matches_sdk_root line = true
    /\ sdk_root_pass (readlines makefile_content)
       = flat_map carried before
           ++ [new_proj_dir_line; new_sdk_root_definition]
           ++ flat_map carried after
    /\ cleaned_makefile_lines makefile_content
       = proj_dir_cleanup
           (readlines (config_substitutions (concat (flat_map carried before))))
           ++ [new_proj_dir_line; new_sdk_root_definition]
           ++ proj_dir_cleanup
                (readlines (config_substitutions (concat (flat_map carried after))))
    /\ (forall l, In l (cleaned_makefile_lines makefile_content) ->
                  defines_legacy_proj_dir l = false)
    /\ (forall lines l,
           In l (proj_dir_cleanup lines)
           <-> In l lines /\ defines_legacy_proj_dir l = false).
Proof.
  intros H.
  destruct (first_match matches_sdk_root _ H) as (before & line & after & E & Hb & Hl).
  exists before, line, after.
  pose proof (sdk_root_pass_first_match before after line Hb Hl) as Hpass.
  rewrite <- E in Hpass.
  split; [exact E|]. split; [exact Hb|]. split; [exact Hl|].
  split; [exact Hpass|]. split; [|split].
  - unfold cleaned_makefile_lines. rewrite Hpass, !concat_app.
    change (concat [new_proj_dir_line; new_sdk_root_definition])
      with (new_proj_dir_line ++ new_sdk_root_definition ++ []).
    rewrite <- !app_assoc. rewrite app_nil_l.
    apply new_lines_survive. apply carried_whole_lines.
    exact (readlines_before_complete _ _ _ _ E).
  - intros l Hin. unfold cleaned_makefile_lines in Hin.
    now apply proj_dir_cleanup_spec in Hin.
  - intros lines l. apply proj_dir_cleanup_spec.
Qed.

Lemma legacy_sdk_root_line_rewritten_witness :
  let makefile_content :=
    str "PROJECT_NAME := blinky" ++ [nl]
      ++ str "SDK_ROOT := ../../../../../.." ++ [nl]
      ++ str "PROJ_DIR := ../../.." ++ [nl] in
  exists before line after,
    readlines makefile_content = before ++ line :: after
    /\ Forall (fun l => matches_sdk_root l = false) before
    /\ matches_sdk_root line = true
    /\ sdk_root_pass (readlines makefile_content)
       = flat_map carried before
           ++ [new_proj_dir_line; new_sdk_root_definition]
           ++ flat_map carried after
    /\ cleaned_makefile_lines makefile_content
       = proj_dir_cleanup
           (readlines (config_substitutions (concat (flat_map carried before))))
           ++ [new_proj_dir_line; new_sdk_root_definition]
           ++ proj_dir_cleanup
                (readlines (config_substitutions (concat (flat_map carried after))))
    /\ (forall l, In l (cleaned_makefile_lines makefile_content) ->
                  defines_legacy_proj_dir l = false)
    /\ (forall lines l,
           In l (proj_dir_cleanup lines)
           <-> In l lines /\ defines_legacy_proj_dir l = false).
Proof.
  exact (legacy_sdk_root_line_rewritten
           (str "PROJECT_NAME := blinky" ++ [nl]
              ++ str "SDK_ROOT := ../../../../../.." ++ [nl]
              ++ str "PROJ_DIR := ../../.." ++ [nl])
           eq_refl).
Defined.

(** The scenario on a whole Makefile: the legacy line becomes the two new
    lines and the stray [PROJ_DIR := ../../..] line is gone. *)
Example makefile_scenario :
  rewrite_makefile
    (str "PROJECT_NAME := blinky" ++ [nl]
       ++ str "SDK_ROOT := ../../../../../.." ++ [nl]
       ++ str "  PROJ_DIR := ../../.." ++ [nl]
       ++ str "INC_FOLDERS += -I../config \" ++ [nl]
       ++ str "  ../config/sdk_config.h" ++ [nl])
  = str "PROJECT_NAME := blinky" ++ [nl]
      ++ str "PROJ_DIR := ./" ++ [nl]
      ++ str "SDK_ROOT := $(PROJ_DIR)/sdk_files" ++ [nl]
      ++ str "INC_FOLDERS += -I$(PROJ_DIR)/config \" ++ [nl]
      ++ str "  $(PROJ_DIR)/config/sdk_config.h" ++ [nl].
Proof. reflexivity. Qed.

(** ** Further properties of the mapper, the sort and the first pass *)

(** X1: whatever the reference, the new relative reference returned by
    [create_target_path] starts with [sdk_files/]. *)
Theorem new_reference_under_subdir (output_dir original_rel_path_xml : text) :
  startswith (SDK_FILES_SUBDIR ++ str "/")
             (snd (create_target_path output_dir SDK_FILES_SUBDIR original_rel_path_xml))
  = true.
Proof. apply target_rel_path_under_subdir. Qed.

(** X2: when some segment of the reference is not [..] (the fallback is not
    taken), no segment of the new relative reference is [..]. *)
Theorem new_reference_without_dotdot (output_dir original_rel_path_xml : text) :
  rel_to_sdk_root_parts original_rel_path_xml <> [] ->
  has_dotdot_segment
    (snd (create_target_path output_dir SDK_FILES_SUBDIR original_rel_path_xml)) = false.
Proof. intros H. now apply target_rel_path_no_dotdot. Qed.

Lemma new_reference_without_dotdot_witness :
  has_dotdot_segment
    (snd (create_target_path (str "out") SDK_FILES_SUBDIR
                             (str "../../../components/../libraries/util/app_error.c")))
  = false.
Proof.
  apply (new_reference_without_dotdot (str "out")
           (str "../../../components/../libraries/util/app_error.c")).
  discriminate.
Defined.

(** X3: [sorted_replacements] is a rearrangement of the mapping in which no
    entry comes before one with a longer original text. *)
Theorem sorted_replacements_descending (paths_to_replace : dict) :
  StronglySorted longer_first (sorted_replacements paths_to_replace)
  /\ Permutation (sorted_replacements paths_to_replace) paths_to_replace.
Proof.
  split; [apply sorted_replacements_sorted|apply sorted_replacements_perm].
Qed.

Lemma project_name_pos_bound (i : nat) (l : list text) :
  project_name_pos i l = 0 \/
  (i < project_name_pos i l /\ project_name_pos i l <= i + length l).
Proof.
  revert i. induction l as [|line l IH]; intros i; [now left|].
  cbn [project_name_pos length].
  destruct (startswith (str "PROJECT_NAME") line); [right; lia|].
  destruct (IH (S i)) as [H|H]; [now left|right; lia].
Qed.

(** Without a matching line the two definitions go in at the insertion
    position. *)
Lemma sdk_root_pass_insertion (makefile_lines : list text) :
  Forall (fun l => matches_sdk_root l = false) makefile_lines ->
  sdk_root_pass makefile_lines
  = firstn (project_name_pos 0 (flat_map carried makefile_lines))
           (flat_map carried makefile_lines)
      ++ [new_proj_dir_line; new_sdk_root_definition]
      ++ skipn (project_name_pos 0 (flat_map carried makefile_lines))
               (flat_map carried makefile_lines).
Proof.
  intros H. unfold sdk_root_pass.
  destruct (makefile_loop_no_match makefile_lines makefile_init H) as (E1 & E2 & E3).
  rewrite E2, E3, E1. simpl. unfold list_insert.
  set (kept := flat_map carried makefile_lines).
  set (pos := project_name_pos 0 kept).
  assert (Hpos : pos <= length kept).
  { destruct (project_name_pos_bound 0 kept) as [H0|H0]; unfold pos; lia. }
  rewrite firstn_app, firstn_firstn, length_firstn.
  replace (Nat.min (pos + 1) pos) with pos by lia.
  replace (Nat.min pos (length kept)) with pos by lia.
  replace (pos + 1 - pos) with 1 by lia.
  rewrite skipn_app, length_firstn.
  replace (Nat.min pos (length kept)) with pos by lia.
  replace (pos + 1 - pos) with 1 by lia.
  rewrite (skipn_all2 (firstn pos kept)) by (rewrite length_firstn; lia).
  simpl. rewrite <- app_assoc. reflexivity.
Qed.

Lemma project_name_pos_none (i : nat) (l : list text) :
  existsb (startswith (str "PROJECT_NAME")) l = false -> project_name_pos i l = 0.
Proof.
  revert i. induction l as [|line l IH]; intros i H; [reflexivity|].
  cbn [existsb] in H. apply orb_false_iff in H as [Hline Hl].
  cbn [project_name_pos]. rewrite Hline. now apply IH.
Qed.

Lemma project_name_pos_first (i : nat) (pre post : list text) (line : text) :
  Forall (fun l => startswith (str "PROJECT_NAME") l = false) pre ->
  startswith (str "PROJECT_NAME") line = true ->
  project_name_pos i (pre ++ line :: post) = i + length pre + 1.
Proof.
  intros Hpre Hline. revert i.
  induction Hpre as [|l pre Hl Hpre IH]; intros i; cbn [app project_name_pos length].
  - rewrite Hline. lia.
  - rewrite Hl, IH. lia.
Qed.

(** X4: when no line matches the legacy SDK root pattern, the first pass
    carries every line and inserts the two definitions, one after the other:
    at the very top when no carried line starts with [PROJECT_NAME], and
    otherwise right after the first carried line that starts with it. *)
Theorem sdk_root_pass_without_match (makefile_lines : list text) :
  Forall (fun l => matches_sdk_root l = false) makefile_lines ->
  let kept := flat_map carried makefile_lines in
  (existsb (startswith (str "PROJECT_NAME")) kept = false ->
   sdk_root_pass makefile_lines
   = [new_proj_dir_line; new_sdk_root_definition] ++ kept)
  /\ (forall pre line post,
        kept = pre ++ line :: post ->
        Forall (fun l => startswith (str "PROJECT_NAME") l = false) pre ->
        startswith (str "PROJECT_NAME") line = true ->
        sdk_root_pass makefile_lines
        = pre ++ line :: [new_proj_dir_line; new_sdk_root_definition] ++ post).
Proof.
  intros H. cbv zeta. rewrite (sdk_root_pass_insertion makefile_lines H). split.
  - intros Hnone. rewrite (project_name_pos_none 0 _ Hnone). reflexivity.
  - intros pre line post Hkept Hpre Hline. rewrite Hkept.
    rewrite (project_name_pos_first 0 pre post line Hpre Hline).
    replace (0 + length pre + 1) with (length (pre ++ [line]))
      by (rewrite length_app; simpl; lia).
    replace (pre ++ line :: post) with ((pre ++ [line]) ++ post)
      by (now rewrite <- app_assoc).
    rewrite firstn_app, skipn_app, Nat.sub_diag, firstn_all, skipn_all.
    cbn [firstn skipn]. rewrite !app_nil_r, <- !app_assoc. reflexivity.
Qed.

Lemma sdk_root_pass_without_match_witness :
  sdk_root_pass [str "include cfg.mk" ++ [nl]; str "PROJECT_NAME := blinky" ++ [nl];
                 str "all:" ++ [nl]]
  = [str "include cfg.mk" ++ [nl]]
      ++ (str "PROJECT_NAME := blinky" ++ [nl])
      :: [new_proj_dir_line; new_sdk_root_definition]
      ++ [str "all:" ++ [nl]].
Proof.
  refine (proj2 (sdk_root_pass_without_match
                   [str "include cfg.mk" ++ [nl]; str "PROJECT_NAME := blinky" ++ [nl];
                    str "all:" ++ [nl]] _)
                [str "include cfg.mk" ++ [nl]]
                (str "PROJECT_NAME := blinky" ++ [nl])
                [str "all:" ++ [nl]] _ _ _).
  - repeat constructor.
  - reflexivity.
  - repeat constructor.
  - reflexivity.
Defined.

(** X5: the four substitutions on the joined Makefile text work line by
    line: on whole lines followed by any text they give the image of the
    lines followed by the image of the text, and the image of whole lines is
    made of whole lines. *)
Theorem config_substitutions_line_by_line (lines rest : text) :
  whole_lines lines ->
  config_substitutions (lines ++ rest)
  = config_substitutions lines ++ config_substitutions rest
  /\ whole_lines (config_substitutions lines).
Proof.
  intros H. destruct (config_substitutions_linewise lines H) as [Hadd Hw].
  split; [apply Hadd|exact Hw].
Qed.

Lemma config_substitutions_line_by_line_witness :
  config_substitutions ((str "INC += -I../config \" ++ [nl]) ++ str "../config/app.h")
  = config_substitutions (str "INC += -I../config \" ++ [nl])
      ++ config_substitutions (str "../config/app.h")
  /\ whole_lines (config_substitutions (str "INC += -I../config \" ++ [nl])).
Proof.
  apply (config_substitutions_line_by_line
           (str "INC += -I../config \" ++ [nl]) (str "../config/app.h")).
  right. now exists (str "INC += -I../config \").
Defined.

(** ** Path resolution *)

Lemma normpath_step_proper (k : nat) (acc : list text) (comp : text) :
  k <> 0 ->
  ~ In "/"%char comp ->
  forallb proper_component acc = true ->
  forallb proper_component (normpath_step k acc comp) = true.
Proof.
  intros Hk Hcomp Hacc. unfold normpath_step.
  destruct (text_eqb comp []) eqn:E0; [exact Hacc|].
  destruct (text_eqb comp (str ".")) eqn:E1; [exact Hacc|]. simpl orb.
  destruct (is_dotdot comp) eqn:E2; simpl negb; simpl orb.
  - destruct k as [|k]; [congruence|]. simpl andb. simpl orb.
    destruct acc as [|x acc]; [reflexivity|].
    simpl in Hacc. apply andb_true_iff in Hacc as [Hx Hacc].
    assert (Hxd : is_dotdot x = false).
    { unfold proper_component in Hx.
      apply andb_true_iff in Hx as [Hx _]. apply andb_true_iff in Hx as [_ Hx].
      now apply negb_true_iff in Hx. }
    rewrite Hxd. exact Hacc.
  - simpl. rewrite Hacc, andb_true_r. unfold proper_component.
    rewrite E0, E1, E2. simpl. apply negb_true_iff.
    apply not_true_is_false. intros H. apply existsb_exists in H as (x & Hx & Heq).
    apply Ascii.eqb_eq in Heq. subst x. contradiction.
Qed.

Lemma normpath_loop_proper (k : nat) (comps acc : list text) :
  k <> 0 ->
  Forall (fun comp => ~ In "/"%char comp) comps ->
  forallb proper_component acc = true ->
  forallb proper_component (fold_left (normpath_step k) comps acc) = true.
Proof.
  intros Hk Hcomps. revert acc.
  induction Hcomps as [|comp comps Hc Hcs IH]; intros acc Hacc; [exact Hacc|].
  simpl. apply IH. now apply normpath_step_proper.
Qed.

Lemma forallb_rev (f : text -> bool) (l : list text) :
  forallb f l = true -> forallb f (rev l) = true.
Proof.
  rewrite !forallb_forall. intros H x Hx. apply H. now apply in_rev.
Qed.

(** An absolute path is normalized to one or two slashes followed by proper
    components. *)
Lemma normpath_absolute (path : text) :
  startswith (str "/") path = true ->
  exists k comps,
    normpath path = repeat "/"%char k ++ join (str "/") comps
    /\ (k = 1 \/ k = 2)
    /\ forallb proper_component comps = true.
Proof.
  intros Habs. destruct path as [|c path]; [discriminate|].
  unfold normpath.
  set (k := initial_slashes_of (c :: path)).
  assert (Hk : k = 1 \/ k = 2).
  { unfold k, initial_slashes_of. rewrite Habs.
    destruct (startswith (str "//") (c :: path) && negb (startswith (str "///") (c :: path)));
      auto. }
  set (comps := rev (fold_left (normpath_step k) (split_on "/" (c :: path)) [])).
  exists k, comps. split; [|split; [exact Hk|]].
  - destruct Hk as [-> | ->]; reflexivity.
  - unfold comps. apply forallb_rev. apply normpath_loop_proper.
    + destruct Hk; lia.
    + apply split_on_parts_free.
    + reflexivity.
Qed.

Lemma path_join1_absolute (cwd path : text) :
  startswith (str "/") cwd = true ->
  startswith (str "/") (path_join1 cwd path) = true.
Proof.
  intros Hcwd. unfold path_join1.
  destruct (startswith (str "/") path) eqn:E; [exact E|].
  destruct cwd as [|c cwd]; [discriminate|].
  destruct (Ascii.eqb (last (c :: cwd) " "%char) "/");
    simpl in Hcwd |- *; exact Hcwd.
Qed.

(** X6: with an absolute working directory, [resolve_path] returns an
    absolute, normalized path: one or two slashes followed by components
    joined by slashes, none of which is empty, [.] or [..]. *)
Theorem resolve_path_normalized (cwd original_proj_dir rel_path : text) :
  startswith (str "/") cwd = true ->
  exists k comps,
    resolve_path cwd original_proj_dir rel_path
    = repeat "/"%char k ++ join (str "/") comps
    /\ (k = 1 \/ k = 2)
    /\ forallb proper_component comps = true.
Proof.
  intros Hcwd. unfold resolve_path, abspath. apply normpath_absolute.
  destruct (startswith (str "/") (path_join1 original_proj_dir (normpath rel_path))) eqn:E;
    [exact E|].
  now apply path_join1_absolute.
Qed.

Lemma resolve_path_normalized_witness :
  exists k comps,
    resolve_path (str "/home/user") (str "/sdk/examples/blinky/ses") (str "../../../components/./libraries/../boards/boards.c")
    = repeat "/"%char k ++ join (str "/") comps
    /\ (k = 1 \/ k = 2)
    /\ forallb proper_component comps = true.
Proof.
  apply (resolve_path_normalized (str "/home/user") (str "/sdk/examples/blinky/ses")
           (str "../../../components/./libraries/../boards/boards.c")).
  reflexivity.
Defined.

(** ** The destination of a relocated reference *)

Lemma join_slash_parts (q : text) (qs : list text) :
  str "/" ++ join (str "/") (q :: qs) = concat (map (fun x => str "/" ++ x) (q :: qs)).
Proof.
  revert q. induction qs as [|q2 qs IH]; intros q.
  - simpl. now rewrite app_nil_r.
  - change (join (str "/") (q :: q2 :: qs)) with (q ++ str "/" ++ join (str "/") (q2 :: qs)).
    rewrite IH. simpl. reflexivity.
Qed.

Lemma last_app_nonempty (a b : text) (d : ascii) :
  b <> [] -> last (a ++ b) d = last b d.
Proof.
  intros Hb. destruct (exists_last Hb) as (b' & z & ->).
  now rewrite app_assoc, !last_last.
Qed.

(** Joining proper parts one by one onto a path that does not end with a
    slash puts a slash before each. *)
Lemma path_join_parts (parts : list text) (path : text) :
  path <> [] -> last path " "%char <> "/"%char ->
  Forall (fun q => q <> [] /\ ~ In "/"%char q) parts ->
  path_join path parts = path ++ concat (map (fun x => str "/" ++ x) parts).
Proof.
  intros Hne Hlast Hparts. revert path Hne Hlast.
  induction Hparts as [|q qs [Hq Hfree] Hqs IH]; intros path Hne Hlast.
  - simpl. now rewrite app_nil_r.
  - change (path_join path (q :: qs)) with (path_join (path_join1 path q) qs).
    assert (Hstep : path_join1 path q = path ++ str "/" ++ q).
    { unfold path_join1.
      destruct (startswith (str "/") q) eqn:Es.
      { apply startswith_spec in Es as [r ->]. exfalso. apply Hfree. now left. }
      destruct path as [|a path]; [congruence|].
      destruct (Ascii.eqb (last (a :: path) " "%char) "/") eqn:E; [|reflexivity].
      apply Ascii.eqb_eq in E. contradiction. }
    rewrite Hstep, IH.
    + simpl. now rewrite <- !app_assoc.
    + destruct path; discriminate.
    + rewrite app_assoc, last_app_nonempty by assumption.
      intros E. apply Hfree. rewrite <- E.
      destruct (exists_last Hq) as (q' & z & ->). rewrite last_last.
      apply in_or_app. right. now left.
Qed.

(** X7: when every segment of the reference left after dropping the [..]
    ones is non-empty (and there is one), the destination path returned by
    [create_target_path] is the output directory joined with the new
    relative reference: the copy goes where the rewritten reference points. *)
Theorem destination_is_joined_reference (output_dir original_rel_path_xml : text) :
  rel_to_sdk_root_parts original_rel_path_xml <> [] ->
  ~ In [] (rel_to_sdk_root_parts original_rel_path_xml) ->
  fst (create_target_path output_dir SDK_FILES_SUBDIR original_rel_path_xml)
  = path_join1 output_dir
               (snd (create_target_path output_dir SDK_FILES_SUBDIR original_rel_path_xml)).
Proof.
  intros Hne Hempty. unfold create_target_path. cbn [fst snd].
  unfold target_rel_path_unix.
  pose proof (rel_parts_slash_free original_rel_path_xml) as Hfree.
  destruct (rel_to_sdk_root_parts original_rel_path_xml) as [|q qs] eqn:E; [congruence|].
  fold (segments (SDK_FILES_SUBDIR ++ str "/" ++ join (str "/") (q :: qs))).
  rewrite segments_under_subdir. unfold segments.
  change (str "/") with ["/"%char] at 1.
  rewrite split_on_join by (assumption || discriminate).
  assert (Hparts : Forall (fun x => x <> [] /\ ~ In "/"%char x) (q :: qs)).
  { rewrite Forall_forall in Hfree |- *. intros x Hx. split; [|now apply Hfree].
    intros ->. contradiction. }
  change (path_join output_dir (SDK_FILES_SUBDIR :: q :: qs))
    with (path_join (path_join1 output_dir SDK_FILES_SUBDIR) (q :: qs)).
  assert (Hfirst : path_join1 output_dir SDK_FILES_SUBDIR <> []
                   /\ last (path_join1 output_dir SDK_FILES_SUBDIR) " "%char <> "/"%char
                   /\ path_join1 output_dir (SDK_FILES_SUBDIR ++ str "/" ++ join (str "/") (q :: qs))
                      = path_join1 output_dir SDK_FILES_SUBDIR
                          ++ str "/" ++ join (str "/") (q :: qs)).
  { unfold path_join1. change (startswith (str "/") SDK_FILES_SUBDIR) with false.
    change (startswith (str "/") (SDK_FILES_SUBDIR ++ str "/" ++ join (str "/") (q :: qs)))
      with false. cbv iota.
    destruct output_dir as [|a out]; [repeat split; discriminate|].
    destruct (Ascii.eqb (last (a :: out) " "%char) "/").
    - repeat split; [discriminate| |now rewrite <- app_assoc].
      rewrite last_app_nonempty by discriminate. discriminate.
    - repeat split; [discriminate| |now rewrite <- !app_assoc].
      rewrite app_assoc, last_app_nonempty by discriminate. discriminate. }
  destruct Hfirst as (H1 & H2 & H3).
  rewrite (path_join_parts (q :: qs) _ H1 H2 Hparts), H3.
  now rewrite <- join_slash_parts.
Qed.

Lemma destination_is_joined_reference_witness :
  fst (create_target_path (str "out") SDK_FILES_SUBDIR (str "../../../components/boards/boards.c"))
  = path_join1 (str "out")
               (snd (create_target_path (str "out") SDK_FILES_SUBDIR
                                        (str "../../../components/boards/boards.c"))).
Proof.
  apply (destination_is_joined_reference (str "out")
           (str "../../../components/boards/boards.c")).
  - discriminate.
  - vm_compute. intuition discriminate.
Defined.

(** ** The analysis loops *)

Lemma dict_set_In (d : dict) (k v : text) (e : entry) :
  In e (dict_set d k v) -> In e d \/ e = (k, v).
Proof.
  induction d as [|[k' v'] d IH]; simpl.
  - intros [<-|[]]. now right.
  - destruct (text_eqb k' k) eqn:E.
    + apply text_eqb_true in E. subst k'.
      intros [<-|H]; [now right|left; now right].
    + intros [<-|H]; [left; now left|].
      destruct (IH H) as [H'|H']; [left; now right|now right].
Qed.

Lemma in_set_add (x y : text) (s : list text) :
  in_set x s = true -> in_set x (set_add y s) = true.
Proof.
  intros H. unfold set_add. destruct (in_set y s); [exact H|].
  unfold in_set in *. simpl. now rewrite H, orb_true_r.
Qed.

Lemma in_set_add_same (y : text) (s : list text) : in_set y (set_add y s) = true.
Proof.
  unfold set_add. destruct (in_set y s) eqn:E; [exact E|].
  unfold in_set. simpl. now rewrite text_eqb_refl.
Qed.

Section AnalysisLoops.
Variables cwd original_proj_dir output_dir : text.
Variable config_copied : bool.
Variable copy_item_returns : nat -> text -> text -> bool.

Lemma try_copy_spec (st : analysis_state) (src dest : text) (counted : nat) :
  paths_to_replace (fst (try_copy copy_item_returns st src dest counted))
  = paths_to_replace st
  /\ (forall x, in_set x (copied_items_abs st) = true ->
                in_set x (copied_items_abs
                            (fst (try_copy copy_item_returns st src dest counted))) = true)
  /\ (snd (try_copy copy_item_returns st src dest counted) = true ->
      in_set src (copied_items_abs
                    (fst (try_copy copy_item_returns st src dest counted))) = true).
Proof.
  unfold try_copy. destruct (copy_item_returns (copy_calls st) src dest); simpl.
  - split; [reflexivity|]. split; [intros x; apply in_set_add|].
    intros _. apply in_set_add_same.
  - split; [reflexivity|]. split; [auto|discriminate].
Qed.

Let step := file_step cwd original_proj_dir output_dir config_copied copy_item_returns.

Lemma file_step_spec (st : analysis_state) (f : option text) :
  (forall x, in_set x (copied_items_abs st) = true ->
             in_set x (copied_items_abs (step st f)) = true)
  /\ (forall e, In e (paths_to_replace (step st f)) ->
                In e (paths_to_replace st)
                \/ exists p, f = Some p
                             /\ scheduled_for_file cwd original_proj_dir config_copied
                                  (copied_items_abs st) (copied_items_abs (step st f)) p e).
Proof.
  unfold step, file_step.
  destruct f as [[|c p]|]; [split; auto| |split; auto].
  set (src := resolve_path cwd original_proj_dir (c :: p)).
  set (in_cfg := config_copied
                 && startswith (config_src_abs_path cwd original_proj_dir ++ str "/") src).
  assert (Hcfg : in_cfg = true ->
                 config_copied = true
                 /\ startswith (config_src_abs_path cwd original_proj_dir ++ str "/") src = true).
  { unfold in_cfg. intros H. now apply andb_true_iff in H. }
  destruct (in_set src (copied_items_abs st)) eqn:Hin.
  - destruct in_cfg eqn:Ecfg; simpl andb; cbv iota; [|split; auto].
    destruct (is_sdk (c :: p)) eqn:Esdk.
    + unfold create_target_path. simpl negb. cbv iota. unfold schedule. simpl.
      split; [auto|]. intros e He. apply dict_set_In in He as [He|He]; [now left|].
      right. exists (c :: p). split; [reflexivity|]. left.
      repeat split; try assumption; try (right; now apply Hcfg).
    + destruct (startswith (str "../") (c :: p)) eqn:Eup; [|split; auto].
      unfold schedule. simpl. split; [auto|].
      intros e He. apply dict_set_In in He as [He|He]; [now left|].
      right. exists (c :: p). split; [reflexivity|]. right.
      repeat split; try assumption; now apply Hcfg.
  - simpl andb. cbv iota.
    destruct (is_sdk (c :: p)) eqn:Esdk.
    + unfold create_target_path. simpl negb. cbv iota.
      destruct (try_copy_spec st src
                  (path_join output_dir
                     (split_on "/" (target_rel_path_unix SDK_FILES_SUBDIR (c :: p)))) 1)
        as (Hp & Hmono & Hadd).
      destruct (try_copy copy_item_returns st src _ 1) as [st1 copied].
      simpl in Hp, Hmono, Hadd. destruct copied.
      * unfold schedule. simpl. split; [exact Hmono|].
        intros e He. apply dict_set_In in He as [He|He]; [left; now rewrite <- Hp|].
        right. exists (c :: p). split; [reflexivity|]. left.
        repeat split; try assumption; [now apply Hadd|now left].
      * split; [exact Hmono|]. intros e He. left. now rewrite <- Hp.
    + destruct in_cfg eqn:Ecfg.
      * destruct (startswith (str "../") (c :: p)) eqn:Eup; [|split; auto].
        unfold schedule. simpl. split; [auto|].
        intros e He. apply dict_set_In in He as [He|He]; [now left|].
        right. exists (c :: p). split; [reflexivity|]. right.
        repeat split; try assumption; now apply Hcfg.
      * destruct (try_copy_spec st src
                    (abspath cwd (path_join1 output_dir (normpath (c :: p)))) 1)
          as (Hp & Hmono & _).
        split; [exact Hmono|]. intros e He. left. now rewrite <- Hp.
Qed.

Lemma scheduled_for_file_mono (before before' after after' : list text) (p : text)
      (e : entry) :
  (forall x, in_set x before' = true -> in_set x before = true) ->
  (forall x, in_set x after = true -> in_set x after' = true) ->
  scheduled_for_file cwd original_proj_dir config_copied before after p e ->
  scheduled_for_file cwd original_proj_dir config_copied before' after' p e.
Proof.
  intros Hb Ha [(H1 & H2 & H3 & H4)|H]; [left|now right].
  repeat split; try assumption; [now apply Ha|].
  destruct H4 as [H4|H4]; [left|now right].
  apply not_true_is_false. intros H. apply Hb in H. congruence.
Qed.

Lemma file_loop_spec (file_names : list (option text)) (st : analysis_state) :
  let final := file_loop cwd original_proj_dir output_dir config_copied
                         copy_item_returns file_names st in
  (forall x, in_set x (copied_items_abs st) = true ->
             in_set x (copied_items_abs final) = true)
  /\ (forall e, In e (paths_to_replace final) ->
                In e (paths_to_replace st)
                \/ exists p, In (Some p) file_names
                             /\ scheduled_for_file cwd original_proj_dir config_copied
                                  (copied_items_abs st) (copied_items_abs final) p e).
Proof.
  cbv zeta. unfold file_loop. revert st.
  induction file_names as [|f l IH]; intros st.
  - split; auto.
  - simpl fold_left. fold step.
    destruct (IH (step st f)) as [IHm IHp].
    destruct (file_step_spec st f) as [Sm Sp].
    split; [auto|].
    intros e He. destruct (IHp e He) as [H|(p & Hin & Hs)].
    + destruct (Sp e H) as [H'|(p & Hf & Hs)]; [now left|].
      right. exists p. split; [left; now symmetry|].
      now apply (scheduled_for_file_mono (copied_items_abs st) _ (copied_items_abs (step st f))).
    + right. exists p. split; [now right|].
      now apply (scheduled_for_file_mono (copied_items_abs (step st f)) _
                   (copied_items_abs (fold_left step l (step st f)))).
Qed.

End AnalysisLoops.

Section PathAttrLoop.
Variables cwd original_proj_dir output_dir : text.
Variable config_copied : bool.
Variable copy_item_returns : nat -> text -> text -> bool.
Variable common_config_get : text -> option text.

Let attr_step :=
  path_attr_step cwd original_proj_dir output_dir copy_item_returns common_config_get.

Lemma path_attr_step_spec (st : analysis_state) (a : text) :
  (forall x, in_set x (copied_items_abs st) = true ->
             in_set x (copied_items_abs (attr_step st a)) = true)
  /\ (forall e, In e (paths_to_replace (attr_step st a)) ->
                In e (paths_to_replace st)
                \/ exists p, common_config_get a = Some p
                             /\ scheduled_for_attr cwd original_proj_dir
                                  (copied_items_abs st)
                                  (copied_items_abs (attr_step st a)) a p e).
Proof.
  unfold attr_step, path_attr_step.
  destruct (common_config_get a) as [[|c p]|]; [split; auto| |split; auto].
  set (src := resolve_path cwd original_proj_dir (c :: p)).
  destruct (in_set src (copied_items_abs st)) eqn:Hin; [split; auto|].
  destruct (is_sdk (c :: p)) eqn:Esdk.
  - unfold create_target_path.
    destruct (try_copy_spec copy_item_returns st src
                (path_join output_dir
                   (split_on "/" (target_rel_path_unix SDK_FILES_SUBDIR (c :: p)))) 0)
      as (Hp & Hmono & Hadd).
    destruct (try_copy copy_item_returns st src _ 0) as [st1 copied].
    simpl in Hp, Hmono, Hadd. destruct copied.
    + unfold schedule. simpl. split; [exact Hmono|].
      intros e He. apply dict_set_In in He as [He|He]; [left; now rewrite <- Hp|].
      right. exists (c :: p). split; [reflexivity|].
      repeat split; try assumption. now apply Hadd.
    + split; [exact Hmono|]. intros e He. left. now rewrite <- Hp.
  - destruct (try_copy_spec copy_item_returns st src
                (abspath cwd (path_join1 output_dir (normpath (c :: p)))) 0)
      as (Hp & Hmono & _).
    split; [exact Hmono|]. intros e He. left. now rewrite <- Hp.
Qed.

Lemma scheduled_for_attr_mono (before before' after after' : list text) (a p : text)
      (e : entry) :
  (forall x, in_set x before' = true -> in_set x before = true) ->
  (forall x, in_set x after = true -> in_set x after' = true) ->
  scheduled_for_attr cwd original_proj_dir before after a p e ->
  scheduled_for_attr cwd original_proj_dir before' after' a p e.
Proof.
  intros Hb Ha (H1 & H2 & H3 & H4). repeat split; try assumption; [|now apply Ha].
  apply not_true_is_false. intros H. apply Hb in H. congruence.
Qed.

Lemma path_attr_fold_spec (attrs : list text) (st : analysis_state) :
  let final := fold_left attr_step attrs st in
  (forall x, in_set x (copied_items_abs st) = true ->
             in_set x (copied_items_abs final) = true)
  /\ (forall e, In e (paths_to_replace final) ->
                In e (paths_to_replace st)
                \/ exists a p, In a attrs /\ common_config_get a = Some p
                               /\ scheduled_for_attr cwd original_proj_dir
                                    (copied_items_abs st) (copied_items_abs final) a p e).
Proof.
  cbv zeta. revert st. induction attrs as [|a l IH]; intros st.
  - split; auto.
  - simpl fold_left.
    destruct (IH (attr_step st a)) as [IHm IHp].
    destruct (path_attr_step_spec st a) as [Sm Sp].
    split; [auto|].
    intros e He. destruct (IHp e He) as [H|(a' & p & Hin & Hg & Hs)].
    + destruct (Sp e H) as [H'|(p & Hg & Hs)]; [now left|].
      right. exists a, p. split; [now left|]. split; [exact Hg|].
      now apply (scheduled_for_attr_mono (copied_items_abs st) _
                   (copied_items_abs (attr_step st a))).
    + right. exists a', p. split; [now right|]. split; [exact Hg|].
      now apply (scheduled_for_attr_mono (copied_items_abs (attr_step st a)) _
                   (copied_items_abs (fold_left attr_step l (attr_step st a)))).
Qed.

End PathAttrLoop.

(** X8 (file loop of [main]): every entry the mapping holds after the loop
    over the file elements was there before the loop, or belongs to a
    [file_name] value [p] of the project. In the second case either [p]
    begins with two parent steps, the entry sends it under the SDK
    subdirectory, its source is in the copied set at the end, and that
    source was not yet copied when the loop began or lies in the copied
    config directory; or [p] is a local reference into the copied config
    directory and the entry drops its leading parent step. *)
Theorem file_loop_scheduled (cwd original_proj_dir output_dir : text)
        (config_copied : bool) (copy_item_returns : nat -> text -> text -> bool)
        (file_names : list (option text)) (st : analysis_state) (e : entry) :
  In e (paths_to_replace
          (file_loop cwd original_proj_dir output_dir config_copied
                     copy_item_returns file_names st)) ->
  In e (paths_to_replace st)
  \/ exists p,
       In (Some p) file_names
       /\ scheduled_for_file cwd original_proj_dir config_copied
            (copied_items_abs st)
            (copied_items_abs
               (file_loop cwd original_proj_dir output_dir config_copied
                          copy_item_returns file_names st)) p e.
Proof.
  apply (file_loop_spec cwd original_proj_dir output_dir config_copied
           copy_item_returns file_names st).
Qed.

Lemma file_loop_scheduled_witness :
  let st := mk_analysis_state [] [] 0 0 in
  let file_names := [Some (str "../../../components/boards/boards.c");
                     Some (str "../main.c"); None] in
  let e := (attr_val file_name_attr (str "../../../components/boards/boards.c"),
            attr_val file_name_attr (str "sdk_files/components/boards/boards.c")) in
  let final := file_loop (str "/w") (str "/sdk/examples/blinky/ses") (str "out")
                         false (fun _ _ _ => true) file_names st in
  In e (paths_to_replace st)
  \/ exists p,
       In (Some p) file_names
       /\ scheduled_for_file (str "/w") (str "/sdk/examples/blinky/ses") false
            (copied_items_abs st) (copied_items_abs final) p e.
Proof.
  cbv zeta.
  apply (file_loop_scheduled (str "/w") (str "/sdk/examples/blinky/ses") (str "out")
           false (fun _ _ _ => true)).
  vm_compute. left. reflexivity.
Defined.

Lemma scheduled_for_file_shape (cwd original_proj_dir : text) (config_copied : bool)
      (before after : list text) (p : text) (e : entry) :
  scheduled_for_file cwd original_proj_dir config_copied before after p e ->
  exists n, e = (attr_val file_name_attr p, attr_val file_name_attr n)
            /\ startswith (str "../") p = true
            /\ startswith (str "../") n = false.
Proof.
  intros [(Hsdk & -> & _)|(Hsdk & _ & Hup & ->)].
  - exists (target_rel_path_unix SDK_FILES_SUBDIR p). split; [reflexivity|]. split.
    + unfold is_sdk in Hsdk. apply startswith_spec in Hsdk as [r ->]. reflexivity.
    + pose proof (target_rel_path_under_subdir p) as H.
      apply startswith_spec in H as [r ->]. reflexivity.
  - exists (skipn 3 p). split; [reflexivity|]. split; [exact Hup|].
    apply startswith_spec in Hup as [r ->]. change (skipn 3 (str "../" ++ r)) with r.
    apply not_true_is_false. intros H. apply startswith_spec in H as [r' ->].
    unfold is_sdk in Hsdk. simpl in Hsdk. discriminate.
Qed.

(** X9 (file loop of [main]): starting from an empty mapping, every entry
    after the loop over the file elements is a pair of [file_name]
    attributes, and the new value of one entry is never, up to letter case,
    the original value of another (or of itself): what one entry writes, no
    entry of the mapping matches again. *)
Theorem file_loop_entries_do_not_chain (cwd original_proj_dir output_dir : text)
        (config_copied : bool) (copy_item_returns : nat -> text -> text -> bool)
        (file_names : list (option text)) (st : analysis_state) (e1 e2 : entry) :
  paths_to_replace st = [] ->
  In e1 (paths_to_replace
           (file_loop cwd original_proj_dir output_dir config_copied
                      copy_item_returns file_names st)) ->
  In e2 (paths_to_replace
           (file_loop cwd original_proj_dir output_dir config_copied
                      copy_item_returns file_names st)) ->
  exists o1 n1 o2 n2,
    e1 = (attr_val file_name_attr o1, attr_val file_name_attr n1)
    /\ e2 = (attr_val file_name_attr o2, attr_val file_name_attr n2)
    /\ In (Some o1) file_names /\ In (Some o2) file_names
    /\ ci_equal o1 n2 = false.
Proof.
  intros Hempty H1 H2.
  destruct (file_loop_spec cwd original_proj_dir output_dir config_copied
              copy_item_returns file_names st) as [_ Hp].
  cbv zeta in Hp.
  destruct (Hp e1 H1) as [H|(o1 & Hin1 & Hs1)]; [rewrite Hempty in H; destruct H|].
  destruct (Hp e2 H2) as [H|(o2 & Hin2 & Hs2)]; [rewrite Hempty in H; destruct H|].
  apply scheduled_for_file_shape in Hs1 as (n1 & -> & Hup1 & _).
  apply scheduled_for_file_shape in Hs2 as (n2 & -> & _ & Hn2).
  exists o1, n1, o2, n2. repeat split; try assumption.
  now apply scheduled_values_do_not_chain.
Qed.

Lemma file_loop_entries_do_not_chain_witness :
  exists o1 n1 o2 n2,
    (attr_val file_name_attr (str "../../../components/boards/boards.c"),
     attr_val file_name_attr (str "sdk_files/components/boards/boards.c"))
    = (attr_val file_name_attr o1, attr_val file_name_attr n1)
    /\ (attr_val file_name_attr (str "../config/sdk_config.h"),
        attr_val file_name_attr (str "config/sdk_config.h"))
       = (attr_val file_name_attr o2, attr_val file_name_attr n2)
    /\ In (Some o1) [Some (str "../../../components/boards/boards.c");
                     Some (str "../config/sdk_config.h")]
    /\ In (Some o2) [Some (str "../../../components/boards/boards.c");
                     Some (str "../config/sdk_config.h")]
    /\ ci_equal o1 n2 = false.
Proof.
  apply (file_loop_entries_do_not_chain (str "/w") (str "/sdk/examples/blinky/ses")
           (str "out") true (fun _ _ _ => true)
           [Some (str "../../../components/boards/boards.c");
            Some (str "../config/sdk_config.h")]
           (mk_analysis_state [str "/sdk/examples/blinky/config/sdk_config.h"] [] 0 0)).
  - reflexivity.
  - vm_compute. left. reflexivity.
  - vm_compute. right. left. reflexivity.
Defined.

(** X10 (loop over [path_attrs] of [main]): every entry the mapping holds
    after the loop over the three path attributes was there before, or is
    the pair for one of these attributes whose value [p] in the common
    configuration begins with two parent steps; its new value is the
    reference under the SDK subdirectory, its source was not in the copied
    set when the loop began and is in it at the end. A local value, and a
    value whose file was copied before, is never scheduled. *)
Theorem path_attr_loop_scheduled (cwd original_proj_dir output_dir : text)
        (copy_item_returns : nat -> text -> text -> bool)
        (common_config_get : text -> option text)
        (st : analysis_state) (e : entry) :
  In e (paths_to_replace
          (path_attr_loop cwd original_proj_dir output_dir copy_item_returns
                          common_config_get st)) ->
  In e (paths_to_replace st)
  \/ exists a p,
       In a path_attrs /\ common_config_get a = Some p
       /\ scheduled_for_attr cwd original_proj_dir
            (copied_items_abs st)
            (copied_items_abs
               (path_attr_loop cwd original_proj_dir output_dir copy_item_returns
                               common_config_get st)) a p e.
Proof.
  apply (path_attr_fold_spec cwd original_proj_dir output_dir copy_item_returns
           common_config_get path_attrs st).
Qed.

Lemma path_attr_loop_scheduled_witness :
  let get := fun a : text =>
               if text_eqb a (str "linker_section_placement_file")
               then Some (str "../../../modules/nrfx/mdk/flash_placement.xml")
               else None in
  let st := mk_analysis_state [] [] 0 0 in
  let e := (attr_val (str "linker_section_placement_file")
                     (str "../../../modules/nrfx/mdk/flash_placement.xml"),
            attr_val (str "linker_section_placement_file")
                     (str "sdk_files/modules/nrfx/mdk/flash_placement.xml")) in
  let final := path_attr_loop (str "/w") (str "/sdk/examples/blinky/ses") (str "out")
                              (fun _ _ _ => true) get st in
  In e (paths_to_replace st)
  \/ exists a p,
       In a path_attrs /\ get a = Some p
       /\ scheduled_for_attr (str "/w") (str "/sdk/examples/blinky/ses")
            (copied_items_abs st) (copied_items_abs final) a p e.
Proof.
  cbv zeta.
  apply (path_attr_loop_scheduled (str "/w") (str "/sdk/examples/blinky/ses") (str "out")
           (fun _ _ _ => true)).
  vm_compute. left. reflexivity.
Defined.

(** ** The toolchain sub-makefile *)

Lemma replace_length (old new s : text) :
  old <> [] ->
  length (replace old new s) + count old s * length old
  = length s + count old s * length new.
Proof.
  intros Hp. revert s. apply (scan_ind Ascii.eqb old Hp (fun s =>
    length (replace old new s) + count old s * length old
    = length s + count old s * length new)).
  - reflexivity.
  - intros c s E IH. pose proof (prefix_by_length _ _ _ E) as Hl.
    rewrite prefix_by_eqb in E.
    rewrite replace_cons, count_cons, E by assumption.
    rewrite length_app. rewrite length_skipn in IH.
    unfold text in *. cbn [Nat.mul]. lia.
  - intros c s E IH. rewrite prefix_by_eqb in E.
    rewrite replace_cons, count_cons, E by assumption.
    cbn [length]. unfold text in *. lia.
Qed.

(** X11 ([Makefile.posix] block of [main]): the file is written back exactly
    when the legacy toolchain directory occurs in it; what is written is
    then 35 characters shorter for each occurrence replaced. A file without
    the directory is left as it is. *)
Theorem makefile_posix_written_when_legacy_path (posix_content : text) :
  match modify_makefile_posix posix_content with
  | None => count original_gcc_path posix_content = 0
  | Some modified_posix_content =>
      0 < count original_gcc_path posix_content
      /\ modified_posix_content = replace original_gcc_path new_gcc_path posix_content
      /\ length modified_posix_content + 35 * count original_gcc_path posix_content
         = length posix_content
  end.
Proof.
  assert (Hp : original_gcc_path <> []) by discriminate.
  pose proof (replace_length original_gcc_path new_gcc_path posix_content Hp) as Hlen.
  change (length original_gcc_path) with 50 in Hlen.
  change (length new_gcc_path) with 15 in Hlen.
  unfold modify_makefile_posix.
  destruct (text_eqb (replace original_gcc_path new_gcc_path posix_content) posix_content)
    eqn:E; simpl negb; cbv iota.
  - apply text_eqb_true in E. rewrite E in Hlen. unfold text in *. lia.
  - destruct (count original_gcc_path posix_content) as [|k] eqn:Ek.
    + rewrite (count_zero_replace _ new_gcc_path _ Hp Ek) in E.
      now rewrite text_eqb_refl in E.
    + split; [lia|]. split; [reflexivity|]. unfold text in *. lia.
Qed.

(** ** The written Makefile, whatever the first pass found *)

Lemma readlines_whole_lines (s : text) : whole_lines s -> Forall ends_nl (readlines s).
Proof.
  intros Hs. pose proof (readlines_complete (s ++ [nl])) as Hc.
  rewrite (readlines_app s [nl] Hs) in Hc.
  change (readlines [nl]) with [[nl]] in Hc.
  now rewrite removelast_last in Hc.
Qed.

Lemma concat_whole_lines (l : list text) : Forall ends_nl l -> whole_lines (concat l).
Proof.
  induction 1 as [|x l Hx Hl IH]; [now left|].
  simpl. apply whole_lines_app; [now right|exact IH].
Qed.

Lemma carried_ends_nl (l : list text) :
  Forall ends_nl l -> Forall ends_nl (flat_map carried l).
Proof.
  induction 1 as [|line l Hline Hl IH]; [constructor|].
  change (flat_map carried (line :: l)) with (carried line ++ flat_map carried l).
  apply Forall_app. split; [|exact IH]. unfold carried.
  destruct (text_eqb (strip line) target_cflags_line).
  - constructor; [exact Hline|].
    constructor; [now exists (str "CFLAGS += -Wall -Werror")|].
    constructor; [now exists (str "CFLAGS += -Wno-array-bounds")|constructor].
  - now constructor.
Qed.

Lemma Forall_firstn_text (P : text -> Prop) (k : nat) (l : list text) :
  Forall P l -> Forall P (firstn k l).
Proof.
  intros H. rewrite <- (firstn_skipn k l) in H. now apply Forall_app in H as [H _].
Qed.

Lemma existsb_false_Forall (f : text -> bool) (l : list text) :
  existsb f l = false -> Forall (fun x => f x = false) l.
Proof.
  induction l as [|x l IH]; intros H; [constructor|]. simpl in H.
  apply orb_false_iff in H as [Hx Hl]. constructor; auto.
Qed.

(** X12 (Makefile block of [main]): whatever a Makefile of whole lines
    holds, with or without a line that matches the legacy SDK root pattern,
    the lines written at the end hold [PROJ_DIR := ./] immediately followed
    by [SDK_ROOT := $(PROJ_DIR)/sdk_files], and no line written defines the
    legacy [PROJ_DIR]. *)
Theorem written_makefile_defines_both (makefile_content : text) :
  whole_lines makefile_content ->
  (exists l1 l2,
      cleaned_makefile_lines makefile_content
      = l1 ++ [new_proj_dir_line; new_sdk_root_definition] ++ l2)
  /\ (forall l, In l (cleaned_makefile_lines makefile_content) ->
                defines_legacy_proj_dir l = false).
Proof.
  intros Hw. split.
  - pose proof (readlines_whole_lines makefile_content Hw) as Hlines.
    assert (Hshape : exists A B,
               Forall ends_nl A
               /\ sdk_root_pass (readlines makefile_content)
                  = A ++ [new_proj_dir_line; new_sdk_root_definition] ++ B).
    { destruct (existsb matches_sdk_root (readlines makefile_content)) eqn:E.
      - destruct (first_match matches_sdk_root _ E)
          as (before & line & after & El & Hb & Hl).
        exists (flat_map carried before), (flat_map carried after). split.
        + apply carried_ends_nl. rewrite El in Hlines.
          now apply Forall_app in Hlines as [Hlines _].
        + rewrite El. now apply sdk_root_pass_first_match.
      - apply existsb_false_Forall in E.
        eexists _, _. split; [|exact (sdk_root_pass_insertion _ E)].
        apply Forall_firstn_text. now apply carried_ends_nl. }
    destruct Hshape as (A & B & HA & Hpass).
    unfold cleaned_makefile_lines. rewrite Hpass, !concat_app.
    change (concat [new_proj_dir_line; new_sdk_root_definition])
      with (new_proj_dir_line ++ new_sdk_root_definition ++ []).
    rewrite <- !app_assoc. rewrite app_nil_l.
    rewrite (new_lines_survive (concat A) (concat B) (concat_whole_lines A HA)).
    eexists _, _. reflexivity.
  - intros l Hin. unfold cleaned_makefile_lines in Hin.
    now apply proj_dir_cleanup_spec in Hin.
Qed.

Lemma written_makefile_defines_both_witness :
  let makefile_content :=
    str "PROJECT_NAME := blinky" ++ [nl]
      ++ str "PROJ_DIR := ../../.." ++ [nl]
      ++ str "all:" ++ [nl] in
  (exists l1 l2,
      cleaned_makefile_lines makefile_content
      = l1 ++ [new_proj_dir_line; new_sdk_root_definition] ++ l2)
  /\ (forall l, In l (cleaned_makefile_lines makefile_content) ->
                defines_legacy_proj_dir l = false).
Proof.
  cbv zeta.
  apply (written_makefile_defines_both
           (str "PROJECT_NAME := blinky" ++ [nl]
              ++ str "PROJ_DIR := ../../.." ++ [nl]
              ++ str "all:" ++ [nl])).
  right. now exists (str "PROJECT_NAME := blinky" ++ [nl]
                       ++ str "PROJ_DIR := ../../.." ++ [nl]
                       ++ str "all:").
Defined.

(** ** When the include directories are scheduled *)

(** X13 (include analysis of [main]): the include-directories attribute is
    scheduled for rewriting exactly when one of its entries is
    [../../../config], is [../config], or starts with two parent steps and
    resolves to a directory; otherwise nothing is scheduled and the list the
    loop builds is the list of the non-empty entries, unchanged and in
    their order. *)
Theorem include_update_scheduled_iff (isdir : text -> bool)
        (original_includes_str : text) :
  let original_includes := split_on ";" original_includes_str in
  (scheduled_include_update isdir original_includes_str = None
   <-> existsb (changes_include isdir) original_includes = false)
  /\ (existsb (changes_include isdir) original_includes = false ->
      new_includes_list (include_loop isdir original_includes)
      = filter nonempty original_includes).
Proof.
  cbv zeta.
  destruct (include_loop_flag isdir (split_on ";" original_includes_str)) as [H1 H2].
  split; [|exact H2].
  unfold scheduled_include_update. rewrite H1.
  destruct (existsb (changes_include isdir) (split_on ";" original_includes_str));
    split; intros H; (reflexivity || discriminate).
Qed.

Lemma include_update_scheduled_iff_witness :
  (scheduled_include_update (fun _ => false) (str "../../../sdk/inc;.;;../main") = None
   <-> existsb (changes_include (fun _ => false))
               (split_on ";" (str "../../../sdk/inc;.;;../main")) = false)
  /\ (existsb (changes_include (fun _ => false))
              (split_on ";" (str "../../../sdk/inc;.;;../main")) = false ->
      new_includes_list (include_loop (fun _ => false)
                                      (split_on ";" (str "../../../sdk/inc;.;;../main")))
      = filter nonempty (split_on ";" (str "../../../sdk/inc;.;;../main"))).
Proof.
  exact (include_update_scheduled_iff (fun _ => false)
           (str "../../../sdk/inc;.;;../main")).
Defined.

(** ** The targeted loop on a mapping of one attribute *)

Section TargetedFrame.
Variable name : text.
Hypothesis name_plain : free_of dq name = true.
Variable vals : list (text * text).

Lemma piece_kept_refl (l : list piece) :
  Forall2 (piece_kept_or_rewritten name vals) l l.
Proof.
  induction l as [|pc l IH]; constructor; [|exact IH].
  split; [reflexivity|now left].
Qed.

Lemma piece_kept_step (ov nv : text) (l0 l : list piece) :
  In nv (map snd vals) ->
  Forall2 (piece_kept_or_rewritten name vals) l0 l ->
  Forall2 (piece_kept_or_rewritten name vals) l0 (map (rewrite_piece name ov nv) l).
Proof.
  intros Hnv. induction 1 as [|x y l0 l [Hb Hxy] Hl IH]; simpl; constructor; [|exact IH].
  unfold rewrite_piece. destruct (ci_equal ov (pc_value y)).
  - split; [exact Hb|]. right. split; [reflexivity|exact Hnv].
  - split; [exact Hb|exact Hxy].
Qed.

Lemma replacement_loop_frame (d0 : document) (l : list entry) :
  Forall (fun e => exists v, In v vals /\ value_pair_ok name v = true
                             /\ e = entry_of name v) l ->
  forall d k,
    well_formed name d = true ->
    doc_tail d = doc_tail d0 ->
    Forall2 (piece_kept_or_rewritten name vals) (doc_pieces d0) (doc_pieces d) ->
    exists d' n,
      fold_left replacement_step l (Some (render d, k)) = Some (render d', n)
      /\ well_formed name d' = true
      /\ doc_tail d' = doc_tail d0
      /\ Forall2 (piece_kept_or_rewritten name vals) (doc_pieces d0) (doc_pieces d').
Proof.
  induction 1 as [|e l He Hl IH]; intros d k Hd Ht Hp.
  - exists d, k. repeat split; assumption.
  - destruct He as ([ov nv] & Hin & Hok & ->).
    unfold value_pair_ok in Hok. cbn [fst snd] in Hok.
    apply andb_true_iff in Hok as [Hok Hbs]. apply andb_true_iff in Hok as [Hov Hnv].
    apply negb_true_iff in Hbs.
    change (fold_left replacement_step (entry_of name (ov, nv) :: l) (Some (render d, k)))
      with (fold_left replacement_step l
              (replacement_step (Some (render d, k)) (attr_val name ov, attr_val name nv))).
    rewrite (replacement_step_attr_val name ov (attr_val name nv) (render d) k Hbs).
    rewrite (subst_document name name_plain ov nv d Hov Hd). cbn [fst snd].
    apply IH.
    + now apply rewrite_document_well_formed.
    + exact Ht.
    + cbn [rewrite_document doc_pieces]. apply piece_kept_step; [|exact Hp].
      apply in_map_iff. now exists (ov, nv).
Qed.

End TargetedFrame.

(** X14 (targeted replacements of [main]): for a mapping whose entries all
    belong to one attribute, with plain values and no backslash, and a
    descriptor read along the occurrences of that attribute, the loop
    answers with a descriptor of the same shape: the texts between the
    occurrences and after the last one are untouched, and each occurrence is
    as it was or carries one of the new values of the mapping. *)
Theorem targeted_loop_rewrites_values_only (name : text) (vals : list (text * text))
        (d : document) :
  free_of dq name = true ->
  forallb (value_pair_ok name) vals = true ->
  well_formed name d = true ->
  exists d' n,
    targeted_replacements (render d) (map (entry_of name) vals) = Some (render d', n)
    /\ well_formed name d' = true
    /\ doc_tail d' = doc_tail d
    /\ Forall2 (piece_kept_or_rewritten name vals) (doc_pieces d) (doc_pieces d').
Proof.
  intros Hname Hvals Hd. unfold targeted_replacements.
  apply (replacement_loop_frame name Hname vals d); try assumption; try reflexivity.
  - apply Forall_forall. intros e He.
    apply (Permutation_in e (sorted_replacements_perm (map (entry_of name) vals))) in He.
    apply in_map_iff in He as (v & <- & Hv). exists v. split; [exact Hv|].
    split; [|reflexivity]. rewrite forallb_forall in Hvals. now apply Hvals.
  - apply piece_kept_refl.
Qed.

Lemma targeted_loop_rewrites_values_only_witness :
  let vals := [(str "../../../components/boards/boards.c",
                str "sdk_files/components/boards/boards.c");
               (str "../config/sdk_config.h", str "config/sdk_config.h")] in
  let d := mk_document
             [mk_piece (str "<file ") (str "file_name")
                       (str "../../../components/boards/boards.c");
              mk_piece (str " /><file ") (str "File_Name") (str "../main.c")]
             (str " />") in
  exists d' n,
    targeted_replacements (render d) (map (entry_of file_name_attr) vals)
    = Some (render d', n)
    /\ well_formed file_name_attr d' = true
    /\ doc_tail d' = doc_tail d
    /\ Forall2 (piece_kept_or_rewritten file_name_attr vals)
               (doc_pieces d) (doc_pieces d').
Proof.
  cbv zeta.
  apply (targeted_loop_rewrites_values_only file_name_attr); reflexivity.
Defined.

(** ** What the file loop copies *)

Section FileLoopCopies.
Variables cwd original_proj_dir output_dir : text.
Variable config_copied : bool.
Variable copy_item_returns : nat -> text -> text -> bool.
Hypothesis copies_succeed : forall n src dest, copy_item_returns n src dest = true.

Lemma file_step_copies (st : analysis_state) (p : text) :
  p <> [] ->
  in_set (resolve_path cwd original_proj_dir p)
         (copied_items_abs
            (file_step cwd original_proj_dir output_dir config_copied
                       copy_item_returns st (Some p))) = true
  \/ (is_sdk p = false /\ config_copied = true
      /\ startswith (config_src_abs_path cwd original_proj_dir ++ str "/")
                    (resolve_path cwd original_proj_dir p) = true).
Proof.
  intros Hp. destruct p as [|c p]; [congruence|]. unfold file_step.
  set (src := resolve_path cwd original_proj_dir (c :: p)).
  set (in_cfg := config_copied
                 && startswith (config_src_abs_path cwd original_proj_dir ++ str "/") src).
  destruct (in_set src (copied_items_abs st)) eqn:Hin.
  - destruct in_cfg eqn:Ecfg; simpl andb; cbv iota; [|now left].
    destruct (is_sdk (c :: p)) eqn:Esdk.
    + left. unfold create_target_path. simpl negb. cbv iota. exact Hin.
    + right. unfold in_cfg in Ecfg. apply andb_true_iff in Ecfg. tauto.
  - simpl andb. cbv iota.
    destruct (is_sdk (c :: p)) eqn:Esdk.
    + left. unfold create_target_path. simpl negb. cbv iota.
      unfold try_copy. rewrite copies_succeed. unfold schedule. simpl.
      apply in_set_add_same.
    + destruct in_cfg eqn:Ecfg.
      * right. unfold in_cfg in Ecfg. apply andb_true_iff in Ecfg. tauto.
      * left. unfold try_copy. rewrite copies_succeed. simpl. apply in_set_add_same.
Qed.

End FileLoopCopies.

(** X15 (file loop of [main]): when every call of [copy_item] succeeds,
    after the loop over the file elements the source of every non-empty
    [file_name] reference is in the copied set, unless the reference is a
    local one into the copied config directory, which the loop leaves to the
    copy of that directory. *)
Theorem file_loop_copies_every_reference (cwd original_proj_dir output_dir : text)
        (config_copied : bool) (copy_item_returns : nat -> text -> text -> bool)
        (file_names : list (option text)) (st : analysis_state) (p : text) :
  (forall n src dest, copy_item_returns n src dest = true) ->
  In (Some p) file_names ->
  p <> [] ->
  in_set (resolve_path cwd original_proj_dir p)
         (copied_items_abs
            (file_loop cwd original_proj_dir output_dir config_copied
                       copy_item_returns file_names st)) = true
  \/ (is_sdk p = false /\ config_copied = true
      /\ startswith (config_src_abs_path cwd original_proj_dir ++ str "/")
                    (resolve_path cwd original_proj_dir p) = true).
Proof.
  intros Hcopy Hin Hp. unfold file_loop. revert st.
  induction file_names as [|f l IH]; intros st; [destruct Hin|].
  simpl fold_left. destruct Hin as [->|Hin]; [|now apply IH].
  destruct (file_step_copies cwd original_proj_dir output_dir config_copied
              copy_item_returns Hcopy st p Hp) as [H|H]; [left|now right].
  now apply (file_loop_spec cwd original_proj_dir output_dir config_copied
               copy_item_returns l).
Qed.

Lemma file_loop_copies_every_reference_witness :
  in_set (resolve_path (str "/w") (str "/sdk/examples/blinky/ses") (str "../main.c"))
         (copied_items_abs
            (file_loop (str "/w") (str "/sdk/examples/blinky/ses") (str "out") false
                       (fun _ _ _ => true)
                       [Some (str "../../../components/boards/boards.c");
                        Some (str "../main.c")]
                       (mk_analysis_state [] [] 0 0))) = true
  \/ (is_sdk (str "../main.c") = false /\ false = true
      /\ startswith (config_src_abs_path (str "/w") (str "/sdk/examples/blinky/ses")
                       ++ str "/")
                    (resolve_path (str "/w") (str "/sdk/examples/blinky/ses")
                                  (str "../main.c")) = true).
Proof.
  apply (file_loop_copies_every_reference (str "/w") (str "/sdk/examples/blinky/ses")
           (str "out") false (fun _ _ _ => true)).
  - reflexivity.
  - right. left. reflexivity.
  - discriminate.
Defined.

(** ** References written with backslashes *)

Lemma replace_char_idempotent (a b : ascii) (s : text) :
  a <> b -> replace_char a b (replace_char a b s) = replace_char a b s.
Proof.
  intros Hab. unfold replace_char. rewrite map_map. apply map_ext. intros c.
  destruct (Ascii.eqb c a) eqn:E; [|now rewrite E].
  destruct (Ascii.eqb b a) eqn:E'; [|reflexivity].
  apply Ascii.eqb_eq in E'. congruence.
Qed.

Lemma replace_char_removes (a b : ascii) (s : text) :
  a <> b -> ~ In a (replace_char a b s).
Proof.
  intros Hab H. unfold replace_char in H. apply in_map_iff in H as (x & Hx & _).
  destruct (Ascii.eqb x a) eqn:E; [congruence|].
  subst x. now rewrite Ascii.eqb_refl in E.
Qed.

(** X16 ([create_target_path]): outside the fallback, a reference written
    with backslashes is mapped exactly like the same reference written with
    slashes, destination and new reference alike, and the new reference
    holds no backslash. *)
Theorem backslash_reference_mapped_like_slashes (output_dir original_rel_path_xml : text) :
  rel_to_sdk_root_parts original_rel_path_xml <> [] ->
  create_target_path output_dir SDK_FILES_SUBDIR original_rel_path_xml
  = create_target_path output_dir SDK_FILES_SUBDIR
                       (replace_char "\" "/" original_rel_path_xml)
  /\ ~ In "\"%char
          (snd (create_target_path output_dir SDK_FILES_SUBDIR original_rel_path_xml)).
Proof.
  intros Hne.
  assert (Hparts : rel_to_sdk_root_parts (replace_char "\" "/" original_rel_path_xml)
                   = rel_to_sdk_root_parts original_rel_path_xml).
  { unfold rel_to_sdk_root_parts. now rewrite replace_char_idempotent by discriminate. }
  assert (Hrel : target_rel_path_unix SDK_FILES_SUBDIR
                   (replace_char "\" "/" original_rel_path_xml)
                 = target_rel_path_unix SDK_FILES_SUBDIR original_rel_path_xml).
  { unfold target_rel_path_unix. rewrite Hparts.
    destruct (rel_to_sdk_root_parts original_rel_path_xml); [congruence|reflexivity]. }
  split.
  - unfold create_target_path. now rewrite Hrel.
  - unfold create_target_path. cbn [snd]. rewrite <- Hrel. intros H.
    apply target_rel_path_chars in H as [H|[H|H]].
    + vm_compute in H. intuition discriminate.
    + discriminate.
    + revert H. apply replace_char_removes. discriminate.
Qed.

Lemma backslash_reference_mapped_like_slashes_witness :
  create_target_path (str "out") SDK_FILES_SUBDIR (str "..\..\..\components\boards\boards.c")
  = create_target_path (str "out") SDK_FILES_SUBDIR
                       (replace_char "\" "/" (str "..\..\..\components\boards\boards.c"))
  /\ ~ In "\"%char
          (snd (create_target_path (str "out") SDK_FILES_SUBDIR
                                   (str "..\..\..\components\boards\boards.c"))).
Proof.
  apply (backslash_reference_mapped_like_slashes (str "out")
           (str "..\..\..\components\boards\boards.c")).
  discriminate.
Defined.
